(** * Batch execution engine of grok-imagine-image-mcp-server

    A shallow embedding of [src/utils/batch-config.ts] (the validation and
    the merge of a configuration, [resolveOutputPath], [Semaphore],
    [MODEL_COSTS] and [BatchManager]), of the command line of
    [src/cli/batch.ts] ([parseArgs] and [main]) and of the parts of the two
    image tools that [executeJob] depends on, followed by the properties
    stated about them.

    Conventions of the embedding.
    - A JavaScript string is a [string]: a sequence of code units below 256.
      [toLowerCase], [trim] and the character classes of the regular
      expressions are the JavaScript ones restricted to these code units.
    - A JavaScript number that holds a count, an index or a duration is a
      [Z] (or a [nat] for array positions); a price is an IEEE-754 binary64
      [float], which is what a JavaScript number is.
    - An optional field [f?: T] is an [option T]; [a || b] and [a ?? b] are
      written out with the falsy values of the type of [a].
    - Asynchronous code threads a [World] (clock and effect log) explicitly;
      the answers of the remote image operation are an input of the model.
    - A function that throws returns the error it throws as a value. *)

From Stdlib Require Import ZArith List Bool Ascii String Lia Arith.
From Stdlib Require Import Floats.
From Stdlib Require Import Sorted Permutation DecimalString Finite.
From Stdlib Require DecimalNat DecimalFacts.
Import ListNotations.

Set Implicit Arguments.
Set Warnings "-inexact-float".
Local Open Scope string_scope.
Local Open Scope Z_scope.

(* ================================================================= *)
(** ** JavaScript strings *)

Module JsString.

Definition code (c : ascii) : nat := nat_of_ascii c.

Definition between (lo hi n : nat) : bool := Nat.leb lo n && Nat.leb n hi.

(** [A-Z]: the only code units the [i] flag of a regular expression
    identifies with another one when the pattern letter is ASCII. *)
Definition is_ascii_upper (c : ascii) : bool := between 65 90 (code c).

(** Upper-case letters of the first 256 code points: A-Z, and
    U+00C0..U+00DE without the multiplication sign U+00D7. *)
Definition is_upper (c : ascii) : bool :=
  is_ascii_upper c
  || (between 192 222 (code c) && negb (Nat.eqb (code c) 215)).

Definition shift32 (c : ascii) : ascii := ascii_of_nat (code c + 32).

(** [String.prototype.toLowerCase], one code unit at a time. *)
Definition lower_char (c : ascii) : ascii :=
  if is_upper c then shift32 c else c.

Fixpoint toLowerCase (s : string) : string :=
  match s with
  | EmptyString => EmptyString
  | String c s' => String (lower_char c) (toLowerCase s')
  end.

(** Canonicalisation used by a case-insensitive regular expression on an
    ASCII pattern letter. *)
Definition fold_char (c : ascii) : ascii :=
  if is_ascii_upper c then shift32 c else c.

(** [startsWith]: [p] is a prefix of [s]. *)
Fixpoint startsWith (s p : string) {struct p} : bool :=
  match p, s with
  | EmptyString, _ => true
  | String _ _, EmptyString => false
  | String a p', String b s' => Ascii.eqb a b && startsWith s' p'
  end.

(** [String.prototype.includes]: [p] occurs in [s] at some position. *)
Fixpoint includes (s p : string) : bool :=
  startsWith s p
  || match s with
     | EmptyString => false
     | String _ s' => includes s' p
     end.

(** WhiteSpace and LineTerminator code units below 256: TAB, LF, VT, FF,
    CR, SPACE and NBSP.  This is both [\s] and what [trim] removes. *)
Definition is_space (c : ascii) : bool :=
  between 9 13 (code c) || Nat.eqb (code c) 32 || Nat.eqb (code c) 160.

Fixpoint trimStart (s : string) : string :=
  match s with
  | EmptyString => EmptyString
  | String c s' => if is_space c then trimStart s' else s
  end.

(** Drops the trailing white space: a character is kept when it is not
    white space or when something is kept after it. *)
Fixpoint trimEnd (s : string) : string :=
  match s with
  | EmptyString => EmptyString
  | String c s' =>
      match trimEnd s' with
      | EmptyString => if is_space c then EmptyString else String c EmptyString
      | t => String c t
      end
  end.

Definition trim (s : string) : string := trimEnd (trimStart s).

(** Truthiness of an optional string: [undefined] and [''] are falsy. *)
Definition truthy (o : option string) : bool :=
  match o with
  | Some (String _ _) => true
  | _ => false
  end.

(** [a || b] for an optional string [a]. *)
Definition or_else (a : option string) (b : option string) : option string :=
  if truthy a then a else b.

End JsString.

(* ================================================================= *)
(** ** Configuration records ([src/types/batch.ts]) *)

Record BatchJobConfig := {
  prompt : string;
  output_path : option string;
  model : option string;
  aspect_ratio : option string;
  resolution : option string;
  n : option Z;
  image_path : option string;
  image_base64 : option string;
  image_url : option string
}.

Record RetryPolicy := {
  max_retries : option Z;
  retry_delay_ms : option Z;
  retry_on_errors : option (list string)
}.

Record BatchConfig := {
  jobs : list BatchJobConfig;
  output_dir : option string;
  max_concurrent : option Z;
  timeout : option Z;
  retry_policy : option RetryPolicy;
  default_model : option string;
  default_resolution : option string;
  default_aspect_ratio : option string
}.

(** [a ?? b] *)
Definition nullish {A} (a : option A) (b : A) : A :=
  match a with Some x => x | None => b end.

(** [a || b] for an optional number: [undefined] and [0] are falsy. *)
Definition num_or (a : option Z) (b : Z) : Z :=
  match a with
  | Some x => if x =? 0 then b else x
  | None => b
  end.

(* ================================================================= *)
(** ** Retry policy *)

Module Retry.

(** The literal of [mergeBatchConfig] and of [executeJob]. *)
Definition default_patterns : list string :=
  ["rate_limit"; "timeout"; "429"; "503"].

(** [mergeBatchConfig], the retry policy: [merged.retry_policy ?? {...}]. *)
Definition merged_retry_policy (c : BatchConfig) : RetryPolicy :=
  nullish (retry_policy c)
    {| max_retries := Some 2;
       retry_delay_ms := Some 1000;
       retry_on_errors := Some default_patterns |}.

(** [executeJob], lines 554-557.
    [config.retry_policy || { max_retries: 2, retry_delay_ms: 1000 }] *)
Definition retryPolicy (c : BatchConfig) : RetryPolicy :=
  nullish (retry_policy c)
    {| max_retries := Some 2;
       retry_delay_ms := Some 1000;
       retry_on_errors := None |}.

Definition maxRetries (c : BatchConfig) : Z :=
  nullish (max_retries (retryPolicy c)) 2.

Definition retryDelay (c : BatchConfig) : Z :=
  nullish (retry_delay_ms (retryPolicy c)) 1000.

Definition retryPatterns (c : BatchConfig) : list string :=
  nullish (retry_on_errors (retryPolicy c)) default_patterns.

(** [executeJob], lines 655-659. *)
Definition shouldRetry (lastError : string) (attempt maxRetries : Z)
           (retryPatterns : list string) : bool :=
  (attempt <? maxRetries)
  && existsb
       (fun pattern =>
          JsString.includes (JsString.toLowerCase lastError)
                            (JsString.toLowerCase pattern))
       retryPatterns.

(** The specification's reading of a case-insensitive literal substring:
    some contiguous piece of the message equals the pattern once both are
    lower-cased. *)
Definition contains_ci (msg pattern : string) : Prop :=
  exists pre mid post,
    msg = pre ++ mid ++ post
    /\ JsString.toLowerCase mid = JsString.toLowerCase pattern.

End Retry.

(* ================================================================= *)
(** ** Regular expressions

    A backtracking matcher for the fragment the executor uses: a sequence
    of literals, alternations of literals, greedy [c*] and [c+] over a
    character class, and one capture group of the shape [(c+)]. *)

Module Regex.

Definition cls := ascii -> bool.

Inductive atom :=
| Lit (s : string)
| Alt (alts : list string)
| Star (c : cls)
| Plus (c : cls)
| CapPlus (c : cls).

Record regex := { ignoreCase : bool; atoms : list atom }.

Record Match := { whole : string; group1 : option string; rest : string }.

Definition char_eq (ci : bool) (a b : ascii) : bool :=
  if ci then Ascii.eqb (JsString.fold_char a) (JsString.fold_char b)
  else Ascii.eqb a b.

(** Consumes the literal [lit] at the head of [s]: the text consumed and
    what follows it. *)
Fixpoint eat (ci : bool) (lit s : string) {struct lit}
  : option (string * string) :=
  match lit, s with
  | EmptyString, _ => Some (EmptyString, s)
  | String _ _, EmptyString => None
  | String a lit', String b s' =>
      if char_eq ci a b then
        match eat ci lit' s' with
        | Some (m, r) => Some (String b m, r)
        | None => None
        end
      else None
  end.

(** Greedy repetition of the class [c] followed by the continuation [k]:
    the longest run is tried first and given back one character at a
    time while [k] fails. *)
Fixpoint star (c : cls) (k : string -> option Match) (s : string)
  : option (string * Match) :=
  let stop := option_map (pair EmptyString) (k s) in
  match s with
  | EmptyString => stop
  | String a s' =>
      if c a then
        match star c k s' with
        | Some (m, r) => Some (String a m, r)
        | None => stop
        end
      else stop
  end.

Definition plus (c : cls) (k : string -> option Match) (s : string)
  : option (string * Match) :=
  match s with
  | EmptyString => None
  | String a s' =>
      if c a then
        match star c k s' with
        | Some (m, r) => Some (String a m, r)
        | None => None
        end
      else None
  end.

Definition prepend (m : string) (r : Match) : Match :=
  {| whole := m ++ whole r; group1 := group1 r; rest := rest r |}.

Definition capture (m : string) (r : Match) : Match :=
  {| whole := m ++ whole r; group1 := Some m; rest := rest r |}.

(** The first alternative, in order, after which [k] succeeds. *)
Fixpoint first_alt (ci : bool) (k : string -> option Match)
         (alts : list string) (s : string) : option Match :=
  match alts with
  | [] => None
  | l :: alts' =>
      match eat ci l s with
      | Some (m, r) =>
          match k r with
          | Some res => Some (prepend m res)
          | None => first_alt ci k alts' s
          end
      | None => first_alt ci k alts' s
      end
  end.

(** A match of the atoms [r] that starts at the head of [s]. *)
Fixpoint match_here (ci : bool) (r : list atom) (s : string) {struct r}
  : option Match :=
  match r with
  | [] => Some {| whole := EmptyString; group1 := None; rest := s |}
  | Lit l :: r' => first_alt ci (match_here ci r') [l] s
  | Alt alts :: r' => first_alt ci (match_here ci r') alts s
  | Star c :: r' =>
      option_map (fun '(m, res) => prepend m res)
                 (star c (match_here ci r') s)
  | Plus c :: r' =>
      option_map (fun '(m, res) => prepend m res)
                 (plus c (match_here ci r') s)
  | CapPlus c :: r' =>
      option_map (fun '(m, res) => capture m res)
                 (plus c (match_here ci r') s)
  end.

(** [RegExp.prototype.exec] without the [g] flag: the leftmost match. *)
Fixpoint exec (re : regex) (s : string) : option Match :=
  match match_here (ignoreCase re) (atoms re) s with
  | Some m => Some m
  | None =>
      match s with
      | EmptyString => None
      | String _ s' => exec re s'
      end
  end.

(** [String.prototype.match] with the [g] flag: the texts of the
    successive matches, each search resuming where the previous match
    ended ([skip] counts the characters of the current match still to be
    passed; after an empty match the search resumes one character on). *)
Fixpoint match_all_from (re : regex) (skip : nat) (s : string)
  : list string :=
  match skip with
  | S k =>
      match s with
      | EmptyString => []
      | String _ s' => match_all_from re k s'
      end
  | O =>
      match match_here (ignoreCase re) (atoms re) s with
      | Some m =>
          whole m ::
          match s with
          | EmptyString => []
          | String _ s' =>
              match_all_from re (Nat.pred (String.length (whole m))) s'
          end
      | None =>
          match s with
          | EmptyString => []
          | String _ s' => match_all_from re O s'
          end
      end
  end.

Definition match_all (re : regex) (s : string) : list string :=
  match_all_from re O s.

Definition LF : ascii := ascii_of_nat 10.
Definition CR : ascii := ascii_of_nat 13.

(** [[^:]] *)
Definition not_colon (c : ascii) : bool := negb (Ascii.eqb c ":"%char).
(** [[^\n]] *)
Definition not_newline (c : ascii) : bool := negb (Ascii.eqb c LF).
(** [.] : any code unit but a line terminator. *)
Definition dot (c : ascii) : bool :=
  negb (Ascii.eqb c LF) && negb (Ascii.eqb c CR).

(** [/(?:saved|generated|edited)[^:]*:\s*([^\n]+)/gi] *)
Definition re_saved : regex :=
  {| ignoreCase := true;
     atoms := [Alt ["saved"; "generated"; "edited"]; Star not_colon;
               Lit ":"; Star JsString.is_space; CapPlus not_newline] |}.

(** [/:\s*(.+)/] *)
Definition re_after_colon : regex :=
  {| ignoreCase := false;
     atoms := [Lit ":"; Star JsString.is_space; CapPlus dot] |}.

(** [/Revised prompt:\s*(.+)/i] *)
Definition re_revised : regex :=
  {| ignoreCase := true;
     atoms := [Lit "Revised prompt:"; Star JsString.is_space;
               CapPlus dot] |}.

End Regex.

(* ================================================================= *)
(** ** Job results ([BatchJobResult], [src/types/batch.ts]) *)

Inductive Status := Completed | Failed | Cancelled.

Definition Status_eqb (a b : Status) : bool :=
  match a, b with
  | Completed, Completed | Failed, Failed | Cancelled, Cancelled => true
  | _, _ => false
  end.

Module Result.
Record BatchJobResult := {
  index : nat;
  prompt : string;
  status : Status;
  output_paths : option (list string);
  error : option string;
  duration_ms : option Z;
  revised_prompt : option string;
  is_edit : option bool
}.
End Result.
Abbreviation BatchJobResult := Result.BatchJobResult.

(* ================================================================= *)
(** ** The world of an executing job *)

(** The parameters [executeJob] passes to [editImage] and [generateImage]. *)
Inductive Request :=
| EditImage (prompt : string) (image_path image_base64 image_url : option string)
            (output_path : string) (model : option string) (n : Z)
            (resolution : option string)
| GenerateImage (prompt : string) (output_path : string)
                (model : option string) (n : Z)
                (aspect_ratio resolution : option string).

Inductive Effect :=
| Called (r : Request)
| Slept (ms : Z).

(** [now] is [Date.now()]; [effects] are the calls and sleeps so far, the
    oldest first. *)
Record World := { now : Z; effects : list Effect }.

(** What the image operation may answer. *)
Record ContentItem := { type : string; text : option string }.

Inductive Resolved :=
| RString (s : string)
| RContent (content : list ContentItem)
| ROther.

(** A thrown value, seen through [error.message] and [String(error)]. *)
Record Thrown := { message : option string; as_string : string }.

Inductive Response :=
| Resolves (r : Resolved)
| Throws (e : Thrown).

(** The answer to one attempt: how long the call takes and how it ends. *)
Definition Answer : Type := Z * Response.

Definition M (A : Type) : Type := World -> A * World.

Definition ret {A} (a : A) : M A := fun w => (a, w).

Definition bind {A B} (m : M A) (k : A -> M B) : M B :=
  fun w => let (a, w') := m w in k a w'.

Declare Scope exec_scope.
Delimit Scope exec_scope with exec.
Notation "x <- m ;; k" := (bind m (fun x => k))
  (at level 61, m at next level, right associativity) : exec_scope.
Notation "m ;;; k" := (bind m (fun _ => k))
  (at level 61, right associativity) : exec_scope.

Definition dateNow : M Z := fun w => (now w, w).

(** [await editImage(...)] or [await generateImage(...)]. *)
Definition awaitCall (a : Answer) (req : Request) : M Response :=
  fun w => (snd a, {| now := now w + fst a; effects := effects w ++ [Called req] |}).

(** [await new Promise((resolve) => setTimeout(resolve, ms))]. *)
Definition sleep (ms : Z) : M unit :=
  fun w => (tt, {| now := now w + ms; effects := effects w ++ [Slept ms] |}).

(* ================================================================= *)
(** ** Job executor ([BatchManager.executeJob]) *)

Module Executor.

Definition isEditJob (job : BatchJobConfig) : bool :=
  JsString.truthy (image_path job)
  || JsString.truthy (image_base64 job)
  || JsString.truthy (image_url job).

(** Lines 570-592: the call made on every attempt. *)
Definition request (job : BatchJobConfig) (outputPath : string)
           (config : BatchConfig) : Request :=
  if isEditJob job then
    EditImage (prompt job) (image_path job) (image_base64 job)
              (image_url job) outputPath
              (JsString.or_else (model job) (default_model config))
              (num_or (n job) 1)
              (JsString.or_else (resolution job) (default_resolution config))
  else
    GenerateImage (prompt job) outputPath
                  (JsString.or_else (model job) (default_model config))
                  (num_or (n job) 1)
                  (JsString.or_else (aspect_ratio job)
                                    (default_aspect_ratio config))
                  (JsString.or_else (resolution job)
                                    (default_resolution config)).

(** Lines 597-605: one path for each matched line in which a colon is
    followed by something on the same line. *)
Definition extractPaths (text : string) : list string :=
  flat_map
    (fun m =>
       match Regex.exec Regex.re_after_colon m with
       | Some pathMatch =>
           match Regex.group1 pathMatch with
           | Some g => [JsString.trim g]
           | None => []
           end
       | None => []
       end)
    (Regex.match_all Regex.re_saved text).

(** Lines 608-611. *)
Definition extractRevisedPrompt (text : string) : option string :=
  match Regex.exec Regex.re_revised text with
  | Some promptMatch => option_map JsString.trim (Regex.group1 promptMatch)
  | None => None
  end.

(** Lines 595-631: paths and revised prompt read from the result. *)
Definition parseResult (result : Resolved) : list string * option string :=
  match result with
  | RString s => (extractPaths s, extractRevisedPrompt s)
  | RContent content =>
      match find (fun c => String.eqb (type c) "text") content with
      | Some textContent =>
          match text textContent with
          | Some (String a t) =>
              (extractPaths (String a t), extractRevisedPrompt (String a t))
          | _ => ([], None)
          end
      | None => ([], None)
      end
  | ROther => ([], None)
  end.

(** [error.message || String(error)] *)
Definition errorText (e : Thrown) : string :=
  match message e with
  | Some (String a m) => String a m
  | _ => as_string e
  end.

Section Job.

Variable job : BatchJobConfig.
Variable index : nat.
Variable outputPath : string.
Variable config : BatchConfig.
(** The answer of the image operation to each attempt, by attempt. *)
Variable answers : nat -> Answer.

Definition jobIndex : nat := (index + 1)%nat.

Definition completedResult (paths : list string) (revised : option string)
           (duration : Z) : BatchJobResult :=
  {| Result.index := jobIndex;
     Result.prompt := prompt job;
     Result.status := Completed;
     Result.output_paths := Some paths;
     Result.error := None;
     Result.duration_ms := Some duration;
     Result.revised_prompt := revised;
     Result.is_edit := Some (isEditJob job) |}.

Definition failedResult (lastError : string) (duration : Z)
  : BatchJobResult :=
  {| Result.index := jobIndex;
     Result.prompt := prompt job;
     Result.status := Failed;
     Result.output_paths := None;
     Result.error := Some lastError;
     Result.duration_ms := Some duration;
     Result.revised_prompt := None;
     Result.is_edit := Some (isEditJob job) |}.

(** The [for] loop of lines 562-666 over the attempts still to make,
    and the code after it (lines 668-677) when none is left. *)
Fixpoint attemptLoop (startTime : Z) (attempts : list nat)
         (lastError : string) : M BatchJobResult :=
  match attempts with
  | [] =>
      (t <- dateNow ;;
       ret (failedResult lastError (t - startTime)))%exec
  | attempt :: later =>
      (response <- awaitCall (answers attempt)
                             (request job outputPath config) ;;
       match response with
       | Resolves result =>
           let (parsed, revisedPrompt) := parseResult result in
           let outputPaths :=
             match parsed with
             | [] => [outputPath]
             | _ => parsed
             end in
           t <- dateNow ;;
           ret (completedResult outputPaths revisedPrompt (t - startTime))
       | Throws e =>
           let lastError := errorText e in
           (if Retry.shouldRetry lastError (Z.of_nat attempt)
                                 (Retry.maxRetries config)
                                 (Retry.retryPatterns config)
            then sleep (Retry.retryDelay config)
            else ret tt) ;;;
           attemptLoop startTime later lastError
       end)%exec
  end.

(** The values [attempt] takes in
    [for (let attempt = 0; attempt <= maxRetries; attempt++)]. *)
Definition attemptRange : list nat :=
  seq 0 (Z.to_nat (Retry.maxRetries config + 1)).

Definition executeJob : M BatchJobResult :=
  (startTime <- dateNow ;;
   attemptLoop startTime attemptRange EmptyString)%exec.

End Job.

(** The calls among the effects of a run: one per attempt. *)
Definition attemptsMade (w : World) : nat :=
  List.length
    (filter (fun e => match e with Called _ => true | Slept _ => false end)
            (effects w)).

(** *** Vocabulary of the statements about the executor *)

(** The paths a completed job records for the result [r]: those parsed
    from it, or the expected output path when none was parsed. *)
Definition recordedPaths (outputPath : string) (r : Resolved)
  : list string :=
  match fst (parseResult r) with
  | [] => [outputPath]
  | p :: ps => p :: ps
  end.

(** A call, then [k] times a sleep of [d] and a call. *)
Definition spacedCalls (req : Request) (d : Z) (k : nat) : list Effect :=
  Called req :: List.concat (repeat [Slept d; Called req] k).

(** Every attempt of [attempts] throws an error whose text satisfies [P]. *)
Definition allThrow (answers : nat -> Answer) (P : string -> Prop)
           (attempts : list nat) : Prop :=
  forall k, In k attempts ->
            exists e, snd (answers k) = Throws e /\ P (errorText e).

(** The message matches one of the retryable patterns of [config]. *)
Definition retryable (config : BatchConfig) (msg : string) : Prop :=
  exists pattern, In pattern (Retry.retryPatterns config)
                  /\ Retry.contains_ci msg pattern.

End Executor.

(* ================================================================= *)
(** ** Concurrency limiter ([class Semaphore]) *)

Module Limiter.

(** [permits] is the counter; [queue] holds the [resolve] callbacks of
    the suspended acquirers, each standing for the task it resumes. *)
Record Semaphore (T : Type) := { permits : Z; queue : list T }.

Arguments permits {T} _.
Arguments queue {T} _.

(** [constructor(permits)] *)
Definition new {T} (permits : Z) : Semaphore T :=
  {| permits := permits; queue := [] |}.

(** [acquire()] called by task [t]: [true] when the promise resolves at
    once, [false] when the task is suspended. *)
Definition acquire {T} (t : T) (s : Semaphore T) : bool * Semaphore T :=
  if 0 <? permits s
  then (true, {| permits := permits s - 1; queue := queue s |})
  else (false, {| permits := permits s; queue := (queue s ++ [t])%list |}).

(** [release()]: the task whose [acquire] it resolves, if any. *)
Definition release {T} (s : Semaphore T) : option T * Semaphore T :=
  match queue s with
  | next :: rest => (Some next, {| permits := permits s; queue := rest |})
  | [] => (None, {| permits := permits s + 1; queue := [] |})
  end.

(** *** An instrumented limiter

    The limiter together with what an observer of its calls records:
    which tasks hold a permit, how many permits were granted and given
    back, and in which order tasks were suspended and woken. *)

Inductive Op :=
| Acquire (t : nat)
| Release (t : nat).

Record System := {
  sem : Semaphore nat;
  holders : list nat;
  granted : nat;
  released : nat;
  suspended : list nat;
  woken : list nat
}.

Definition init (C : Z) : System :=
  {| sem := new C; holders := []; granted := 0; released := 0;
     suspended := []; woken := [] |}.

(** Removes one occurrence of [t]. *)
Fixpoint drop (t : nat) (l : list nat) : list nat :=
  match l with
  | [] => []
  | x :: l' => if Nat.eqb x t then l' else x :: drop t l'
  end.

Definition step (o : Op) (s : System) : System :=
  match o with
  | Acquire t =>
      let (now_, sem') := acquire t (sem s) in
      if now_
      then {| sem := sem'; holders := (holders s ++ [t])%list;
              granted := S (granted s); released := released s;
              suspended := suspended s; woken := woken s |}
      else {| sem := sem'; holders := holders s;
              granted := granted s; released := released s;
              suspended := (suspended s ++ [t])%list; woken := woken s |}
  | Release t =>
      let (next, sem') := release (sem s) in
      match next with
      | Some u =>
          {| sem := sem'; holders := (drop t (holders s) ++ [u])%list;
             granted := S (granted s); released := S (released s);
             suspended := suspended s; woken := (woken s ++ [u])%list |}
      | None =>
          {| sem := sem'; holders := drop t (holders s);
             granted := granted s; released := S (released s);
             suspended := suspended s; woken := woken s |}
      end
  end.

(** The state after the calls [ops], made in this order. *)
Definition exec (ops : list Op) (s : System) : System :=
  fold_left (fun s o => step o s) ops s.

(** Every [release] of [ops] is made by a task that holds a permit, as
    in [executeBatch], where it follows the task's own [acquire]. *)
Fixpoint disciplined (ops : list Op) (s : System) : bool :=
  match ops with
  | [] => true
  | o :: ops' =>
      match o with
      | Acquire _ => true
      | Release t => existsb (Nat.eqb t) (holders s)
      end
      && disciplined ops' (step o s)
  end.

(** What every call preserves, for a limiter created with [C] permits. *)
Definition balanced (C : Z) (s : System) : Prop :=
  0 <= permits (sem s)
  /\ Z.of_nat (granted s) - Z.of_nat (released s) = C - permits (sem s)
  /\ suspended s = (woken s ++ queue (sem s))%list.

End Limiter.

(* ================================================================= *)
(** ** Cost estimator ([MODEL_COSTS], [BatchManager.estimateBatchCost]) *)

Module Cost.

(** A count held in a JavaScript number, as the binary64 it is; exact for
    the counts of a batch, which are far below 2^53. *)
Definition num (z : Z) : float :=
  if z <? 0 then PrimFloat.opp (PrimFloat.of_uint63 (Uint63.of_Z (- z)))
  else PrimFloat.of_uint63 (Uint63.of_Z z).

Record ModelCost := { base : float; edit_input : float }.

Definition MODEL_COSTS : list (string * ModelCost) :=
  [("grok-imagine-image", {| base := 0.02; edit_input := 0.002 |});
   ("grok-2-image", {| base := 0.07; edit_input := 0 |});
   ("grok-2-image-latest", {| base := 0.07; edit_input := 0 |});
   ("grok-2-image-1212", {| base := 0.07; edit_input := 0 |})]%float.

(** An own property of an object literal, by key. *)
Fixpoint lookup {A} (key : string) (o : list (string * A)) : option A :=
  match o with
  | [] => None
  | (k, v) :: o' => if String.eqb k key then Some v else lookup key o'
  end.

(** [MODEL_COSTS[modelName] || MODEL_COSTS['grok-imagine-image']] *)
Definition costsOf (modelName : string) : ModelCost :=
  match lookup modelName MODEL_COSTS with
  | Some c => c
  | None => {| base := 0.02; edit_input := 0.002 |}%float
  end.

(** [job.model || config.default_model || 'grok-imagine-image'] *)
Definition effectiveModel (config : BatchConfig) (job : BatchJobConfig)
  : string :=
  match JsString.or_else (model job) (default_model config) with
  | Some (String a m) => String a m
  | _ => "grok-imagine-image"
  end.

(** [job.n || 1] *)
Definition imageCount (job : BatchJobConfig) : Z := num_or (n job) 1.

(** [!!(job.image_path || job.image_base64 || job.image_url)] *)
Definition isEditJob (job : BatchJobConfig) : bool :=
  JsString.truthy (image_path job)
  || JsString.truthy (image_base64 job)
  || JsString.truthy (image_url job).

(** [`${model}${isEdit ? '_edit' : ''}`] *)
Definition groupKey (m : string) (edit : bool) : string :=
  m ++ (if edit then "_edit" else "").

Definition keyOf (config : BatchConfig) (job : BatchJobConfig) : string :=
  groupKey (effectiveModel config job) (isEditJob job).

Record Group := { count : Z; images : Z; isEdit : bool }.

(** Lines 403-407 on the object [modelCounts], whose own properties are
    kept in insertion order, the order in which [Object.entries] lists
    them. *)
Fixpoint tally (key : string) (n : Z) (edit : bool)
         (modelCounts : list (string * Group)) : list (string * Group) :=
  match modelCounts with
  | [] => [(key, {| count := 0 + 1; images := 0 + n; isEdit := edit |})]
  | (k, g) :: rest =>
      if String.eqb k key
      then (k, {| count := count g + 1; images := images g + n;
                  isEdit := isEdit g |}) :: rest
      else (k, g) :: tally key n edit rest
  end.

(** The first loop, lines 397-408. *)
Definition countJobs (config : BatchConfig) : list (string * Group) :=
  fold_left
    (fun modelCounts job =>
       tally (keyOf config job) (imageCount job) (isEditJob job) modelCounts)
    (jobs config) [].

(** [key.replace('_edit', '')]: the first occurrence is removed. *)
Fixpoint removeFirstEdit (key : string) : string :=
  if JsString.startsWith key "_edit"
  then String.substring 5 (String.length key - 5) key
  else match key with
       | EmptyString => EmptyString
       | String c key' => String c (removeFirstEdit key')
       end.

(** An element of [CostEstimate['breakdown']]. *)
Module Breakdown.
Record Entry := {
  model : string;
  count : Z;
  images : Z;
  costMin : float;
  costMax : float
}.
End Breakdown.

Record CostEstimate := {
  totalJobs : nat;
  totalImages : Z;
  estimatedCostMin : float;
  estimatedCostMax : float;
  breakdown : list Breakdown.Entry
}.

(** Lines 415-419. *)
Definition groupCost (key : string) (data : Group) : float :=
  let costs := costsOf (removeFirstEdit key) in
  let baseCost := (base costs * num (images data))%float in
  let editCost :=
    if isEdit data then (edit_input costs * num (count data))%float
    else 0%float in
  (baseCost + editCost)%float.

(** The variables the second loop updates. *)
Module Loop.
Record Vars := {
  totalMin : float;
  totalMax : float;
  totalImages : Z;
  breakdown : list Breakdown.Entry
}.
End Loop.

(** One iteration of the second loop, lines 414-432. *)
Definition priceGroup (t : Loop.Vars) (kd : string * Group) : Loop.Vars :=
  let (key, data) := kd in
  let cost := groupCost key data in
  {| Loop.totalMin := (Loop.totalMin t + cost)%float;
     Loop.totalMax := (Loop.totalMax t + cost)%float;
     Loop.totalImages := Loop.totalImages t + images data;
     Loop.breakdown :=
       (Loop.breakdown t
        ++ [{| Breakdown.model := key; Breakdown.count := count data;
               Breakdown.images := images data;
               Breakdown.costMin := cost; Breakdown.costMax := cost |}])%list |}.

Definition estimateBatchCost (config : BatchConfig) : CostEstimate :=
  let modelCounts := countJobs config in
  let t := fold_left priceGroup modelCounts
             {| Loop.totalMin := 0%float; Loop.totalMax := 0%float;
                Loop.totalImages := 0; Loop.breakdown := [] |} in
  {| totalJobs := List.length (jobs config);
     totalImages := Loop.totalImages t;
     estimatedCostMin := Loop.totalMin t;
     estimatedCostMax := Loop.totalMax t;
     breakdown := Loop.breakdown t |}.

(** A [for ... of] loop that updates the variables [vars] in a running
    program. *)
Fixpoint forOf {A V} (l : list A) (body : V -> A -> M V) (vars : V) : M V :=
  match l with
  | [] => ret vars
  | x :: l' => (vars' <- body vars x ;; forOf l' body vars')%exec
  end.

(** The method as a step of a running program, statement by statement:
    the two loops update local variables only, and nothing reads the clock
    or calls the image operation. *)
Definition estimate (config : BatchConfig) : M CostEstimate :=
  (modelCounts <-
     forOf (jobs config)
           (fun modelCounts job =>
              ret (tally (keyOf config job) (imageCount job) (isEditJob job)
                         modelCounts))
           [] ;;
   t <- forOf modelCounts (fun t kd => ret (priceGroup t kd))
              {| Loop.totalMin := 0%float; Loop.totalMax := 0%float;
                 Loop.totalImages := 0; Loop.breakdown := [] |} ;;
   ret {| totalJobs := List.length (jobs config);
          totalImages := Loop.totalImages t;
          estimatedCostMin := Loop.totalMin t;
          estimatedCostMax := Loop.totalMax t;
          breakdown := Loop.breakdown t |})%exec.

(** *** Vocabulary of the statements about the estimator *)

(** The names every object inherits from [Object.prototype]. *)
Definition inheritedNames : list string :=
  ["constructor"; "hasOwnProperty"; "isPrototypeOf"; "propertyIsEnumerable";
   "toLocaleString"; "toString"; "valueOf"; "__proto__";
   "__defineGetter__"; "__defineSetter__"; "__lookupGetter__";
   "__lookupSetter__"].

Definition startsWithDigit (s : string) : bool :=
  match s with
  | String c _ => JsString.between 48 57 (JsString.code c)
  | EmptyString => false
  end.

(** A model identifier for which an object literal behaves as a plain map
    in insertion order and the suffix [_edit] can be told apart: it names
    no inherited property, is not an array index, and does not contain
    [_edit].  The identifiers of [MODELS] are of this kind. *)
Definition ordinaryModel (m : string) : bool :=
  negb (JsString.includes m "_edit")
  && negb (existsb (String.eqb m) inheritedNames)
  && negb (startsWithDigit m).

Definition ordinaryModels (config : BatchConfig) : bool :=
  forallb (fun job => ordinaryModel (effectiveModel config job)) (jobs config).

(** [MODELS] of [types/tools.ts], in the version [MODEL_COSTS] is written
    against; the later version keeps the first identifier only. *)
Definition MODELS : list string :=
  ["grok-imagine-image"; "grok-2-image"; "grok-2-image-latest";
   "grok-2-image-1212"].

(** What [validateBatchConfig] accepts as [model] and [default_model]. *)
Definition knownModel (o : option string) : bool :=
  match o with
  | Some m => existsb (String.eqb m) MODELS
  | None => true
  end.

Definition validModels (config : BatchConfig) : bool :=
  forallb (fun job => knownModel (model job)) (jobs config)
  && knownModel (default_model config).



Definition sumZ (l : list Z) : Z := fold_right Z.add 0 l.



(** The first loop over the jobs [js] only. *)
Definition countOver (config : BatchConfig) (js : list BatchJobConfig)
  : list (string * Group) :=
  fold_left
    (fun modelCounts job =>
       tally (keyOf config job) (imageCount job) (isEditJob job) modelCounts)
    js [].

(** The entry the second loop pushes for a group. *)
Definition entryOf (kd : string * Group) : Breakdown.Entry :=
  {| Breakdown.model := fst kd; Breakdown.count := count (snd kd);
     Breakdown.images := images (snd kd);
     Breakdown.costMin := groupCost (fst kd) (snd kd);
     Breakdown.costMax := groupCost (fst kd) (snd kd) |}.

(** The sum the second loop accumulates, in its order of addition. *)
Definition sumCosts (costs : list float) : float :=
  fold_left PrimFloat.add costs 0%float.


End Cost.

(* ================================================================= *)
(** ** Batch scheduler ([resolveOutputPath], [BatchManager.executeBatch]) *)

(** The job tasks, the semaphore and the timers of [executeBatch] share
    one event loop.  A job shares nothing with the other jobs but the
    semaphore and the array of results, so its outcome and the time at
    which it finishes are determined by the time at which its task obtains
    a permit and by the answers of the image operation.  The model is a
    discrete-event simulation: the completions are delivered in the order
    of their finishing times (the earliest launched first among equals),
    and a completion due at the very millisecond of a timer is delivered
    after the timer.  The report is the object [executeBatch] returns, read
    when it is returned; the array it holds is the one the tasks still in
    flight push into afterwards. *)

Module Scheduler.

(** What the code uses of Node's [path] module and of [process]. *)
Record PathLib := {
  isAbsolute : string -> bool;
  join : string -> string -> string;
  resolve : string -> string
}.

Record Process := { OUTPUT_DIR : option string; cwd : string }.

Record BatchExecutionOptions := { allowAnyPath : option bool }.

(** [process.env.OUTPUT_DIR || process.cwd()] *)
Definition getDefaultOutputDirectory (env : Process) : string :=
  match OUTPUT_DIR env with
  | Some (String a d) => String a d
  | _ => cwd env
  end.

Definition decimal (k : nat) : string :=
  DecimalString.NilZero.string_of_uint (Nat.to_uint k).

(** [resolveOutputPath]; [None] when it throws a [BatchConfigError]. *)
Definition resolveOutputPath (P : PathLib) (job : BatchJobConfig)
           (index : nat) (outputDir : string) (allowAny : bool)
  : option string :=
  match output_path job with
  | Some (String a p) =>
      let given := String a p in
      if isAbsolute P given then
        if negb allowAny
           && negb (JsString.startsWith (resolve P given) (resolve P outputDir))
        then None
        else Some given
      else Some (join P outputDir given)
  | _ =>
      let prefix := if Executor.isEditJob job then "edited" else "generated" in
      Some (join P outputDir (prefix ++ "_" ++ decimal (index + 1) ++ ".jpg"))
  end.

(** A job task: the closure of the [async] function of lines 468-476. *)
Record Task := { position : nat; job : BatchJobConfig; outputPath : string }.

(** The tasks in the order of the jobs, the first at position [i]; [None]
    as soon as an output path cannot be resolved. *)
Fixpoint tasksFrom (P : PathLib) (outputDir : string) (allowAny : bool)
         (i : nat) (js : list BatchJobConfig) : option (list Task) :=
  match js with
  | [] => Some []
  | j :: js' =>
      match resolveOutputPath P j i outputDir allowAny with
      | None => None
      | Some path =>
          option_map
            (cons {| position := i; job := j; outputPath := path |})
            (tasksFrom P outputDir allowAny (S i) js')
      end
  end.

(** A job from the moment it holds a permit: [executeJob] starts at
    [started] and returns [outcome] at [finished]. *)
Record Run := { task : Task; started : Z; finished : Z; outcome : BatchJobResult }.

(** [permits] and [queue] of the semaphore, the jobs in flight, and the
    jobs that have pushed their result, in the order of the pushes. *)
Record Sched := {
  sem : Limiter.Semaphore Task;
  running : list Run;
  landed : list Run
}.

Definition pushed (s : Sched) : list BatchJobResult :=
  map outcome (landed s).

(** *** Vocabulary of the statements about the scheduler *)

Definition place (r : Run) : nat := position (task r).

(** Where every task of the batch is: landed, in flight or waiting. *)
Definition positions (s : Sched) : list nat :=
  (map place (landed s) ++ map place (running s)
   ++ map position (Limiter.queue (sem s)))%list.

(** The outcome of a run is a completed or failed result that carries the
    1-based index of its job. *)
Definition wellFormed (r : Run) : Prop :=
  Result.index (outcome r) = (place r + 1)%nat
  /\ Result.status (outcome r) <> Cancelled.

(** The runs in flight are the permits out of a limiter of capacity [C]. *)
Definition withinCapacity (C : Z) (s : Sched) : Prop :=
  0 <= Limiter.permits (sem s)
  /\ Z.of_nat (List.length (running s)) + Limiter.permits (sem s) = C.

(** Every one of the [n] tasks is in exactly one place. *)
Definition accounted (n : nat) (s : Sched) : Prop :=
  Permutation (positions s) (seq 0 n)
  /\ Forall wellFormed (landed s)
  /\ Forall wellFormed (running s).

Section Batch.

Variable config : BatchConfig.
(** The answer of the image operation to each attempt of each job. *)
Variable answers : nat -> nat -> Answer.

Definition start (t : Task) (at_ : Z) : Run :=
  let (r, w) :=
    Executor.executeJob (job t) (position t) (outputPath t) config
                        (answers (position t)) {| now := at_; effects := [] |} in
  {| task := t; started := at_; finished := now w; outcome := r |}.

(** Lines 468-469 for one task at time [at_]: the call of [acquire]. *)
Definition launch (at_ : Z) (s : Sched) (t : Task) : Sched :=
  let (granted, sem') := Limiter.acquire t (sem s) in
  {| sem := sem';
     running := if granted then (running s ++ [start t at_])%list
                else running s;
     landed := landed s |}.

(** The loop of lines 464-479: every task is created, and runs up to its
    [acquire], before the scheduler waits. *)
Definition launchAll (maxConcurrent : Z) (tasks : list Task) (at_ : Z)
  : Sched :=
  fold_left (launch at_) tasks
            {| sem := Limiter.new maxConcurrent; running := [];
               landed := [] |}.

(** The run that finishes first, the earliest launched among equals, and
    the others. *)
Fixpoint nextToFinish (l : list Run) : option (Run * list Run) :=
  match l with
  | [] => None
  | r :: l' =>
      match nextToFinish l' with
      | None => Some (r, [])
      | Some (m, others) =>
          if finished r <=? finished m then Some (r, l')
          else Some (m, r :: others)
      end
  end.

(** Lines 472-474 for the run [r]: its result is pushed and its permit
    released; a task woken by the release starts at once. *)
Definition land (r : Run) (others : list Run) (s : Sched) : Sched :=
  let (next, sem') := Limiter.release (sem s) in
  {| sem := sem';
     running := match next with
                | Some t => (others ++ [start t (finished r)])%list
                | None => others
                end;
     landed := (landed s ++ [r])%list |}.

(** The event loop up to [deadline]: the runs that finish before it land
    in the order in which they finish.  Each step lands one run, so a
    batch of [fuel] jobs needs no more than [fuel] steps. *)
Fixpoint runUntil (deadline : Z) (fuel : nat) (s : Sched) : Sched :=
  match fuel with
  | O => s
  | S fuel' =>
      match nextToFinish (running s) with
      | Some (r, others) =>
          if finished r <? deadline
          then runUntil deadline fuel' (land r others s)
          else s
      | None => s
      end
  end.

(** [Promise.all(jobPromises)] is settled. *)
Definition allSettled (s : Sched) : bool :=
  match running s, Limiter.queue (sem s) with
  | [], [] => true
  | _, _ => false
  end.

(** The grace period of line 497. *)
Definition grace : Z := 2000.

Definition lastFinish (startTime : Z) (l : list Run) : Z :=
  fold_left (fun t r => Z.max t (finished r)) l startTime.

(** Lines 464-501: the state of the scheduler when the sweep begins, the
    time at which it begins, and whether the timer fired. *)
Definition awaitJobs (tasks : list Task) (startTime : Z)
  : Sched * Z * bool :=
  let maxConcurrent := num_or (max_concurrent config) 2 in
  let timeout_ := num_or (timeout config) 600000 in
  let fuel := List.length tasks in
  let s0 := launchAll maxConcurrent tasks startTime in
  let s1 := runUntil (startTime + timeout_) fuel s0 in
  if allSettled s1
  then (s1, lastFinish startTime (landed s1), false)
  else (runUntil (startTime + timeout_ + grace) fuel s1,
        startTime + timeout_ + grace, true).

Definition cancelledResult (i : nat) (p : string) : BatchJobResult :=
  {| Result.index := i;
     Result.prompt := p;
     Result.status := Cancelled;
     Result.output_paths := None;
     Result.error := Some "Job cancelled due to timeout";
     Result.duration_ms := None;
     Result.revised_prompt := None;
     Result.is_edit := None |}.

(** Lines 504-514. *)
Definition sweep (rs : list BatchJobResult) : list BatchJobResult :=
  let completedIndices := map Result.index rs in
  fold_left
    (fun acc ij =>
       if existsb (Nat.eqb (fst ij + 1)) completedIndices then acc
       else (acc ++ [cancelledResult (fst ij + 1) (prompt (snd ij))])%list)
    (combine (seq 0 (List.length (jobs config))) (jobs config))
    rs.

(** [results.sort((a, b) => a.index - b.index)], a stable sort. *)
Fixpoint insertByIndex (r : BatchJobResult) (l : list BatchJobResult)
  : list BatchJobResult :=
  match l with
  | [] => [r]
  | x :: l' =>
      if (Result.index r <=? Result.index x)%nat then r :: l
      else x :: insertByIndex r l'
  end.

Definition sortByIndex (l : list BatchJobResult) : list BatchJobResult :=
  fold_right insertByIndex [] l.

Definition countStatus (st : Status) (l : list BatchJobResult) : nat :=
  List.length (filter (fun r => Status_eqb (Result.status r) st) l).

(** [BatchResult]; the two timestamps are kept as milliseconds. *)
Record BatchResult := {
  total : nat;
  succeeded : nat;
  failed : nat;
  cancelled : nat;
  results : list BatchJobResult;
  started_at : Z;
  finished_at : Z;
  total_duration_ms : Z;
  estimated_cost : option float
}.

(** Lines 503-541, from the state in which the wait ended. *)
Definition report (s : Sched) (startTime endTime : Z) : BatchResult :=
  let rs := sortByIndex (sweep (pushed s)) in
  {| total := List.length (jobs config);
     succeeded := countStatus Completed rs;
     failed := countStatus Failed rs;
     cancelled := countStatus Cancelled rs;
     results := rs;
     started_at := startTime;
     finished_at := endTime;
     total_duration_ms := endTime - startTime;
     estimated_cost :=
       Some (Cost.estimatedCostMin (Cost.estimateBatchCost config)) |}.

Variable P : PathLib.
Variable env : Process.
Variable options : BatchExecutionOptions.

Definition outputDir : string :=
  match output_dir config with
  | Some (String a d) => String a d
  | _ => getDefaultOutputDirectory env
  end.

Definition tasks : option (list Task) :=
  tasksFrom P outputDir (nullish (allowAnyPath options) false) 0 (jobs config).

(** [executeBatch] called at [startTime]; [None] when it rejects, which it
    does when an output path is refused. *)
Definition executeBatch (startTime : Z) : option BatchResult :=
  match tasks with
  | None => None
  | Some ts =>
      let '(s, endTime, _) := awaitJobs ts startTime in
      Some (report s startTime endTime)
  end.

End Batch.

End Scheduler.

(* ================================================================= *)
(** ** After the report ([BatchManager.executeBatch], the tasks left) *)

(** [executeBatch] returns while the tasks that have not pushed a result
    are still there: nothing stops a job in flight or takes a waiting task
    out of the queue of the semaphore, and [results], into which each task
    pushes when its job returns, is the array the report holds.  When the
    process goes on after the report, the event loop goes on delivering the
    completions in the order of their finishing times. *)

Module Afterwards.

(** The event loop without a deadline; each step lands one run. *)
Fixpoint runOn (config : BatchConfig) (answers : nat -> nat -> Answer)
         (fuel : nat) (s : Scheduler.Sched) : Scheduler.Sched :=
  match fuel with
  | O => s
  | S fuel' =>
      match Scheduler.nextToFinish (Scheduler.running s) with
      | Some (r, others) =>
          runOn config answers fuel' (Scheduler.land config answers r others s)
      | None => s
      end
  end.

(** The state once every task left at the report has had its step. *)
Definition atRest (config : BatchConfig) (answers : nat -> nat -> Answer)
           (s : Scheduler.Sched) : Scheduler.Sched :=
  runOn config answers
        (List.length (Scheduler.running s)
         + List.length (Limiter.queue (Scheduler.sem s)))
        s.

(** The results pushed after the report, in the order of the pushes. *)
Definition latePushes (config : BatchConfig) (answers : nat -> nat -> Answer)
           (s : Scheduler.Sched) : list BatchJobResult :=
  skipn (List.length (Scheduler.landed s))
        (Scheduler.pushed (atRest config answers s)).

(** The array [results] of the report [rep], read at rest. *)
Definition resultsAtRest (config : BatchConfig)
           (answers : nat -> nat -> Answer) (s : Scheduler.Sched)
           (rep : Scheduler.BatchResult) : list BatchJobResult :=
  (Scheduler.results rep ++ latePushes config answers s)%list.

End Afterwards.

(* ================================================================= *)
(** ** Configuration validation ([validateBatchConfig]) *)

(** A configuration is the typed record [JSON.parse] is cast to, so the
    checks on the type of a field ([Array.isArray], [typeof]) have nothing
    to reject and are left out; every other check is kept, in the order of
    the source.  A [throw] is the value [Some] of the error; the texts of
    the errors are kept as constructors, each with what its message
    interpolates. *)

Module Validate.

(** The constants of [types/tools.ts] in the version [batch-config.ts]
    imports; [MODELS] is [Cost.MODELS]. *)
Definition GROK_IMAGINE_ASPECT_RATIOS : list string :=
  ["1:1"; "3:4"; "4:3"; "9:16"; "16:9"].

Definition GROK2_ASPECT_RATIOS : list string :=
  ["1:1"; "3:4"; "4:3"; "9:16"; "16:9"; "2:3"; "3:2"; "9:19.5"; "19.5:9";
   "9:20"; "20:9"; "1:2"; "2:1"; "auto"].

Definition RESOLUTIONS : list string := ["1k"].

(** [Array.prototype.includes] on an array of strings. *)
Definition arrayIncludes (l : list string) (x : string) : bool :=
  existsb (String.eqb x) l.

(** [a || b] for an optional string [a] and a string [b]. *)
Definition string_or (a : option string) (b : string) : string :=
  match a with
  | Some (String c s) => String c s
  | _ => b
  end.

Inductive JobIssue :=
| PromptRequired
| InvalidModel (model : string)
| InvalidAspectRatio (aspect_ratio model : string)
| InvalidResolution (resolution : string)
| InvalidCount
| EditingUnsupported
| AspectRatioOnEdit.

(** [number] is the [index + 1] of the prefix [`Job ${index + 1}`]. *)
Inductive BatchConfigError :=
| JobsEmpty
| TooManyJobs
| JobError (number : nat) (issue : JobIssue)
| InvalidMaxConcurrent
| InvalidTimeout
| InvalidMaxRetries
| InvalidRetryDelay
| InvalidDefaultModel (model : string)
| InvalidDefaultResolution (resolution : string)
| InvalidDefaultAspectRatio (aspect_ratio : string).

(** The outcome of a function that returns nothing or throws. *)
Definition Checked : Type := option BatchConfigError.

Definition throwIf (condition : bool) (e : BatchConfigError) : Checked :=
  if condition then Some e else None.

(** Two statements in sequence: the second runs when the first returns. *)
Definition andThen (first second : Checked) : Checked :=
  match first with
  | Some e => Some e
  | None => second
  end.

Declare Scope check_scope.
Delimit Scope check_scope with check.
Notation "a >> b" := (andThen a b)
  (at level 62, right associativity) : check_scope.

(** [if (x !== undefined) { ... }] *)
Definition whenDefined {A} (x : option A) (body : A -> Checked) : Checked :=
  match x with
  | Some v => body v
  | None => None
  end.

(** [validateJobConfig], lines 133-196. *)
Definition validateJobConfig (job : BatchJobConfig) (index : nat) : Checked :=
  let error := JobError (index + 1) in
  (throwIf (negb (JsString.truthy (Some (prompt job)))
            || (String.length (JsString.trim (prompt job)) =? 0)%nat)
           (error PromptRequired)
   >> whenDefined (model job)
        (fun m => throwIf (negb (arrayIncludes Cost.MODELS m))
                          (error (InvalidModel m)))
   >> whenDefined (aspect_ratio job)
        (fun a =>
           let model := string_or (model job) "grok-imagine-image" in
           let isGrokImagine := String.eqb model "grok-imagine-image" in
           let validRatios :=
             if isGrokImagine then GROK_IMAGINE_ASPECT_RATIOS
             else GROK2_ASPECT_RATIOS in
           throwIf (negb (arrayIncludes validRatios a))
                   (error (InvalidAspectRatio a model)))
   >> whenDefined (resolution job)
        (fun r => throwIf (negb (arrayIncludes RESOLUTIONS r))
                          (error (InvalidResolution r)))
   >> whenDefined (n job)
        (fun k => throwIf ((k <? 1) || (10 <? k)) (error InvalidCount))
   >> (if Executor.isEditJob job
       then
         let model := string_or (model job) "grok-imagine-image" in
         throwIf (negb (String.eqb model "grok-imagine-image"))
                 (error EditingUnsupported)
         >> whenDefined (aspect_ratio job)
              (fun _ => Some (error AspectRatioOnEdit))
       else None))%check.

(** [validateRetryPolicy], lines 201-232. *)
Definition validateRetryPolicy (policy : RetryPolicy) : Checked :=
  (whenDefined (max_retries policy)
     (fun r => throwIf ((r <? 0) || (5 <? r)) InvalidMaxRetries)
   >> whenDefined (retry_delay_ms policy)
        (fun d => throwIf ((d <? 100) || (60000 <? d)) InvalidRetryDelay))%check.

(** [config.jobs.forEach((job, index) => validateJobConfig(job, index))],
    from the job at [index] on. *)
Fixpoint forEachJob (js : list BatchJobConfig) (index : nat) : Checked :=
  match js with
  | [] => None
  | job :: js' =>
      (validateJobConfig job index >> forEachJob js' (S index))%check
  end.

(** [validateBatchConfig], lines 56-128. *)
Definition validateBatchConfig (config : BatchConfig) : Checked :=
  (throwIf (List.length (jobs config) =? 0)%nat JobsEmpty
   >> throwIf (100 <? List.length (jobs config))%nat TooManyJobs
   >> forEachJob (jobs config) 0
   >> whenDefined (max_concurrent config)
        (fun c => throwIf ((c <? 1) || (10 <? c)) InvalidMaxConcurrent)
   >> whenDefined (timeout config)
        (fun t => throwIf ((t <? 1000) || (3600000 <? t)) InvalidTimeout)
   >> whenDefined (retry_policy config) validateRetryPolicy
   >> whenDefined (default_model config)
        (fun m => throwIf (negb (arrayIncludes Cost.MODELS m))
                          (InvalidDefaultModel m))
   >> whenDefined (default_resolution config)
        (fun r => throwIf (negb (arrayIncludes RESOLUTIONS r))
                          (InvalidDefaultResolution r))
   >> whenDefined (default_aspect_ratio config)
        (fun a => throwIf (negb (arrayIncludes GROK2_ASPECT_RATIOS a))
                          (InvalidDefaultAspectRatio a)))%check.

(** *** Vocabulary of the statements about the validation *)

Definition within (lo hi : Z) (x : option Z) : Prop :=
  forall v, x = Some v -> lo <= v <= hi.

Definition oneOf (l : list string) (x : option string) : Prop :=
  forall v, x = Some v -> In v l.

(** What the interface [BatchJobConfig] documents of a job, and the two
    rules for the jobs that edit an image. *)
Record jobInBounds (job : BatchJobConfig) : Prop := {
  prompt_not_blank : JsString.trim (prompt job) <> EmptyString;
  model_known : oneOf Cost.MODELS (model job);
  ratio_of_model :
    oneOf (if String.eqb (string_or (model job) "grok-imagine-image")
                         "grok-imagine-image"
           then GROK_IMAGINE_ASPECT_RATIOS else GROK2_ASPECT_RATIOS)
          (aspect_ratio job);
  resolution_known : oneOf RESOLUTIONS (resolution job);
  count_in_range : within 1 10 (n job);
  edit_model :
    Executor.isEditJob job = true ->
    model job = None \/ model job = Some "grok-imagine-image";
  edit_no_ratio :
    Executor.isEditJob job = true -> aspect_ratio job = None
}.

Record policyInBounds (p : RetryPolicy) : Prop := {
  retries_in_range : within 0 5 (max_retries p);
  delay_in_range : within 100 60000 (retry_delay_ms p)
}.

Record configInBounds (config : BatchConfig) : Prop := {
  jobs_in_range : (1 <= List.length (jobs config) <= 100)%nat;
  every_job : Forall jobInBounds (jobs config);
  concurrency_in_range : within 1 10 (max_concurrent config);
  timeout_in_range : within 1000 3600000 (timeout config);
  policy_ok : forall p, retry_policy config = Some p -> policyInBounds p;
  default_model_known : oneOf Cost.MODELS (default_model config);
  default_resolution_known : oneOf RESOLUTIONS (default_resolution config);
  default_ratio_known : oneOf GROK2_ASPECT_RATIOS (default_aspect_ratio config)
}.

End Validate.

(* ================================================================= *)
(** ** Command line ([src/cli/batch.ts]) *)

Module Cli.

Inductive Format := Text | Json.

(** [BatchExecutionOptions] of [src/types/batch.ts] with all its fields;
    [executeBatch] reads [allowAnyPath] only. *)
Record BatchExecutionOptions := {
  outputDir : option string;
  format : option Format;
  timeout : option Z;
  maxConcurrent : option Z;
  estimateOnly : option bool;
  allowAnyPath : option bool
}.

Definition forExecuteBatch (o : BatchExecutionOptions)
  : Scheduler.BatchExecutionOptions :=
  {| Scheduler.allowAnyPath := allowAnyPath o |}.

Definition digit (c : ascii) : option Z :=
  if JsString.between 48 57 (JsString.code c)
  then Some (Z.of_nat (JsString.code c) - 48)
  else None.

(** The value of the longest prefix of decimal digits of [s], read after
    the digits of value [acc]; [None] when no digit has been read. *)
Fixpoint digits (s : string) (acc : option Z) : option Z :=
  match s with
  | EmptyString => acc
  | String c s' =>
      match digit c with
      | Some d => digits s' (Some (10 * nullish acc 0 + d))
      | None => acc
      end
  end.

(** [parseInt(x, 10)] for [x] a string or [undefined]; [None] is [NaN].
    Leading white space is skipped, one sign is read, then the digits up
    to the first character that is not one.  The value is exact, where
    JavaScript rounds a numeral that does not fit 53 bits. *)
Definition parseInt (x : option string) : option Z :=
  match x with
  | None => None
  | Some s =>
      match JsString.trimStart s with
      | String "-" t => option_map Z.opp (digits t None)
      | String "+" t => digits t None
      | t => digits t None
      end
  end.

Record Parsed := {
  configPath : option string;
  options : BatchExecutionOptions;
  showHelp : bool;
  showVersion : bool
}.

(** The messages [parseArgs] prints before [process.exit(1)]. *)
Inductive UsageError :=
| OutputDirNeedsPath
| FormatNotTextOrJson
| TimeoutBelowMinimum
| MaxConcurrentOutOfRange
| UnknownOption (arg : string)
| MultipleConfigFiles.

Definition withOutputDir (v : option string) (p : Parsed) : Parsed :=
  {| configPath := configPath p;
     options := {| outputDir := v; format := format (options p);
                   timeout := timeout (options p);
                   maxConcurrent := maxConcurrent (options p);
                   estimateOnly := estimateOnly (options p);
                   allowAnyPath := allowAnyPath (options p) |};
     showHelp := showHelp p; showVersion := showVersion p |}.

Definition withFormat (v : Format) (p : Parsed) : Parsed :=
  {| configPath := configPath p;
     options := {| outputDir := outputDir (options p); format := Some v;
                   timeout := timeout (options p);
                   maxConcurrent := maxConcurrent (options p);
                   estimateOnly := estimateOnly (options p);
                   allowAnyPath := allowAnyPath (options p) |};
     showHelp := showHelp p; showVersion := showVersion p |}.

Definition withTimeout (v : Z) (p : Parsed) : Parsed :=
  {| configPath := configPath p;
     options := {| outputDir := outputDir (options p);
                   format := format (options p);
                   timeout := Some v;
                   maxConcurrent := maxConcurrent (options p);
                   estimateOnly := estimateOnly (options p);
                   allowAnyPath := allowAnyPath (options p) |};
     showHelp := showHelp p; showVersion := showVersion p |}.

Definition withMaxConcurrent (v : Z) (p : Parsed) : Parsed :=
  {| configPath := configPath p;
     options := {| outputDir := outputDir (options p);
                   format := format (options p);
                   timeout := timeout (options p);
                   maxConcurrent := Some v;
                   estimateOnly := estimateOnly (options p);
                   allowAnyPath := allowAnyPath (options p) |};
     showHelp := showHelp p; showVersion := showVersion p |}.

Definition withEstimateOnly (p : Parsed) : Parsed :=
  {| configPath := configPath p;
     options := {| outputDir := outputDir (options p);
                   format := format (options p);
                   timeout := timeout (options p);
                   maxConcurrent := maxConcurrent (options p);
                   estimateOnly := Some true;
                   allowAnyPath := allowAnyPath (options p) |};
     showHelp := showHelp p; showVersion := showVersion p |}.

Definition withAllowAnyPath (p : Parsed) : Parsed :=
  {| configPath := configPath p;
     options := {| outputDir := outputDir (options p);
                   format := format (options p);
                   timeout := timeout (options p);
                   maxConcurrent := maxConcurrent (options p);
                   estimateOnly := estimateOnly (options p);
                   allowAnyPath := Some true |};
     showHelp := showHelp p; showVersion := showVersion p |}.

Definition withHelp (p : Parsed) : Parsed :=
  {| configPath := configPath p; options := options p;
     showHelp := true; showVersion := showVersion p |}.

Definition withVersion (p : Parsed) : Parsed :=
  {| configPath := configPath p; options := options p;
     showHelp := showHelp p; showVersion := true |}.

Definition withConfigPath (v : string) (p : Parsed) : Parsed :=
  {| configPath := Some v; options := options p;
     showHelp := showHelp p; showVersion := showVersion p |}.

(** The loop of [parseArgs] over the arguments still to read; [args[++i]]
    is the head of what follows the option, [undefined] when nothing
    follows.  [inl] is an exit with status 1. *)
Fixpoint parseLoop (args : list string) (p : Parsed) : UsageError + Parsed :=
  match args with
  | [] => inr p
  | arg :: rest =>
      if String.eqb arg "--help" || String.eqb arg "-h" then
        parseLoop rest (withHelp p)
      else if String.eqb arg "--version" || String.eqb arg "-v" then
        parseLoop rest (withVersion p)
      else if String.eqb arg "--output-dir" then
        match rest with
        | v :: rest' =>
            if JsString.truthy (Some v)
            then parseLoop rest' (withOutputDir (Some v) p)
            else inl OutputDirNeedsPath
        | [] => inl OutputDirNeedsPath
        end
      else if String.eqb arg "--format" then
        match rest with
        | v :: rest' =>
            if String.eqb v "text" then parseLoop rest' (withFormat Text p)
            else if String.eqb v "json" then parseLoop rest' (withFormat Json p)
            else inl FormatNotTextOrJson
        | [] => inl FormatNotTextOrJson
        end
      else if String.eqb arg "--timeout" then
        match rest with
        | v :: rest' =>
            match parseInt (Some v) with
            | Some t =>
                if t <? 1000 then inl TimeoutBelowMinimum
                else parseLoop rest' (withTimeout t p)
            | None => inl TimeoutBelowMinimum
            end
        | [] => inl TimeoutBelowMinimum
        end
      else if String.eqb arg "--max-concurrent" then
        match rest with
        | v :: rest' =>
            match parseInt (Some v) with
            | Some c =>
                if (c <? 1) || (10 <? c) then inl MaxConcurrentOutOfRange
                else parseLoop rest' (withMaxConcurrent c p)
            | None => inl MaxConcurrentOutOfRange
            end
        | [] => inl MaxConcurrentOutOfRange
        end
      else if String.eqb arg "--estimate-only" then
        parseLoop rest (withEstimateOnly p)
      else if String.eqb arg "--allow-any-path" then
        parseLoop rest (withAllowAnyPath p)
      else if JsString.startsWith arg "-" then inl (UnknownOption arg)
      else if JsString.truthy (configPath p) then inl MultipleConfigFiles
      else parseLoop rest (withConfigPath arg p)
  end.

(** [parseArgs] on [process.argv.slice(2)]. *)
Definition parseArgs (args : list string) : UsageError + Parsed :=
  parseLoop args
    {| configPath := None;
       options := {| outputDir := None; format := Some Text; timeout := None;
                     maxConcurrent := None; estimateOnly := None;
                     allowAnyPath := None |};
       showHelp := false; showVersion := false |}.

(** *** Vocabulary of the statements about the command line *)



(** The ranges [parseArgs] enforces on what it reads. *)
Definition optionsInRange (o : BatchExecutionOptions) : Prop :=
  Validate.within 1 10 (maxConcurrent o)
  /\ (forall t, timeout o = Some t -> 1000 <= t)
  /\ (format o = Some Text \/ format o = Some Json).

End Cli.

(* ================================================================= *)
(** ** Merged configuration ([mergeBatchConfig]) *)

Module Merge.

(** Lines 237-276, with [process.env.OUTPUT_DIR] read from [env]. *)
Definition mergeBatchConfig (config : BatchConfig)
           (options : Cli.BatchExecutionOptions) (env : Scheduler.Process)
  : BatchConfig :=
  let fromEnv :=
    if negb (JsString.truthy (output_dir config))
       && JsString.truthy (Scheduler.OUTPUT_DIR env)
    then Scheduler.OUTPUT_DIR env
    else output_dir config in
  let fromCli :=
    if JsString.truthy (Cli.outputDir options) then Cli.outputDir options
    else fromEnv in
  let concurrent :=
    match Cli.maxConcurrent options with
    | Some c => Some c
    | None => max_concurrent config
    end in
  let time :=
    match Cli.timeout options with
    | Some t => Some t
    | None => timeout config
    end in
  {| jobs := jobs config;
     output_dir := fromCli;
     max_concurrent := Some (nullish concurrent 2);
     timeout := Some (nullish time 600000);
     retry_policy := Some (Retry.merged_retry_policy config);
     default_model := Some (nullish (default_model config) "grok-imagine-image");
     default_resolution := Some (nullish (default_resolution config) "1k");
     default_aspect_ratio := Some (nullish (default_aspect_ratio config) "1:1") |}.

End Merge.

(* ================================================================= *)
(** ** Entry point of the command line ([main], [src/cli/batch.ts]) *)

Module CliMain.

(** Why [main] fell into its [catch]: [loadBatchConfig] threw,
    [validateBatchConfig] threw, or [executeBatch] rejected because
    [resolveOutputPath] refused an output path. *)
Inductive Caught :=
| NotLoaded
| Invalid (e : Validate.BatchConfigError)
| OutputPathRefused.

(** What a run of [main] prints before it exits. *)
Inductive Output :=
| Usage (e : Cli.UsageError)
| Version
| Help
| ApiKeyRequired
| Error (e : Caught)
| Estimate (format : option Cli.Format) (estimate : Cost.CostEstimate)
| Report (format : option Cli.Format) (result : Scheduler.BatchResult).

(** Line 322: [result.failed > 0 || result.cancelled > 0 ? 1 : 0]. *)
Definition exitCode (result : Scheduler.BatchResult) : Z :=
  if (0 <? Scheduler.failed result)%nat || (0 <? Scheduler.cancelled result)%nat
  then 1 else 0.

(** [main]: what is printed and the status of [process.exit].  [apiKey]
    is [process.env.XAI_API_KEY]; [load] is what [loadBatchConfig] finds at
    a path, [None] when it throws.  The configuration path is a non-empty
    string where it is loaded. *)
Definition main (args : list string) (apiKey : option string)
           (load : string -> option BatchConfig)
           (answers : nat -> nat -> Answer) (P : Scheduler.PathLib)
           (env : Scheduler.Process) (startTime : Z) : Output * Z :=
  match Cli.parseArgs args with
  | inl e => (Usage e, 1)
  | inr parsed =>
      if Cli.showVersion parsed then (Version, 0)
      else if Cli.showHelp parsed || negb (JsString.truthy (Cli.configPath parsed))
      then (Help, if Cli.showHelp parsed then 0 else 1)
      else if negb (JsString.truthy apiKey) then (ApiKeyRequired, 1)
      else
        match load (Validate.string_or (Cli.configPath parsed) EmptyString) with
        | None => (Error NotLoaded, 1)
        | Some config =>
            match Validate.validateBatchConfig config with
            | Some e => (Error (Invalid e), 1)
            | None =>
                let options := Cli.options parsed in
                let mergedConfig :=
                  Merge.mergeBatchConfig config options env in
                if nullish (Cli.estimateOnly options) false
                then (Estimate (Cli.format options)
                               (Cost.estimateBatchCost mergedConfig), 0)
                else
                  match Scheduler.executeBatch mergedConfig answers P env
                          (Cli.forExecuteBatch options) startTime with
                  | None => (Error OutputPathRefused, 1)
                  | Some result =>
                      (Report (Cli.format options) result, exitCode result)
                  end
            end
        end
  end.

End CliMain.

(* ================================================================= *)
(** ** The image tools ([editImage], [generateImage])

    The parts of the two tools that compute on their parameters and on
    the answer of the image API: the validation of the parameters, the
    message of the error thrown for an HTTP status, the names of the files
    of a request for several images, and the text of the result, which is
    what [executeJob] parses.  [getDisplayPath] belongs to a module the
    tools import and is a parameter here. *)

Module Tools.

Definition ASPECT_RATIOS : list string := Validate.GROK2_ASPECT_RATIOS.

Definition QUALITIES : list string := ["low"; "medium"; "high"].

Inductive Tool := Edit | Generate.

(** The messages of the [McpError]s with [ErrorCode.InvalidParams] that
    the validation of the parameters throws. *)
Inductive InvalidParams :=
| ImageSourceRequired
| PromptEmpty
| InvalidModel (model : string)
| EditingUnsupported (model : string)
| InvalidN (n : Z)
| InvalidAspectRatio (aspect_ratio : string)
| InvalidResolution (resolution : string).

(** The checks the two tools make on the parameters of a call, after the
    defaults of the destructuring ([model = 'grok-imagine-image'],
    [aspect_ratio = '1:1'], [resolution = '1k']), which replace
    [undefined] only.  The calls of [executeJob] pass no [quality]. *)
Definition validateParams (r : Request) : option InvalidParams :=
  match r with
  | EditImage prompt image_path image_base64 image_url _ model n resolution =>
      let model := nullish model "grok-imagine-image" in
      let resolution := nullish resolution "1k" in
      if negb (JsString.truthy image_path)
         && negb (JsString.truthy image_base64)
         && negb (JsString.truthy image_url)
      then Some ImageSourceRequired
      else if negb (JsString.truthy (Some prompt))
              || (String.length (JsString.trim prompt) =? 0)%nat
      then Some PromptEmpty
      else if negb (Validate.arrayIncludes Cost.MODELS model)
      then Some (InvalidModel model)
      else if negb (String.eqb model "grok-imagine-image")
      then Some (EditingUnsupported model)
      else if (n <? 1) || (10 <? n) then Some (InvalidN n)
      else if negb (Validate.arrayIncludes Validate.RESOLUTIONS resolution)
      then Some (InvalidResolution resolution)
      else None
  | GenerateImage prompt _ model n aspect_ratio resolution =>
      let model := nullish model "grok-imagine-image" in
      let aspect_ratio := nullish aspect_ratio "1:1" in
      let resolution := nullish resolution "1k" in
      if negb (JsString.truthy (Some prompt))
         || (String.length (JsString.trim prompt) =? 0)%nat
      then Some PromptEmpty
      else if negb (Validate.arrayIncludes Cost.MODELS model)
      then Some (InvalidModel model)
      else if (n <? 1) || (10 <? n) then Some (InvalidN n)
      else if negb (Validate.arrayIncludes ASPECT_RATIOS aspect_ratio)
      then Some (InvalidAspectRatio aspect_ratio)
      else if negb (Validate.arrayIncludes Validate.RESOLUTIONS resolution)
      then Some (InvalidResolution resolution)
      else None
  end.

(** The call as the tool reads it: the defaults filled in. *)
Definition effective (r : Request) : Request :=
  match r with
  | EditImage prompt image_path image_base64 image_url output_path model n
              resolution =>
      EditImage prompt image_path image_base64 image_url output_path
                (Some (nullish model "grok-imagine-image")) n
                (Some (nullish resolution "1k"))
  | GenerateImage prompt output_path model n aspect_ratio resolution =>
      GenerateImage prompt output_path
                    (Some (nullish model "grok-imagine-image")) n
                    (Some (nullish aspect_ratio "1:1"))
                    (Some (nullish resolution "1k"))
  end.

(** The message of the [McpError] thrown when [response.ok] is false;
    [apiMessage] is [errorData.error?.message]. *)
Definition httpErrorMessage (status : nat) (statusText : string)
           (apiMessage : option string) : string :=
  let errorMessage :=
    Validate.string_or apiMessage
      ("HTTP " ++ Scheduler.decimal status ++ ": " ++ statusText) in
  if (status =? 401)%nat then
    "Authentication failed. Please check your XAI_API_KEY environment variable."
  else if (status =? 403)%nat then
    "Access denied. Please check your API key permissions."
  else if (status =? 400)%nat then "Bad request: " ++ errorMessage
  else if (status =? 429)%nat then
    "Rate limit exceeded. Please wait and try again."
  else "API error (" ++ Scheduler.decimal status ++ "): " ++ errorMessage.

(** [String.prototype.split('.')] *)
Fixpoint split_dot (s : string) : list string :=
  match s with
  | EmptyString => [EmptyString]
  | String c s' =>
      if Ascii.eqb c "."%char then EmptyString :: split_dot s'
      else match split_dot s' with
           | part :: parts => String c part :: parts
           | [] => [String c EmptyString]
           end
  end.

(** [Array.prototype.join('.')] *)
Definition join_dot (parts : list string) : string :=
  String.concat "." parts.

(** The file of the image at position [i] in the loop of [editImage] and
    of [generateImage] over [data.data]: [pop] takes the last part. *)
Definition imagePath (n : Z) (normalizedPath : string) (i : nat) : string :=
  if 1 <? n then
    let pathParts := split_dot normalizedPath in
    let ext := last pathParts EmptyString in
    let basePath := join_dot (removelast pathParts) in
    basePath ++ "_" ++ Scheduler.decimal (i + 1) ++ "." ++ ext
  else normalizedPath.

(** An element of [data.data]. *)
Record ImageData := {
  b64_json : option string;
  url : option string;
  revised_prompt : option string
}.

(** The loop over [data.data] from the position [i] on, the writes taken
    to succeed: the paths pushed to [savedPaths], or [inl] of the number
    of the image that carries neither [b64_json] nor [url]. *)
Fixpoint saveLoop (n : Z) (normalizedPath : string) (i : nat)
         (data : list ImageData) : nat + list string :=
  match data with
  | [] => inr []
  | imageData :: data' =>
      if JsString.truthy (b64_json imageData) || JsString.truthy (url imageData)
      then match saveLoop n normalizedPath (S i) data' with
           | inr savedPaths =>
               inr (imagePath n normalizedPath i :: savedPaths)
           | inl number => inl number
           end
      else inl (i + 1)%nat
  end.

(** The revised prompts the loop collects. *)
Definition revisedPrompts (data : list ImageData) : list string :=
  flat_map
    (fun imageData =>
       match revised_prompt imageData with
       | Some (String a p) => [String a p]
       | _ => []
       end)
    data.

(** [`${n}`] for an integer. *)
Definition number (z : Z) : string :=
  if z <? 0 then "-" ++ Scheduler.decimal (Z.to_nat (- z))
  else Scheduler.decimal (Z.to_nat z).

Definition newline : string := String Regex.LF EmptyString.

Definition verb (t : Tool) : string :=
  match t with
  | Edit => "edited"
  | Generate => "generated"
  end.

(** The lines of the list of a result with several images, the first
    numbered [idx + 1]. *)
Fixpoint pathLines (display : string -> string) (idx : nat)
         (savedPaths : list string) : string :=
  match savedPaths with
  | [] => EmptyString
  | filePath :: rest =>
      "  " ++ Scheduler.decimal (idx + 1) ++ ". " ++ display filePath
      ++ newline ++ pathLines display (S idx) rest
  end.

(** [resultText] as first assigned, for the saved paths
    [first :: others] (the loop has pushed one path at least when this
    code is reached). *)
Definition announcement (t : Tool) (display : string -> string) (n : Z)
           (first : string) (others : list string) : string :=
  if n =? 1
  then "Image " ++ verb t ++ " successfully: " ++ display first
  else number n ++ " images " ++ verb t ++ " successfully:" ++ newline
       ++ pathLines display 0 (first :: others).

(** What is appended to [resultText] afterwards.  [editImage] prints
    neither aspect ratio nor quality. *)
Definition parameters (t : Tool) (model aspect_ratio resolution : string)
           (quality : option string) (revised : list string)
           (base64Included : bool) : string :=
  newline ++ "Parameters:"
  ++ newline ++ "  - Model: " ++ model
  ++ match t with
     | Generate => newline ++ "  - Aspect ratio: " ++ aspect_ratio
     | Edit => EmptyString
     end
  ++ newline ++ "  - Resolution: " ++ resolution
  ++ match t, quality with
     | Generate, Some (String a q) => newline ++ "  - Quality: " ++ String a q
     | _, _ => EmptyString
     end
  ++ match revised with
     | r :: _ => newline ++ newline ++ "Revised prompt: " ++ r
     | [] => EmptyString
     end
  ++ (if base64Included
      then newline ++ newline ++ "Base64 data included in response."
      else EmptyString).

(** The text of the result. *)
Definition resultText (t : Tool) (display : string -> string) (n : Z)
           (first : string) (others : list string)
           (model aspect_ratio resolution : string) (quality : option string)
           (revised : list string) (base64Included : bool) : string :=
  announcement t display n first others
  ++ parameters t model aspect_ratio resolution quality revised base64Included.

(** What the tool returns: the text, or a content array that opens with
    the text and holds one item for each thumbnail that could be made. *)
Definition returned (shouldIncludeThumbnail : bool) (resultText : string)
           (thumbnails : nat) : Resolved :=
  if shouldIncludeThumbnail
  then RContent ({| type := "text"; text := Some resultText |}
                 :: repeat {| type := "image"; text := None |} thumbnails)
  else RString resultText.

(** *** Vocabulary of the statements about the tools *)

(** Every character of [s] is of the class [c]. *)
Fixpoint every (c : ascii -> bool) (s : string) : bool :=
  match s with
  | EmptyString => true
  | String a s' => c a && every c s'
  end.

(** The text [s] is empty or opens with a character outside [c]. *)
Definition stopsAt (c : ascii -> bool) (s : string) : Prop :=
  match s with
  | EmptyString => True
  | String a _ => c a = false
  end.

(** The keyword [kw] differs from the text [s] at a character of [s]:
    it cannot be read at the head of [s] whatever follows [s]. *)
Fixpoint differsWithin (kw s : string) : bool :=
  match kw, s with
  | String a kw', String b s' =>
      if Regex.char_eq true a b then differsWithin kw' s' else true
  | _, _ => false
  end.

(** None of the keywords of the first regular expression of [executeJob]
    can be read at a position of [s], whatever follows [s]. *)
Fixpoint keywordFree (s : string) : bool :=
  match s with
  | EmptyString => true
  | String _ s' =>
      forallb (fun kw => differsWithin kw s) ["saved"; "generated"; "edited"]
      && keywordFree s'
  end.

(** The suffixes of [p], the longest first. *)
Fixpoint suffixes (p : string) : list string :=
  p :: match p with
       | EmptyString => []
       | String _ p' => suffixes p'
       end.

(** The prefixes of [p], the shortest first. *)
Fixpoint prefixes (p : string) : list string :=
  EmptyString
  :: match p with
     | EmptyString => []
     | String c p' => map (String c) (prefixes p')
     end.

Definition endsWith (s p : string) : bool :=
  existsb (String.eqb p) (suffixes s).

(** No occurrence of [p] can lie across the end of a text that ends as
    [a] does, or across the beginning of a text that begins as [b] does. *)
Definition cannotStraddle (a b p : string) : bool :=
  forallb (fun p1 =>
             String.eqb p1 EmptyString || String.eqb p1 p
             || negb (endsWith a p1))
          (prefixes p)
  && forallb (fun p2 =>
                String.eqb p2 EmptyString || String.eqb p2 p
                || negb (JsString.startsWith b p2))
             (suffixes p).

End Tools.

(* ================================================================= *)
(** ** Sample inputs *)

Module Sample.

Definition generateJob (p : string) (count : option Z) : BatchJobConfig :=
  {| prompt := p; output_path := None; model := None;
     aspect_ratio := None; resolution := None; n := count;
     image_path := None; image_base64 := None; image_url := None |}.

Definition editJob (p src : string) (count : option Z) : BatchJobConfig :=
  {| prompt := p; output_path := None; model := None;
     aspect_ratio := None; resolution := None; n := count;
     image_path := Some src; image_base64 := None; image_url := None |}.

Definition batch (js : list BatchJobConfig) (c t : option Z)
           (p : option RetryPolicy) : BatchConfig :=
  {| jobs := js; output_dir := Some "/out"; max_concurrent := c;
     timeout := t; retry_policy := p; default_model := None;
     default_resolution := None; default_aspect_ratio := None |}.

Definition policy (retries delay : Z) : RetryPolicy :=
  {| max_retries := Some retries; retry_delay_ms := Some delay;
     retry_on_errors := None |}.

Definition world0 : World := {| now := 0; effects := [] |}.

(** An attempt that fails after [ms] milliseconds with [new Error(m)]. *)
Definition throws (ms : Z) (m : string) : Answer :=
  (ms, Throws {| message := Some m; as_string := "Error: " ++ m |}).

(** An attempt that resolves after [ms] milliseconds with the text [t]. *)
Definition resolves (ms : Z) (t : string) : Answer :=
  (ms, Resolves (RString t)).

Definition cat : BatchJobConfig := generateJob "a cat" None.

(** Paths as plain strings joined with a slash. *)
Definition paths : Scheduler.PathLib :=
  {| Scheduler.isAbsolute := fun p => JsString.startsWith p "/";
     Scheduler.join := fun a b => a ++ "/" ++ b;
     Scheduler.resolve := fun p => p |}.

Definition process : Scheduler.Process :=
  {| Scheduler.OUTPUT_DIR := None; Scheduler.cwd := "/work" |}.

Definition noOptions : Scheduler.BatchExecutionOptions :=
  {| Scheduler.allowAnyPath := None |}.

(** Three generation jobs, two at a time, under a timeout of one second:
    the first job is done after 100 ms, the second fails with a retryable
    error after 1500 ms, the third needs 3500 ms. *)
Definition threeCats : BatchConfig :=
  batch [cat; cat; cat] (Some 2) (Some 1000) None.

Definition slowThird (i attempt : nat) : Answer :=
  match i with
  | O => resolves 100 "Image generated successfully: /out/generated_1.jpg"
  | S O => throws 1500 "HTTP 503"
  | _ => resolves 3500 "Image generated successfully: /out/generated_3.jpg"
  end.

(** The batch of the estimate scenario: two images generated and one
    image edited, all with grok-imagine-image. *)
Definition scenarioBatch : BatchConfig :=
  batch
    [ {| prompt := "a cat"; output_path := None;
         model := Some "grok-imagine-image"; aspect_ratio := None;
         resolution := None; n := Some 2; image_path := None;
         image_base64 := None; image_url := None |};
      {| prompt := "with a hat"; output_path := None;
         model := Some "grok-imagine-image"; aspect_ratio := None;
         resolution := None; n := Some 1; image_path := Some "cat.jpg";
         image_base64 := None; image_url := None |} ]
    None None None.

End Sample.

(* ================================================================= *)
(** * Properties *)

(** ** Strings *)

Lemma toLowerCase_app (a b : string) :
  JsString.toLowerCase (a ++ b)
  = JsString.toLowerCase a ++ JsString.toLowerCase b.
Proof.
  induction a as [|c a IH]; simpl; [reflexivity|]. now rewrite IH.
Qed.

Lemma toLowerCase_length (s : string) :
  String.length (JsString.toLowerCase s) = String.length s.
Proof.
  induction s as [|c s IH]; simpl; [reflexivity|]. now rewrite IH.
Qed.

Lemma startsWith_spec (s p : string) :
  JsString.startsWith s p = true <-> exists post, s = p ++ post.
Proof.
  revert s. induction p as [|a p IH]; intros s; simpl.
  - split; [intros _; now exists s | reflexivity].
  - destruct s as [|b s].
    + split; [discriminate | intros [post H]; discriminate].
    + rewrite andb_true_iff, IH. split.
      * intros [Hab [post ->]]. apply Ascii.eqb_eq in Hab. subst.
        now exists post.
      * intros [post H]. injection H as -> ->. split.
        -- apply Ascii.eqb_refl.
        -- now exists post.
Qed.

Lemma includes_spec (s p : string) :
  JsString.includes s p = true <-> exists pre post, s = pre ++ p ++ post.
Proof.
  induction s as [|c s IH].
  - simpl. rewrite orb_false_r, startsWith_spec. split.
    + intros [post H]. now exists EmptyString, post.
    + intros [pre [post H]]. destruct pre; [now exists post|discriminate].
  - cbn [JsString.includes]. rewrite orb_true_iff, startsWith_spec, IH. split.
    + intros [[post H] | [pre [post H]]].
      * now exists EmptyString, post.
      * exists (String c pre), post. simpl. now rewrite H.
    + intros [pre [post H]]. destruct pre as [|c' pre].
      * left. now exists post.
      * right. simpl in H. injection H as _ H. now exists pre, post.
Qed.

(** A piece of a lower-cased string is the lower-casing of a piece. *)
Lemma toLowerCase_split (s x y : string) :
  JsString.toLowerCase s = x ++ y ->
  exists a b, s = a ++ b
              /\ JsString.toLowerCase a = x /\ JsString.toLowerCase b = y.
Proof.
  revert s. induction x as [|c x IH]; intros s H.
  - exists EmptyString, s. simpl in *. auto.
  - destruct s as [|d s]; [discriminate|].
    simpl in H. injection H as Hc H.
    destruct (IH _ H) as [a [b [-> [Ha Hb]]]].
    exists (String d a), b. simpl. now rewrite Hc, Ha.
Qed.

Lemma includes_lower_iff (msg pattern : string) :
  JsString.includes (JsString.toLowerCase msg) (JsString.toLowerCase pattern)
  = true
  <-> Retry.contains_ci msg pattern.
Proof.
  rewrite includes_spec. unfold Retry.contains_ci. split.
  - intros [x [y H]].
    destruct (toLowerCase_split _ _ _ H) as [pre [r [-> [_ Hr]]]].
    destruct (toLowerCase_split _ _ _ Hr) as [mid [post [-> [Hm _]]]].
    now exists pre, mid, post.
  - intros [pre [mid [post [-> Hm]]]].
    exists (JsString.toLowerCase pre), (JsString.toLowerCase post).
    now rewrite !toLowerCase_app, Hm.
Qed.

(** ** Retry policy evaluator *)

Example shouldRetry_429 :
  Retry.shouldRetry "HTTP 429 Too Many Requests" 0 2 Retry.default_patterns
  = true.
Proof. reflexivity. Qed.

Example shouldRetry_case :
  Retry.shouldRetry "Request TIMEOUT" 1 2 ["TimeOut"] = true.
Proof. reflexivity. Qed.

Example shouldRetry_last_attempt :
  Retry.shouldRetry "HTTP 429" 2 2 Retry.default_patterns = false.
Proof. reflexivity. Qed.

Example shouldRetry_unauthorized :
  Retry.shouldRetry "Invalid API key" 0 2 Retry.default_patterns = false.
Proof. reflexivity. Qed.

(** The decision of [executeJob] in the words of the specification. *)
Lemma shouldRetry_spec (lastError : string) (attempt maxRetries : Z)
      (retryPatterns : list string) :
  Retry.shouldRetry lastError attempt maxRetries retryPatterns = true
  <-> (attempt < maxRetries
       /\ exists pattern, In pattern retryPatterns
                          /\ Retry.contains_ci lastError pattern).
Proof.
  unfold Retry.shouldRetry.
  rewrite andb_true_iff, Z.ltb_lt, existsb_exists.
  split; intros [Hlt [pattern [Hin Hp]]]; (split; [exact Hlt|]);
    exists pattern; (split; [exact Hin|]); now apply includes_lower_iff.
Qed.

(** C4. The retry decision computed by [executeJob] is true exactly when
    the attempt index is below [maxRetries] and the error message contains,
    case-insensitively, one of the retryable patterns as a literal
    substring; a configuration with no retry policy, or with a policy that
    has no [retry_on_errors], uses rate_limit, timeout, 429 and 503, and
    [mergeBatchConfig] installs the same four patterns. *)
Theorem C4_shouldRetry_iff :
  (forall (lastError : string) (attempt maxRetries : Z)
          (retryPatterns : list string),
      Retry.shouldRetry lastError attempt maxRetries retryPatterns = true
      <-> (attempt < maxRetries
           /\ exists pattern, In pattern retryPatterns
                              /\ Retry.contains_ci lastError pattern))
  /\ (forall c : BatchConfig,
         (retry_policy c = None
          \/ (exists p, retry_policy c = Some p /\ retry_on_errors p = None)) ->
         Retry.retryPatterns c = ["rate_limit"; "timeout"; "429"; "503"])
  /\ (forall c : BatchConfig,
         retry_policy c = None ->
         retry_on_errors (Retry.merged_retry_policy c)
         = Some ["rate_limit"; "timeout"; "429"; "503"]).
Proof.
  split; [|split].
  - exact shouldRetry_spec.
  - intros c [Hnone | [p [Hsome Hp]]];
      unfold Retry.retryPatterns, Retry.retryPolicy;
      [rewrite Hnone | rewrite Hsome; simpl; rewrite Hp]; reflexivity.
  - intros c Hnone. unfold Retry.merged_retry_policy. now rewrite Hnone.
Qed.

(** ** Regular expressions *)

Example re_saved_single :
  Regex.match_all Regex.re_saved
    ("Image edited successfully: /out/a.jpg" ++ String Regex.LF "Parameters:")
  = ["edited successfully: /out/a.jpg"].
Proof. reflexivity. Qed.


(** ** Job executor *)

Section ExecutorFacts.

Variable job : BatchJobConfig.
Variable index : nat.
Variable outputPath : string.
Variable config : BatchConfig.
Variable answers : nat -> Answer.

Let loop := Executor.attemptLoop job index outputPath config answers.
Let req := Executor.request job outputPath config.
Let recordedPaths := Executor.recordedPaths outputPath.
Let spacedCalls := Executor.spacedCalls req.
Let allThrow := Executor.allThrow answers.
Let retryable := Executor.retryable config.

(** The two ways an iteration of the loop goes. *)
Lemma attemptLoop_throws startTime attempt later lastError w e :
  snd (answers attempt) = Throws e ->
  loop startTime (attempt :: later) lastError w
  = loop startTime later (Executor.errorText e)
      (snd ((if Retry.shouldRetry (Executor.errorText e) (Z.of_nat attempt)
                                  (Retry.maxRetries config)
                                  (Retry.retryPatterns config)
             then sleep (Retry.retryDelay config)
             else ret tt)
              (snd (awaitCall (answers attempt) req w)))).
Proof.
  intros He. subst loop req. cbn [Executor.attemptLoop].
  unfold bind, awaitCall. rewrite He.
  destruct (Retry.shouldRetry _ _ _ _); reflexivity.
Qed.

Lemma attemptLoop_resolves startTime attempt later lastError w result :
  snd (answers attempt) = Resolves result ->
  loop startTime (attempt :: later) lastError w
  = (Executor.completedResult job index (recordedPaths result)
       (snd (Executor.parseResult result))
       (now w + fst (answers attempt) - startTime),
     snd (awaitCall (answers attempt) req w)).
Proof.
  intros He. subst loop req recordedPaths. cbn [Executor.attemptLoop].
  unfold bind, awaitCall, Executor.recordedPaths. rewrite He.
  destruct (Executor.parseResult result) as [[|p ps] revised]; reflexivity.
Qed.

Lemma attemptLoop_status startTime attempts lastError w :
  Result.status (fst (loop startTime attempts lastError w)) = Completed
  \/ Result.status (fst (loop startTime attempts lastError w)) = Failed.
Proof.
  revert lastError w.
  induction attempts as [|attempt later IH]; intros lastError w.
  - right. reflexivity.
  - destruct (snd (answers attempt)) as [result | e] eqn:Ha.
    + left. now erewrite attemptLoop_resolves by exact Ha.
    + erewrite attemptLoop_throws by exact Ha. apply IH.
Qed.

(** A completed result comes from an attempt that resolved, and records
    the paths parsed from it, or the expected output path when none was
    parsed. *)
Lemma attemptLoop_completed startTime attempts lastError w :
  Result.status (fst (loop startTime attempts lastError w)) = Completed ->
  exists attempt result,
    In attempt attempts
    /\ snd (answers attempt) = Resolves result
    /\ Result.output_paths (fst (loop startTime attempts lastError w))
       = Some (recordedPaths result).
Proof.
  revert lastError w.
  induction attempts as [|attempt later IH]; intros lastError w.
  - cbn. discriminate.
  - destruct (snd (answers attempt)) as [result | e] eqn:Ha.
    + erewrite attemptLoop_resolves by exact Ha. intros _.
      exists attempt, result. split; [now left|]. now split.
    + erewrite attemptLoop_throws by exact Ha. intros H.
      destruct (IH _ _ H) as [k [result [Hin Hk]]].
      exists k, result. split; [now right | exact Hk].
Qed.

Lemma loop_all_retryable (len a : nat) startTime lastError w :
  Z.of_nat (a + len) = Retry.maxRetries config ->
  allThrow retryable (seq a (S len)) ->
  effects (snd (loop startTime (seq a (S len)) lastError w))
  = (effects w ++ spacedCalls (Retry.retryDelay config) len)%list
  /\ Result.status (fst (loop startTime (seq a (S len)) lastError w)) = Failed
  /\ exists e, snd (answers (a + len)) = Throws e
               /\ Result.error (fst (loop startTime (seq a (S len)) lastError w))
                  = Some (Executor.errorText e).
Proof.
  revert a lastError w.
  induction len as [|len IH]; intros a lastError w Hmax Hall;
    destruct (Hall a) as [e [He Hre]]; try (now left);
    cbn [seq]; erewrite attemptLoop_throws by exact He.
  - replace (Retry.shouldRetry _ _ _ _) with false.
    + cbn. rewrite Nat.add_0_r. split; [reflexivity|].
      split; [reflexivity|]. now exists e.
    + symmetry. apply not_true_is_false. rewrite shouldRetry_spec. lia.
  - replace (Retry.shouldRetry _ _ _ _) with true.
    + match goal with
      | |- context [loop _ _ _ ?w1] =>
          destruct (IH (S a) (Executor.errorText e) w1)
          as [Heff [Hst [e' [He' Herr]]]]
      end.
      * rewrite <- Hmax. f_equal. lia.
      * intros k Hk. apply Hall. now right.
      * cbn [seq] in *. rewrite Heff.
        split; [|split; [exact Hst|]].
        -- subst spacedCalls. unfold Executor.spacedCalls.
           cbn [repeat List.concat sleep awaitCall snd effects app].
           rewrite <- !app_assoc. reflexivity.
        -- exists e'. replace (a + S len)%nat with (S a + len)%nat by lia.
           split; assumption.
    + symmetry. rewrite shouldRetry_spec. split; [lia | exact Hre].
Qed.

(** Without a matching pattern the loop still makes every attempt, and
    never sleeps. *)
Lemma loop_none_retryable attempts startTime lastError w :
  allThrow (fun msg => ~ retryable msg) attempts ->
  effects (snd (loop startTime attempts lastError w))
  = (effects w ++ repeat (Called req) (List.length attempts))%list.
Proof.
  revert lastError w.
  induction attempts as [|a later IH]; intros lastError w Hall.
  - cbn. now rewrite app_nil_r.
  - destruct (Hall a) as [e [He Hre]]; [now left|].
    erewrite attemptLoop_throws by exact He.
    replace (Retry.shouldRetry _ _ _ _) with false.
    + rewrite IH by (intros k Hk; apply Hall; now right).
      cbn [ret awaitCall snd effects List.length repeat].
      now rewrite <- app_assoc.
    + symmetry. apply not_true_is_false. rewrite shouldRetry_spec.
      intros [_ H]. now apply Hre.
Qed.

End ExecutorFacts.

Lemma executeJob_loop job index outputPath config answers w :
  Executor.executeJob job index outputPath config answers w
  = Executor.attemptLoop job index outputPath config answers (now w)
      (Executor.attemptRange config) EmptyString w.
Proof. reflexivity. Qed.

Lemma attemptsMade_app (es1 es2 : list Effect) (t1 t2 : Z) :
  Executor.attemptsMade {| now := t1; effects := es1 ++ es2 |}
  = (Executor.attemptsMade {| now := t1; effects := es1 |}
     + Executor.attemptsMade {| now := t2; effects := es2 |})%nat.
Proof.
  unfold Executor.attemptsMade. cbn [effects].
  now rewrite filter_app, length_app.
Qed.

Lemma attemptsMade_spacedCalls req d k t :
  Executor.attemptsMade
    {| now := t; effects := Executor.spacedCalls req d k |} = S k.
Proof.
  unfold Executor.attemptsMade, Executor.spacedCalls. cbn [effects filter].
  cbn [List.length]. f_equal.
  induction k as [|k IH]; [reflexivity|].
  cbn [repeat List.concat app filter List.length]. now rewrite IH.
Qed.

Lemma attemptsMade_repeat req k t :
  Executor.attemptsMade {| now := t; effects := repeat (Called req) k |} = k.
Proof.
  unfold Executor.attemptsMade. cbn [effects].
  induction k as [|k IH]; [reflexivity|].
  cbn [repeat filter List.length]. now rewrite IH.
Qed.

Lemma attemptsMade_effects (w w' : World) :
  effects w = effects w' ->
  Executor.attemptsMade w = Executor.attemptsMade w'.
Proof. unfold Executor.attemptsMade. now intros ->. Qed.

(** Whatever the errors are, a job none of whose attempts succeeds and none
    of whose errors matches a pattern is attempted [maxRetries + 1] times,
    without any sleep in between. *)
Lemma nonretryable_makes_all_attempts job index outputPath config answers w :
  Executor.allThrow answers (fun msg => ~ Executor.retryable config msg)
                    (Executor.attemptRange config) ->
  effects (snd (Executor.executeJob job index outputPath config answers w))
  = (effects w
     ++ repeat (Called (Executor.request job outputPath config))
               (Z.to_nat (Retry.maxRetries config + 1)))%list.
Proof.
  intros Hall. rewrite executeJob_loop.
  rewrite loop_none_retryable by exact Hall.
  unfold Executor.attemptRange. now rewrite length_seq.
Qed.

(** C1 (what the code does instead).  A non-retryable error does not end
    the job after one attempt: the retry decision only decides whether the
    loop sleeps, and the loop goes on to the next attempt either way.  With
    [max_retries = 2], a job whose attempts all fail with the message
    Invalid API key, which matches no retryable pattern, is attempted three
    times before it is reported failed. *)
Theorem C1_nonretryable_error_is_reattempted :
  let config :=
    Sample.batch [Sample.cat] None None (Some (Sample.policy 2 1000)) in
  let answers := fun _ : nat => Sample.throws 40 "Invalid API key" in
  let run :=
    Executor.executeJob Sample.cat 0 "/out/generated_1.jpg" config answers
                        Sample.world0 in
  Retry.shouldRetry "Invalid API key" 0 (Retry.maxRetries config)
                    (Retry.retryPatterns config) = false
  /\ Executor.attemptsMade (snd run) = 3%nat
  /\ Result.status (fst run) = Failed
  /\ Result.error (fst run) = Some "Invalid API key".
Proof. vm_compute. repeat split; reflexivity. Qed.

(** C3. When every attempt of a job fails with an error that matches a
    retryable pattern, [executeJob] makes exactly [maxRetries + 1] calls to
    the image operation, sleeps [retryDelay] between two consecutive calls
    and nowhere else, and returns a failed result that carries the message
    of the last error. *)
Theorem C3_retry_bound job index outputPath config answers w :
  0 <= Retry.maxRetries config ->
  Executor.allThrow answers (Executor.retryable config)
                    (Executor.attemptRange config) ->
  let run := Executor.executeJob job index outputPath config answers w in
  effects (snd run)
  = (effects w
     ++ Executor.spacedCalls (Executor.request job outputPath config)
          (Retry.retryDelay config) (Z.to_nat (Retry.maxRetries config)))%list
  /\ Z.of_nat (Executor.attemptsMade (snd run))
     = Z.of_nat (Executor.attemptsMade w) + (Retry.maxRetries config + 1)
  /\ Result.status (fst run) = Failed
  /\ exists e,
      snd (answers (Z.to_nat (Retry.maxRetries config))) = Throws e
      /\ Result.error (fst run) = Some (Executor.errorText e).
Proof.
  intros Hmax Hall run. subst run. rewrite executeJob_loop.
  unfold Executor.attemptRange in *.
  replace (Z.to_nat (Retry.maxRetries config + 1))
    with (S (Z.to_nat (Retry.maxRetries config))) in * by lia.
  destruct (@loop_all_retryable job index outputPath config answers
              (Z.to_nat (Retry.maxRetries config)) 0 (now w) EmptyString w)
    as [Heff [Hst Herr]]; [cbn [Nat.add]; lia | exact Hall |].
  split; [exact Heff|]. split; [|split; [exact Hst | exact Herr]].
  match goal with
  | |- context [Executor.attemptsMade ?w1] =>
      rewrite (@attemptsMade_effects w1
                 {| now := 0; effects := effects w ++ Executor.spacedCalls
                      (Executor.request job outputPath config)
                      (Retry.retryDelay config)
                      (Z.to_nat (Retry.maxRetries config)) |})
        by exact Heff
  end.
  rewrite (attemptsMade_app _ _ 0 0), attemptsMade_spacedCalls.
  rewrite (@attemptsMade_effects {| now := 0; effects := effects w |} w)
    by reflexivity.
  lia.
Qed.

Lemma C3_retry_bound_witness :
  let config := Sample.batch [Sample.cat] None None None in
  let answers := fun _ : nat => Sample.throws 40 "HTTP 429: rate limited" in
  let run :=
    Executor.executeJob Sample.cat 0 "/out/generated_1.jpg" config answers
                        Sample.world0 in
  Z.of_nat (Executor.attemptsMade (snd run)) = 3
  /\ Result.status (fst run) = Failed.
Proof.
  intros config answers run.
  assert (Hall : Executor.allThrow answers (Executor.retryable config)
                                   (Executor.attemptRange config)).
  { intros k _. eexists. split; [reflexivity|].
    exists "429". split; [vm_compute; tauto|].
    apply includes_lower_iff. reflexivity. }
  destruct (@C3_retry_bound Sample.cat 0%nat "/out/generated_1.jpg" config
              answers Sample.world0 ltac:(vm_compute; discriminate) Hall)
    as [_ [Hn [Hst _]]].
  split; [exact Hn | exact Hst].
Defined.

(** C10. A completed result of [executeJob] comes from an attempt that
    resolved; its [output_paths] is a non-empty list, namely the paths read
    from the answer, or, when none could be read, the one expected output
    path of the job. *)
Theorem C10_completed_has_output_paths job index outputPath config answers w :
  let r := fst (Executor.executeJob job index outputPath config answers w) in
  Result.status r = Completed ->
  exists attempt result p ps,
    In attempt (Executor.attemptRange config)
    /\ snd (answers attempt) = Resolves result
    /\ Result.output_paths r = Some (p :: ps)
    /\ p :: ps = Executor.recordedPaths outputPath result
    /\ (fst (Executor.parseResult result) = [] ->
        Result.output_paths r = Some [outputPath]).
Proof.
  intros r Hc. subst r. rewrite executeJob_loop in *.
  destruct (attemptLoop_completed _ _ _ _ _ _ _ _ _ Hc)
    as [attempt [result [Hin [Ha Hp]]]].
  assert (Hne : exists p ps, Executor.recordedPaths outputPath result = p :: ps).
  { unfold Executor.recordedPaths.
    destruct (fst (Executor.parseResult result)); eauto. }
  destruct Hne as [p [ps Hps]].
  exists attempt, result, p, ps. rewrite Hp, Hps.
  repeat split; try assumption; try reflexivity.
  intros Hnil. unfold Executor.recordedPaths in Hps. rewrite Hnil in Hps.
  now rewrite Hps.
Qed.

Lemma C10_completed_has_output_paths_witness :
  Result.output_paths
    (fst (Executor.executeJob Sample.cat 0 "/out/generated_1.jpg"
            (Sample.batch [Sample.cat] None None None)
            (fun _ => Sample.resolves 900 "done") Sample.world0))
  = Some ["/out/generated_1.jpg"].
Proof.
  destruct (@C10_completed_has_output_paths Sample.cat 0%nat
              "/out/generated_1.jpg"
              (Sample.batch [Sample.cat] None None None)
              (fun _ => Sample.resolves 900 "done") Sample.world0
              eq_refl)
    as [attempt [result [p [ps [_ [Ha [_ [_ Hfallback]]]]]]]].
  apply Hfallback. injection Ha as <-. reflexivity.
Defined.

(** ** Concurrency limiter *)

Section LimiterFacts.

Import Limiter.

Variable C : Z.
Hypothesis C_nonneg : 0 <= C.

Lemma balanced_init : balanced C (init C).
Proof. unfold balanced, init. cbn. repeat split; lia. Qed.

Lemma balanced_step o s : balanced C s -> balanced C (step o s).
Proof.
  intros [Hp [Hg Hq]]. destruct o as [t | t]; unfold step.
  - unfold acquire. destruct (0 <? permits (sem s)) eqn:E.
    + apply Z.ltb_lt in E. unfold balanced; cbn [sem granted released suspended woken permits queue].
      split; [lia | split; [lia | exact Hq]].
    + unfold balanced; cbn [sem granted released suspended woken permits queue].
      split; [lia | split; [lia | now rewrite Hq, app_assoc]].
  - unfold release. destruct (queue (sem s)) as [|u rest] eqn:E.
    + unfold balanced; cbn [sem granted released suspended woken permits queue].
      split; [lia | split; [lia | exact Hq]].
    + unfold balanced; cbn [sem granted released suspended woken permits queue].
      split; [lia | split; [lia | now rewrite Hq, <- app_assoc]].
Qed.

Lemma balanced_exec ops s : balanced C s -> balanced C (exec ops s).
Proof.
  revert s. induction ops as [|o ops IH]; intros s H; [exact H|].
  apply IH, balanced_step, H.
Qed.

Lemma drop_length t l :
  existsb (Nat.eqb t) l = true -> S (List.length (drop t l)) = List.length l.
Proof.
  induction l as [|x l IH]; cbn; [discriminate|].
  rewrite (Nat.eqb_sym t x). destruct (Nat.eqb x t); cbn; [reflexivity|].
  intros H. now rewrite IH.
Qed.

(** Under the discipline, the holders are the permits out. *)
Lemma holders_exec ops s :
  disciplined ops s = true ->
  Z.of_nat (List.length (holders s))
  = Z.of_nat (granted s) - Z.of_nat (released s) ->
  Z.of_nat (List.length (holders (exec ops s)))
  = Z.of_nat (granted (exec ops s)) - Z.of_nat (released (exec ops s)).
Proof.
  revert s. induction ops as [|o ops IH]; intros s Hd Hs; [exact Hs|].
  cbn [disciplined] in Hd. apply andb_true_iff in Hd as [Ho Hd].
  cbn [exec fold_left]. apply IH; [exact Hd|]. clear IH Hd.
  destruct o as [t | t]; unfold step.
  - destruct (acquire t (sem s)) as [[|] sem']; cbn [holders granted released].
    + rewrite length_app. cbn [List.length]. lia.
    + exact Hs.
  - apply drop_length in Ho.
    destruct (release (sem s)) as [[u|] sem']; cbn [holders granted released].
    + rewrite length_app. cbn [List.length]. lia.
    + lia.
Qed.

End LimiterFacts.


(** ** Cost estimator *)

Lemma string_length_app (a b : string) :
  String.length (a ++ b) = (String.length a + String.length b)%nat.
Proof. induction a as [|c a IH]; cbn; [reflexivity | now rewrite IH]. Qed.

Lemma string_app_nil_r (a : string) : a ++ EmptyString = a.
Proof. induction a as [|c a IH]; cbn; [reflexivity | now rewrite IH]. Qed.

Lemma string_app_inv_tail (a b t : string) : a ++ t = b ++ t -> a = b.
Proof.
  revert b. induction a as [|c a IH]; intros b H.
  - destruct b as [|d b]; [reflexivity|].
    apply (f_equal String.length) in H.
    cbn [String.append String.length] in H.
    rewrite string_length_app in H. lia.
  - destruct b as [|d b].
    + apply (f_equal String.length) in H.
      cbn [String.append String.length] in H.
      rewrite string_length_app in H. lia.
    + cbn [String.append] in H. injection H as -> H. f_equal. now apply IH.
Qed.






Section TallyFacts.

Import Cost.





Lemma sumZ_app a b : sumZ (a ++ b) = sumZ a + sumZ b.
Proof.
  unfold sumZ.
  induction a as [|x a IH]; cbn [app fold_right]; [reflexivity|].
  rewrite IH. ring.
Qed.

Variable config : BatchConfig.

Lemma countOver_snoc js job :
  countOver config (js ++ [job])
  = tally (keyOf config job) (imageCount job) (isEditJob job)
          (countOver config js).
Proof. unfold countOver. now rewrite fold_left_app. Qed.



Lemma sumZ_images_tally key n e mc :
  sumZ (map (fun kd => images (snd kd)) (tally key n e mc))
  = sumZ (map (fun kd => images (snd kd)) mc) + n.
Proof.
  unfold sumZ.
  induction mc as [|[k0 g0] mc IH]; cbn [tally map fold_right snd images].
  - ring.
  - destruct (String.eqb k0 key); cbn [map fold_right snd images].
    + ring.
    + rewrite IH. ring.
Qed.

Lemma sumZ_images_countOver js :
  sumZ (map (fun kd => images (snd kd)) (countOver config js))
  = sumZ (map imageCount js).
Proof.
  induction js as [|job js IH] using rev_ind; [reflexivity|].
  rewrite countOver_snoc, sumZ_images_tally, IH, map_app, sumZ_app.
  cbn. ring.
Qed.

(** The second loop: one entry per group in order, the image counts
    summed, and the costs added from the left. *)
Lemma priceGroups_fold mc t :
  let t' := fold_left priceGroup mc t in
  Loop.breakdown t' = (Loop.breakdown t ++ map entryOf mc)%list
  /\ Loop.totalImages t' = Loop.totalImages t + sumZ (map (fun kd => images (snd kd)) mc)
  /\ Loop.totalMin t'
     = fold_left PrimFloat.add (map (fun kd => groupCost (fst kd) (snd kd)) mc)
                 (Loop.totalMin t)
  /\ Loop.totalMax t'
     = fold_left PrimFloat.add (map (fun kd => groupCost (fst kd) (snd kd)) mc)
                 (Loop.totalMax t).
Proof.
  revert t. unfold sumZ.
  induction mc as [|[k g] mc IH]; intros t; cbn zeta.
  - cbn [fold_left map fold_right]. rewrite app_nil_r.
    repeat split; ring.
  - cbn [fold_left map fold_right].
    destruct (IH (priceGroup t (k, g))) as [He [Hi [Hmin Hmax]]].
    rewrite He, Hi, Hmin, Hmax.
    cbn [priceGroup Loop.breakdown Loop.totalImages Loop.totalMin Loop.totalMax fst snd].
    rewrite <- app_assoc.
    repeat split; try reflexivity. ring.
Qed.

End TallyFacts.

Section EstimatorFacts.

Import Cost.



Variable config : BatchConfig.
Hypothesis ordinary : ordinaryModels config = true.



Lemma breakdown_entries :
  breakdown (estimateBatchCost config)
  = map entryOf (countOver config (jobs config)).
Proof.
  unfold estimateBatchCost. cbn [breakdown].
  now destruct (priceGroups_fold (countJobs config)
                  {| Loop.totalMin := 0; Loop.totalMax := 0; Loop.totalImages := 0;
                     Loop.breakdown := [] |}) as [-> _].
Qed.



End EstimatorFacts.

(** A validated configuration has ordinary model identifiers. *)
Lemma MODELS_ordinary m :
  existsb (String.eqb m) Cost.MODELS = true -> Cost.ordinaryModel m = true.
Proof.
  cbn [Cost.MODELS existsb]. rewrite !orb_true_iff, !String.eqb_eq.
  intros [-> | [-> | [-> | [-> | H]]]]; try reflexivity; discriminate.
Qed.

Lemma validModels_ordinary config :
  Cost.validModels config = true -> Cost.ordinaryModels config = true.
Proof.
  unfold Cost.validModels, Cost.ordinaryModels.
  rewrite andb_true_iff, !forallb_forall. intros [Hjobs Hdefault] job Hin.
  specialize (Hjobs job Hin). unfold Cost.effectiveModel, JsString.or_else.
  destruct (model job) as [[|a m]|]; cbn [JsString.truthy Cost.knownModel] in *.
  - discriminate.
  - now apply MODELS_ordinary.
  - destruct (default_model config) as [[|a m]|];
      cbn [Cost.knownModel] in *;
      [discriminate | now apply MODELS_ordinary | reflexivity].
Qed.


Lemma estimate_totals config :
  let est := Cost.estimateBatchCost config in
  Cost.totalJobs est = List.length (jobs config)
  /\ Cost.totalImages est = Cost.sumZ (map Cost.imageCount (jobs config))
  /\ Cost.estimatedCostMin est
     = Cost.sumCosts (map Cost.Breakdown.costMin (Cost.breakdown est))
  /\ Cost.estimatedCostMax est = Cost.estimatedCostMin est.
Proof.
  intros est. subst est. rewrite breakdown_entries.
  unfold Cost.estimateBatchCost.
  destruct (priceGroups_fold (Cost.countJobs config)
              {| Cost.Loop.totalMin := 0; Cost.Loop.totalMax := 0; Cost.Loop.totalImages := 0;
                 Cost.Loop.breakdown := [] |}) as [_ [Hi [Hmin Hmax]]].
  cbn [Cost.totalJobs Cost.totalImages Cost.estimatedCostMin
       Cost.estimatedCostMax].
  rewrite Hi, Hmin, Hmax. cbn [Cost.Loop.totalImages Cost.Loop.totalMin Cost.Loop.totalMax].
  split; [reflexivity|]. split; [|split; [|reflexivity]].
  - unfold Cost.countJobs. fold (Cost.countOver config (jobs config)).
    now rewrite sumZ_images_countOver.
  - rewrite map_map. reflexivity.
Qed.



(** ** Batch scheduler *)


Section SchedulerFacts.

Import Scheduler.

Variable config : BatchConfig.
Variable answers : nat -> nat -> Answer.

Lemma attemptLoop_index job i path cfg ans startTime attempts lastError w :
  Result.index
    (fst (Executor.attemptLoop job i path cfg ans startTime attempts
                               lastError w))
  = (i + 1)%nat.
Proof.
  revert lastError w.
  induction attempts as [|attempt later IH]; intros lastError w.
  - reflexivity.
  - destruct (snd (ans attempt)) as [result | e] eqn:Ha.
    + now erewrite attemptLoop_resolves by exact Ha.
    + erewrite attemptLoop_throws by exact Ha. apply IH.
Qed.

Lemma start_wellFormed t at_ : wellFormed (start config answers t at_).
Proof.
  unfold wellFormed, start, place.
  destruct (Executor.executeJob _ _ _ _ _ _) as [r w] eqn:E.
  cbn [outcome task].
  assert (Hr : r = fst (Executor.executeJob (job t) (position t) (outputPath t)
                          config (answers (position t))
                          {| now := at_; effects := [] |}))
    by now rewrite E.
  split.
  - rewrite Hr, executeJob_loop. apply attemptLoop_index.
  - rewrite Hr, executeJob_loop.
    destruct (attemptLoop_status (job t) (position t) (outputPath t) config
                (answers (position t)) at_ (Executor.attemptRange config)
                EmptyString {| now := at_; effects := [] |}) as [H | H];
      cbn [now] in *; rewrite H; discriminate.
Qed.

Lemma start_task t at_ : task (start config answers t at_) = t.
Proof.
  unfold start. now destruct (Executor.executeJob _ _ _ _ _ _).
Qed.

Lemma start_finished_place t at_ : place (start config answers t at_) = position t.
Proof. unfold place. now rewrite start_task. Qed.

(** *** Launching *)

Lemma launch_positions at_ s t :
  Permutation (positions (launch config answers at_ s t))
              (positions s ++ [position t]).
Proof.
  unfold launch, Limiter.acquire, positions.
  destruct (0 <? Limiter.permits (sem s)); cbn [sem running landed Limiter.queue].
  - rewrite map_app. cbn [map]. rewrite start_finished_place.
    rewrite <- !app_assoc. apply Permutation_app_head, Permutation_app_head.
    apply Permutation_app_comm.
  - rewrite map_app. cbn [map]. now rewrite <- !app_assoc.
Qed.

Lemma launch_wellFormed at_ s t :
  Forall wellFormed (landed s) /\ Forall wellFormed (running s) ->
  Forall wellFormed (landed (launch config answers at_ s t))
  /\ Forall wellFormed (running (launch config answers at_ s t)).
Proof.
  intros [Hl Hr]. unfold launch.
  destruct (Limiter.acquire t (sem s)) as [[|] sem']; cbn [landed running];
    (split; [exact Hl|]); [|exact Hr].
  apply Forall_app. split; [exact Hr|].
  constructor; [apply start_wellFormed | constructor].
Qed.

Lemma launches_positions at_ ts s :
  Permutation (positions (fold_left (launch config answers at_) ts s))
              (positions s ++ map position ts).
Proof.
  revert s. induction ts as [|t ts IH]; intros s; cbn [fold_left map].
  - now rewrite app_nil_r.
  - rewrite IH, launch_positions, <- app_assoc. reflexivity.
Qed.

Lemma launches_wellFormed at_ ts s :
  Forall wellFormed (landed s) /\ Forall wellFormed (running s) ->
  Forall wellFormed (landed (fold_left (launch config answers at_) ts s))
  /\ Forall wellFormed (running (fold_left (launch config answers at_) ts s)).
Proof.
  revert s. induction ts as [|t ts IH]; intros s H; [exact H|].
  cbn [fold_left]. now apply IH, launch_wellFormed.
Qed.

Lemma launches_landed at_ ts s :
  landed (fold_left (launch config answers at_) ts s) = landed s.
Proof.
  revert s. induction ts as [|t ts IH]; intros s; [reflexivity|].
  cbn [fold_left]. rewrite IH. unfold launch.
  now destruct (Limiter.acquire t (sem s)).
Qed.

(** *** Landing *)

Lemma nextToFinish_spec l m others :
  nextToFinish l = Some (m, others) ->
  Permutation l (m :: others)
  /\ Forall (fun r => finished m <= finished r) others.
Proof.
  revert m others. induction l as [|r l IH]; intros m others H; [discriminate|].
  cbn [nextToFinish] in H.
  destruct (nextToFinish l) as [[m' others']|] eqn:E.
  - destruct (IH _ _ eq_refl) as [Hp Hf].
    destruct (finished r <=? finished m') eqn:Hle; injection H as <- <-.
    + split; [reflexivity|]. apply Z.leb_le in Hle.
      rewrite Hp. constructor; [exact Hle|].
      eapply Forall_impl; [|exact Hf]. cbn. intros; lia.
    + apply Z.leb_gt in Hle. split.
      * rewrite Hp. apply perm_swap.
      * constructor; [lia | exact Hf].
  - injection H as <- <-. destruct l; [|cbn in E; destruct (nextToFinish l);
      [destruct p; destruct (_ <=? _)|]; discriminate].
    split; [reflexivity | constructor].
Qed.

Lemma nextToFinish_none l : nextToFinish l = None -> l = [].
Proof.
  destruct l as [|r l]; [reflexivity|]. cbn.
  destruct (nextToFinish l) as [[m others]|]; [|discriminate].
  destruct (_ <=? _); discriminate.
Qed.

Lemma land_positions r others s :
  positions (land config answers r others s)
  = (map place (landed s) ++ map place (r :: others)
     ++ map position (Limiter.queue (sem s)))%list.
Proof.
  unfold land, Limiter.release, positions.
  destruct (Limiter.queue (sem s)) as [|t q];
    cbn [sem running landed Limiter.queue map app];
    rewrite !map_app; cbn [map app]; rewrite <- ?app_assoc; cbn [app].
  - reflexivity.
  - now rewrite start_finished_place.
Qed.

Lemma land_accounted n r others s :
  nextToFinish (running s) = Some (r, others) ->
  accounted n s -> accounted n (land config answers r others s).
Proof.
  intros Hnext [Hp [Hl Hr]]. apply nextToFinish_spec in Hnext as [Hperm _].
  assert (Hro : Forall wellFormed (r :: others))
    by (eapply Permutation_Forall; eassumption).
  inversion Hro as [|? ? Hwr Hwo]; subst.
  split; [|split].
  - rewrite land_positions, <- Hp. unfold positions.
    apply Permutation_app_head, Permutation_app_tail, Permutation_map.
    now symmetry.
  - unfold land. destruct (Limiter.release (sem s)) as [next sem'].
    cbn [landed]. apply Forall_app. split; [exact Hl|].
    constructor; [exact Hwr | constructor].
  - unfold land. destruct (Limiter.release (sem s)) as [[t|] sem'];
      cbn [running]; [|exact Hwo].
    apply Forall_app. split; [exact Hwo|].
    constructor; [apply start_wellFormed | constructor].
Qed.

Lemma runUntil_accounted n deadline fuel s :
  accounted n s -> accounted n (runUntil config answers deadline fuel s).
Proof.
  revert s. induction fuel as [|fuel IH]; intros s H; [exact H|].
  cbn [runUntil].
  destruct (nextToFinish (running s)) as [[r others]|] eqn:E; [|exact H].
  destruct (finished r <? deadline); [|exact H].
  apply IH. now apply land_accounted.
Qed.

End SchedulerFacts.

(** *** The tasks of a batch *)

Lemma tasksFrom_spec P dir allowAny i js ts :
  Scheduler.tasksFrom P dir allowAny i js = Some ts ->
  map Scheduler.position ts = seq i (List.length js)
  /\ map Scheduler.job ts = js.
Proof.
  revert i ts. induction js as [|j js IH]; intros i ts H; cbn in H.
  - injection H as <-. now split.
  - destruct (Scheduler.resolveOutputPath P j i dir allowAny) as [path|];
      [|discriminate].
    destruct (Scheduler.tasksFrom P dir allowAny (S i) js) as [ts'|] eqn:E;
      [|discriminate].
    injection H as <-. destruct (IH _ _ E) as [Hp Hj].
    cbn [map List.length seq Scheduler.position Scheduler.job].
    now rewrite Hp, Hj.
Qed.

Lemma tasksFrom_length P dir allowAny i js ts :
  Scheduler.tasksFrom P dir allowAny i js = Some ts ->
  List.length ts = List.length js.
Proof.
  intros H. apply tasksFrom_spec in H as [_ <-]. now rewrite length_map.
Qed.

(** The scheduler accounts for every task when the sweep begins. *)
Lemma awaitJobs_accounted config answers ts startTime :
  map Scheduler.position ts = seq 0 (List.length ts) ->
  Scheduler.accounted (List.length ts)
    (fst (fst (Scheduler.awaitJobs config answers ts startTime))).
Proof.
  intros Hts. unfold Scheduler.awaitJobs.
  set (s0 := Scheduler.launchAll _ _ _ ts _).
  assert (H0 : Scheduler.accounted (List.length ts) s0).
  { subst s0. unfold Scheduler.launchAll. split.
    - rewrite launches_positions. cbn. now rewrite Hts.
    - apply launches_wellFormed. split; constructor. }
  set (s1 := Scheduler.runUntil config answers _ _ s0).
  assert (H1 : Scheduler.accounted (List.length ts) s1)
    by now apply runUntil_accounted.
  destruct (Scheduler.allSettled s1); cbn [fst]; [exact H1|].
  now apply runUntil_accounted.
Qed.

(** *** The results pushed before the sweep *)

Lemma pushed_indices n s :
  Scheduler.accounted n s ->
  map Result.index (Scheduler.pushed s)
  = map (fun r => (Scheduler.place r + 1)%nat) (Scheduler.landed s)
  /\ NoDup (map Result.index (Scheduler.pushed s))
  /\ (forall i, In i (map Result.index (Scheduler.pushed s)) ->
                (1 <= i <= n)%nat).
Proof.
  intros [Hp [Hl _]]. unfold Scheduler.pushed.
  assert (Heq : map Result.index (map Scheduler.outcome (Scheduler.landed s))
                = map (fun r => (Scheduler.place r + 1)%nat) (Scheduler.landed s)).
  { rewrite map_map. apply map_ext_in. intros r Hr.
    rewrite Forall_forall in Hl. now apply Hl. }
  assert (Hnd : NoDup (Scheduler.positions s))
    by (eapply Permutation_NoDup; [symmetry; exact Hp | apply seq_NoDup]).
  split; [exact Heq|]. rewrite Heq. split.
  - rewrite <- (map_map Scheduler.place (fun p => (p + 1)%nat)).
    apply Injective_map_NoDup; [intros x y; lia|].
    unfold Scheduler.positions in Hnd. now apply NoDup_app_remove_r in Hnd.
  - intros i Hi. apply in_map_iff in Hi as [r [<- Hr]].
    assert (Hin : In (Scheduler.place r) (seq 0 n)).
    { eapply Permutation_in; [exact Hp|]. unfold Scheduler.positions.
      apply in_or_app. left. now apply in_map. }
    apply in_seq in Hin. lia.
Qed.

(** *** The sweep *)

Lemma map_fst_combine {A B} (l : list A) (l' : list B) :
  List.length l = List.length l' -> map fst (combine l l') = l.
Proof.
  revert l'. induction l as [|a l IH]; intros [|b l'] H; cbn in *;
    try discriminate; [reflexivity|].
  f_equal. apply IH. now injection H.
Qed.

Lemma fold_left_push {A B} (c : A -> bool) (f : A -> B) (l : list A)
      (acc : list B) :
  fold_left (fun acc x => if c x then acc else (acc ++ [f x])%list) l acc
  = (acc ++ map f (filter (fun x => negb (c x)) l))%list.
Proof.
  revert acc. induction l as [|x l IH]; intros acc; cbn [fold_left filter map].
  - now rewrite app_nil_r.
  - rewrite IH. destruct (c x); cbn [negb map]; [reflexivity|].
    now rewrite <- app_assoc.
Qed.

(** The indices the sweep looks for: those of [1..n] that no pushed
    result carries. *)
Lemma sweep_spec config rs :
  Scheduler.sweep config rs
  = (rs ++ map (fun ij => Scheduler.cancelledResult (fst ij + 1)
                                                    (prompt (snd ij)))
              (filter (fun ij => negb (existsb (Nat.eqb (fst ij + 1))
                                               (map Result.index rs)))
                      (combine (seq 0 (List.length (jobs config)))
                               (jobs config))))%list.
Proof. unfold Scheduler.sweep. apply fold_left_push. Qed.

Lemma sweep_indices config rs :
  map Result.index (Scheduler.sweep config rs)
  = (map Result.index rs
     ++ map (fun i => (i + 1)%nat)
            (filter (fun i => negb (existsb (Nat.eqb (i + 1))
                                            (map Result.index rs)))
                    (seq 0 (List.length (jobs config)))))%list.
Proof.
  rewrite sweep_spec, map_app, map_map. cbn [Scheduler.cancelledResult Result.index].
  f_equal.
  rewrite <- (map_fst_combine (seq 0 (List.length (jobs config))) (jobs config))
    at 2 by apply length_seq.
  rewrite (filter_map_swap
             (fun i => negb (existsb (Nat.eqb (i + 1)) (map Result.index rs)))
             fst).
  now rewrite map_map.
Qed.

Lemma existsb_eqb_In (x : nat) (l : list nat) :
  existsb (Nat.eqb x) l = true <-> In x l.
Proof.
  rewrite existsb_exists. split.
  - intros [y [Hy Heq]]. apply Nat.eqb_eq in Heq. now subst.
  - intros H. exists x. split; [exact H | apply Nat.eqb_refl].
Qed.

(** After the sweep every index of [1..n] occurs exactly once. *)
Lemma sweep_complete config rs :
  NoDup (map Result.index rs) ->
  (forall i, In i (map Result.index rs) ->
             (1 <= i <= List.length (jobs config))%nat) ->
  NoDup (map Result.index (Scheduler.sweep config rs))
  /\ (forall i, In i (map Result.index (Scheduler.sweep config rs))
                <-> In i (seq 1 (List.length (jobs config)))).
Proof.
  intros Hnd Hrange. rewrite sweep_indices.
  set (idx := map Result.index rs) in *.
  set (n := List.length (jobs config)) in *.
  split.
  - apply NoDup_app; [exact Hnd | |].
    + apply Injective_map_NoDup; [intros x y; lia|].
      apply NoDup_filter, seq_NoDup.
    + intros x Hx Hm. apply in_map_iff in Hm as [i [<- Hi]].
      apply filter_In in Hi as [_ Hi]. apply negb_true_iff in Hi.
      apply existsb_eqb_In in Hx. congruence.
  - intros i. rewrite in_app_iff, in_seq. split.
    + intros [Hi | Hi]; [apply Hrange in Hi; lia|].
      apply in_map_iff in Hi as [j [<- Hj]].
      apply filter_In in Hj as [Hj _]. apply in_seq in Hj. lia.
    + intros Hi. destruct (existsb (Nat.eqb i) idx) eqn:E.
      * left. now apply existsb_eqb_In.
      * right. apply in_map_iff. exists (i - 1)%nat. split; [lia|].
        apply filter_In. split; [apply in_seq; lia|].
        replace (i - 1 + 1)%nat with i by lia. now rewrite E.
Qed.

(** *** The sort *)

Lemma insertByIndex_perm r l :
  Permutation (Scheduler.insertByIndex r l) (r :: l).
Proof.
  induction l as [|x l IH]; cbn [Scheduler.insertByIndex]; [reflexivity|].
  destruct (Result.index r <=? Result.index x)%nat; [reflexivity|].
  rewrite IH. apply perm_swap.
Qed.

Lemma sortByIndex_perm l : Permutation (Scheduler.sortByIndex l) l.
Proof.
  induction l as [|r l IH]; cbn [Scheduler.sortByIndex fold_right];
    [reflexivity|].
  fold (Scheduler.sortByIndex l). rewrite insertByIndex_perm.
  now constructor.
Qed.

Lemma insertByIndex_sorted r l :
  StronglySorted lt (map Result.index l) ->
  ~ In (Result.index r) (map Result.index l) ->
  StronglySorted lt (map Result.index (Scheduler.insertByIndex r l)).
Proof.
  induction l as [|x l IH]; cbn [Scheduler.insertByIndex map]; intros Hs Hn.
  - repeat constructor.
  - apply StronglySorted_inv in Hs as [Hs Hx].
    destruct (Nat.leb_spec (Result.index r) (Result.index x)) as [Hle | Hgt];
      cbn [map].
    + assert (Hlt : (Result.index r < Result.index x)%nat).
      { cbn [In] in Hn. assert (Result.index x <> Result.index r) by tauto.
        lia. }
      constructor; [constructor; assumption|].
      constructor; [exact Hlt|].
      eapply Forall_impl; [|exact Hx]. cbn. intros; lia.
    + constructor.
      * apply IH; [exact Hs|]. cbn [In] in Hn. tauto.
      * rewrite Forall_forall in *. intros i Hi.
        apply in_map_iff in Hi as [y [<- Hy]].
        apply (Permutation_in _ (insertByIndex_perm r l)) in Hy.
        destruct Hy as [<- | Hy]; [exact Hgt|].
        apply Hx. now apply in_map.
Qed.

Lemma sortByIndex_sorted l :
  NoDup (map Result.index l) ->
  StronglySorted lt (map Result.index (Scheduler.sortByIndex l)).
Proof.
  induction l as [|r l IH]; cbn [Scheduler.sortByIndex fold_right map];
    intros Hnd; [constructor|].
  fold (Scheduler.sortByIndex l). inversion Hnd as [|? ? Hn Hnd']; subst.
  apply insertByIndex_sorted; [now apply IH|].
  intros Hin. apply Hn.
  eapply Permutation_in; [|exact Hin].
  apply Permutation_map, sortByIndex_perm.
Qed.

(** Two increasing lists with the same elements are the same list. *)
Lemma increasing_unique (l1 l2 : list nat) :
  StronglySorted lt l1 -> StronglySorted lt l2 ->
  (forall x, In x l1 <-> In x l2) -> l1 = l2.
Proof.
  revert l2. induction l1 as [|a l1 IH]; intros l2 H1 H2 Hin.
  - destruct l2 as [|b l2]; [reflexivity|].
    exfalso. apply (Hin b). now left.
  - destruct l2 as [|b l2]; [exfalso; apply (Hin a); now left|].
    apply StronglySorted_inv in H1 as [H1 Ha].
    apply StronglySorted_inv in H2 as [H2 Hb].
    rewrite Forall_forall in Ha, Hb.
    assert (a = b).
    { destruct (proj1 (Hin a) (or_introl eq_refl)) as [-> | Hab];
        [reflexivity|].
      destruct (proj2 (Hin b) (or_introl eq_refl)) as [-> | Hba];
        [reflexivity|].
      apply Hb in Hab. apply Ha in Hba. lia. }
    subst b. f_equal. apply IH; [exact H1 | exact H2 |].
    intros x. split; intros Hx.
    + destruct (proj1 (Hin x) (or_intror Hx)) as [<- | H]; [|exact H].
      apply Ha in Hx. lia.
    + destruct (proj2 (Hin x) (or_intror Hx)) as [<- | H]; [|exact H].
      apply Hb in Hx. lia.
Qed.

Lemma seq_increasing a n : StronglySorted lt (seq a n).
Proof.
  revert a. induction n as [|n IH]; intros a; cbn [seq]; constructor.
  - apply IH.
  - apply Forall_forall. intros x Hx. apply in_seq in Hx. lia.
Qed.

(** Every result has one of the three statuses. *)
Lemma countStatus_total l :
  (Scheduler.countStatus Completed l + Scheduler.countStatus Failed l
   + Scheduler.countStatus Cancelled l)%nat = List.length l.
Proof.
  unfold Scheduler.countStatus.
  induction l as [|r l IH]; cbn [filter List.length]; [reflexivity|].
  destruct (Result.status r); cbn [Status_eqb List.length]; lia.
Qed.

(** The report lists the indices [1..n] in order. *)
Lemma report_indices config s startTime endTime :
  Scheduler.accounted (List.length (jobs config)) s ->
  map Result.index
      (Scheduler.results (Scheduler.report config s startTime endTime))
  = seq 1 (List.length (jobs config)).
Proof.
  intros Hacc. cbn [Scheduler.report Scheduler.results].
  destruct (pushed_indices Hacc) as [_ [Hnd Hrange]].
  destruct (sweep_complete config _ Hnd Hrange) as [Hnd' Hin'].
  apply increasing_unique.
  - now apply sortByIndex_sorted.
  - apply seq_increasing.
  - intros x. rewrite <- Hin'. split; apply Permutation_in;
      [|symmetry]; apply Permutation_map, sortByIndex_perm.
Qed.

Lemma executeBatch_report config answers P env options startTime rep :
  Scheduler.executeBatch config answers P env options startTime = Some rep ->
  exists ts s endTime timedOut,
    Scheduler.tasks config P env options = Some ts
    /\ Scheduler.awaitJobs config answers ts startTime = (s, endTime, timedOut)
    /\ rep = Scheduler.report config s startTime endTime
    /\ Scheduler.accounted (List.length (jobs config)) s.
Proof.
  unfold Scheduler.executeBatch. intros H.
  destruct (Scheduler.tasks config P env options) as [ts|] eqn:Ets;
    [|discriminate].
  destruct (Scheduler.awaitJobs config answers ts startTime)
    as [[s endTime] timedOut] eqn:Ew.
  injection H as <-. exists ts, s, endTime, timedOut.
  split; [reflexivity|]. split; [exact Ew|]. split; [reflexivity|].
  unfold Scheduler.tasks in Ets.
  pose proof (tasksFrom_length _ _ _ _ _ Ets) as Hlen.
  apply tasksFrom_spec in Ets as [Hpos _].
  rewrite <- Hlen in *.
  change s with (fst (fst (s, endTime, timedOut))). rewrite <- Ew.
  now apply awaitJobs_accounted.
Qed.

(** [executeBatch] returns a report for every batch whose output paths
    are accepted. *)
Lemma executeBatch_returns config answers P env options startTime ts :
  Scheduler.tasks config P env options = Some ts ->
  exists rep,
    Scheduler.executeBatch config answers P env options startTime = Some rep.
Proof.
  intros H. unfold Scheduler.executeBatch. rewrite H.
  destruct (Scheduler.awaitJobs config answers ts startTime) as [[s e] b].
  eauto.
Qed.

(** C2. Whenever [executeBatch] returns a report, the report has one
    result for each job of the batch, the indices of the results are
    1, 2, ..., [jobs.length] in this order, and the numbers of succeeded,
    failed and cancelled jobs add up to the number of jobs. *)
Theorem C2_report_covers_every_job config answers P env options startTime rep :
  Scheduler.executeBatch config answers P env options startTime = Some rep ->
  List.length (Scheduler.results rep) = List.length (jobs config)
  /\ map Result.index (Scheduler.results rep)
     = seq 1 (List.length (jobs config))
  /\ (Scheduler.succeeded rep + Scheduler.failed rep + Scheduler.cancelled rep
      = List.length (jobs config))%nat
  /\ Scheduler.total rep = List.length (jobs config).
Proof.
  intros H.
  destruct (executeBatch_report _ _ _ _ _ _ H)
    as [ts [s [endTime [timedOut [_ [_ [-> Hacc]]]]]]].
  pose proof (report_indices config startTime endTime Hacc) as Hidx.
  assert (Hlen : List.length
                   (Scheduler.results
                      (Scheduler.report config s startTime endTime))
                 = List.length (jobs config)).
  { rewrite <- (length_map Result.index), Hidx. apply length_seq. }
  split; [exact Hlen|]. split; [exact Hidx|]. split; [|reflexivity].
  rewrite <- Hlen. cbn [Scheduler.report Scheduler.succeeded Scheduler.failed
                        Scheduler.cancelled Scheduler.results].
  apply countStatus_total.
Qed.

Lemma C2_report_covers_every_job_witness :
  exists rep,
    Scheduler.executeBatch Sample.threeCats Sample.slowThird Sample.paths
                           Sample.process Sample.noOptions 0 = Some rep
    /\ map Result.index (Scheduler.results rep) = [1; 2; 3]%nat
    /\ (Scheduler.succeeded rep + Scheduler.failed rep
        + Scheduler.cancelled rep = 3)%nat.
Proof.
  destruct (@executeBatch_returns Sample.threeCats Sample.slowThird
              Sample.paths Sample.process Sample.noOptions 0 _ eq_refl)
    as [rep Hrep].
  exists rep. split; [exact Hrep|].
  destruct (@C2_report_covers_every_job Sample.threeCats Sample.slowThird
              Sample.paths Sample.process Sample.noOptions 0 rep Hrep)
    as [_ [Hidx [Hsum _]]].
  split; [exact Hidx | exact Hsum].
Defined.

(** *** The wait and the timer *)

Section WaitFacts.

Import Scheduler.

Variable config : BatchConfig.
Variable answers : nat -> nat -> Answer.

(** Only runs that finish before the deadline land. *)
Lemma runUntil_landed_before deadline fuel s :
  Forall (fun r => finished r < deadline) (landed s) ->
  Forall (fun r => finished r < deadline)
         (landed (runUntil config answers deadline fuel s)).
Proof.
  revert s. induction fuel as [|fuel IH]; intros s H; [exact H|].
  cbn [runUntil].
  destruct (nextToFinish (running s)) as [[r others]|] eqn:E; [|exact H].
  destruct (finished r <? deadline) eqn:Hlt; [|exact H].
  apply IH. unfold land. destruct (Limiter.release (sem s)) as [next sem'].
  cbn [landed]. apply Forall_app. split; [exact H|].
  constructor; [now apply Z.ltb_lt | constructor].
Qed.

(** The tasks still to land: in flight or waiting for a permit. *)
Lemma land_pending r others s :
  nextToFinish (running s) = Some (r, others) ->
  S (List.length (running (land config answers r others s))
     + List.length (Limiter.queue (sem (land config answers r others s))))
  = (List.length (running s) + List.length (Limiter.queue (sem s)))%nat.
Proof.
  intros H. apply nextToFinish_spec in H as [Hp _].
  apply Permutation_length in Hp. cbn [List.length] in Hp.
  unfold land, Limiter.release.
  destruct (Limiter.queue (sem s)) as [|t q]; cbn [running sem Limiter.queue].
  - cbn [List.length]. lia.
  - rewrite length_app. cbn [List.length]. lia.
Qed.

(** With a step for every pending task, the loop stops only when no run
    in flight finishes before the deadline. *)
Lemma runUntil_quiescent deadline fuel s :
  (List.length (running s) + List.length (Limiter.queue (sem s)) <= fuel)%nat ->
  Forall (fun r => deadline <= finished r)
         (running (runUntil config answers deadline fuel s)).
Proof.
  revert s. induction fuel as [|fuel IH]; intros s Hfuel.
  - cbn [runUntil]. destruct (running s); [constructor | cbn in Hfuel; lia].
  - cbn [runUntil].
    destruct (nextToFinish (running s)) as [[r others]|] eqn:E.
    + destruct (finished r <? deadline) eqn:Hlt.
      * apply IH. pose proof (land_pending _ E). lia.
      * apply Z.ltb_ge in Hlt.
        destruct (nextToFinish_spec _ E) as [Hp Hmin].
        eapply Permutation_Forall; [symmetry; exact Hp|].
        constructor; [exact Hlt|].
        eapply Forall_impl; [|exact Hmin]. cbn. intros; lia.
    + apply nextToFinish_none in E. rewrite E. constructor.
Qed.

Lemma accounted_pending n s :
  accounted n s ->
  (List.length (running s) + List.length (Limiter.queue (sem s)) <= n)%nat.
Proof.
  intros [Hp _]. apply Permutation_length in Hp.
  unfold positions in Hp. rewrite !length_app, !length_map, length_seq in Hp.
  lia.
Qed.

(** When the timer fires, the sweep begins a grace period after it, with
    the results of exactly the runs that finished before that moment. *)
Lemma awaitJobs_timedOut ts startTime s endTime :
  map position ts = seq 0 (List.length ts) ->
  awaitJobs config answers ts startTime = (s, endTime, true) ->
  let deadline := startTime + num_or (timeout config) 600000 + grace in
  endTime = deadline
  /\ Forall (fun r => finished r < deadline) (landed s)
  /\ Forall (fun r => deadline <= finished r) (running s).
Proof.
  intros Hts. unfold awaitJobs.
  set (s0 := launchAll _ _ _ ts _).
  set (d := startTime + num_or (timeout config) 600000).
  set (s1 := runUntil config answers d (List.length ts) s0).
  assert (H0 : accounted (List.length ts) s0).
  { subst s0. unfold launchAll. split.
    - rewrite launches_positions. cbn. now rewrite Hts.
    - apply launches_wellFormed. split; constructor. }
  assert (H1 : accounted (List.length ts) s1) by now apply runUntil_accounted.
  destruct (allSettled s1); [discriminate|].
  intros H. injection H as <- <-. split; [reflexivity|]. split.
  - apply runUntil_landed_before. subst s1.
    eapply Forall_impl;
      [|apply (@runUntil_landed_before d); subst s0; unfold launchAll;
        rewrite launches_landed; constructor].
    cbn. unfold grace. intros; lia.
  - apply runUntil_quiescent. now apply accounted_pending.
Qed.

End WaitFacts.

(** *** What the report says of each job *)

Lemma countStatus_app st l1 l2 :
  Scheduler.countStatus st (l1 ++ l2)
  = (Scheduler.countStatus st l1 + Scheduler.countStatus st l2)%nat.
Proof.
  unfold Scheduler.countStatus. now rewrite filter_app, length_app.
Qed.

Lemma countStatus_insert st r l :
  Scheduler.countStatus st (Scheduler.insertByIndex r l)
  = Scheduler.countStatus st (r :: l).
Proof.
  unfold Scheduler.countStatus.
  induction l as [|x l IH]; cbn [Scheduler.insertByIndex]; [reflexivity|].
  destruct (Result.index r <=? Result.index x)%nat; [reflexivity|].
  cbn [filter] in *.
  destruct (Status_eqb (Result.status x) st), (Status_eqb (Result.status r) st);
    cbn [List.length] in *; lia.
Qed.

Lemma countStatus_sort st l :
  Scheduler.countStatus st (Scheduler.sortByIndex l)
  = Scheduler.countStatus st l.
Proof.
  induction l as [|r l IH]; cbn [Scheduler.sortByIndex fold_right];
    [reflexivity|].
  fold (Scheduler.sortByIndex l). rewrite countStatus_insert.
  unfold Scheduler.countStatus in *. cbn [filter].
  destruct (Status_eqb (Result.status r) st); cbn [List.length]; lia.
Qed.

(** The sweep adds cancelled results only. *)
Lemma countStatus_sweep config st rs :
  st <> Cancelled ->
  Scheduler.countStatus st (Scheduler.sweep config rs)
  = Scheduler.countStatus st rs.
Proof.
  intros Hst. rewrite sweep_spec, countStatus_app.
  match goal with |- (_ + ?x = _)%nat => assert (Hx : x = 0%nat) end; [|lia].
  unfold Scheduler.countStatus.
  induction (filter _ (combine _ _)) as [|ij l IH]; [reflexivity|].
  cbn [map filter Scheduler.cancelledResult Result.status].
  destruct st; try contradiction; cbn [Status_eqb]; exact IH.
Qed.

Lemma countStatus_none st l :
  Forall (fun r => Result.status r <> st) l ->
  Scheduler.countStatus st l = 0%nat.
Proof.
  unfold Scheduler.countStatus.
  induction 1 as [|r l Hr _ IH]; [reflexivity|]. cbn [filter].
  destruct (Result.status r), st; cbn [Status_eqb]; try exact IH;
    contradiction.
Qed.

Lemma in_combine_seq {A} (l : list A) (a i : nat) (x : A) :
  nth_error l i = Some x ->
  In ((a + i)%nat, x) (combine (seq a (List.length l)) l).
Proof.
  revert a i. induction l as [|y l IH]; intros a [|i] H; try discriminate.
  - injection H as ->. rewrite Nat.add_0_r. now left.
  - right. cbn [nth_error] in H.
    replace (a + S i)%nat with (S a + i)%nat by lia. now apply IH.
Qed.




(** ** The limiter inside the scheduler *)

Section CapacityFacts.

Import Scheduler.

Variable config : BatchConfig.
Variable answers : nat -> nat -> Answer.
Variable C : Z.

Lemma launch_withinCapacity at_ s t :
  withinCapacity C s -> withinCapacity C (launch config answers at_ s t).
Proof.
  intros [Hp Hc]. unfold launch, Limiter.acquire, withinCapacity.
  destruct (0 <? Limiter.permits (sem s)) eqn:E;
    cbn [sem running Limiter.permits].
  - apply Z.ltb_lt in E. rewrite length_app. cbn [List.length]. lia.
  - lia.
Qed.

Lemma launchAll_withinCapacity ts at_ :
  0 <= C -> withinCapacity C (launchAll config answers C ts at_).
Proof.
  intros HC. unfold launchAll.
  assert (H : withinCapacity C {| sem := Limiter.new C; running := [];
                                  landed := [] |})
    by (unfold withinCapacity; cbn; lia).
  revert H. generalize {| sem := Limiter.new (T := Task) C; running := [];
                          landed := [] |}.
  induction ts as [|t ts IH]; intros s H; [exact H|].
  cbn [fold_left]. now apply IH, launch_withinCapacity.
Qed.

Lemma land_withinCapacity r others s :
  nextToFinish (running s) = Some (r, others) ->
  withinCapacity C s -> withinCapacity C (land config answers r others s).
Proof.
  intros Hnext [Hp Hc]. apply nextToFinish_spec in Hnext as [Hperm _].
  apply Permutation_length in Hperm. cbn [List.length] in Hperm.
  unfold land, Limiter.release, withinCapacity.
  destruct (Limiter.queue (sem s)) as [|t q];
    cbn [sem running Limiter.permits].
  - lia.
  - rewrite length_app. cbn [List.length]. lia.
Qed.

Lemma runUntil_withinCapacity deadline fuel s :
  withinCapacity C s ->
  withinCapacity C (runUntil config answers deadline fuel s).
Proof.
  revert s. induction fuel as [|fuel IH]; intros s H; [exact H|].
  cbn [runUntil].
  destruct (nextToFinish (running s)) as [[r others]|] eqn:E; [|exact H].
  destruct (finished r <? deadline); [|exact H].
  apply IH. now apply land_withinCapacity.
Qed.

End CapacityFacts.

(** C7. A limiter created with capacity [C] starts with [C] permits.  After
    any sequence of [acquire] and [release] calls the permits granted
    exceed the permits given back by at most [C]; when every [release] is
    made by a task that holds a permit, at most [C] tasks hold one.  Tasks
    are woken in the order in which they were suspended: the tasks woken so
    far followed by the waiting queue are the tasks suspended so far, and
    [release] resolves the head of the queue.  In a batch run with
    [maxConcurrent = C], at most [C] jobs are in flight after any number of
    steps of the wait, before the timer and during the grace period. *)
Theorem C7_limiter_bound_and_fifo (C : Z) (ops : list Limiter.Op) :
  0 <= C ->
  let s := Limiter.exec ops (Limiter.init C) in
  Limiter.permits (Limiter.sem (Limiter.init C)) = C
  /\ Z.of_nat (Limiter.granted s) - Z.of_nat (Limiter.released s) <= C
  /\ (Limiter.disciplined ops (Limiter.init C) = true ->
      Z.of_nat (List.length (Limiter.holders s)) <= C)
  /\ Limiter.suspended s = (Limiter.woken s ++ Limiter.queue (Limiter.sem s))%list
  /\ fst (Limiter.release (Limiter.sem s))
     = nth_error (Limiter.suspended s) (List.length (Limiter.woken s))
  /\ (forall config answers ts startTime d1 d2 k1 k2,
        Z.of_nat
          (List.length
             (Scheduler.running
                (Scheduler.runUntil config answers d2 k2
                   (Scheduler.runUntil config answers d1 k1
                      (Scheduler.launchAll config answers C ts startTime)))))
        <= C).
Proof.
  intros HC s.
  destruct (balanced_exec ops (balanced_init HC)) as [Hp [Hg Hq]].
  fold s in Hp, Hg, Hq.
  split; [reflexivity|]. split; [lia|].
  split; [|split; [exact Hq|split]].
  - intros Hd. subst s. rewrite holders_exec; [lia | exact Hd | reflexivity].
  - rewrite Hq, nth_error_app2, Nat.sub_diag by lia.
    unfold Limiter.release. now destruct (Limiter.queue (Limiter.sem s)).
  - intros config answers ts startTime d1 d2 k1 k2.
    destruct (runUntil_withinCapacity config answers d2 k2
                (runUntil_withinCapacity config answers d1 k1
                   (launchAll_withinCapacity config answers ts startTime HC)))
      as [Hperm Hcap].
    lia.
Qed.

Lemma C7_limiter_bound_and_fifo_witness :
  let ops := [Limiter.Acquire 0; Limiter.Acquire 1; Limiter.Acquire 2;
              Limiter.Acquire 3; Limiter.Release 1; Limiter.Release 0]%nat in
  let s := Limiter.exec ops (Limiter.init 2) in
  Z.of_nat (List.length (Limiter.holders s)) <= 2
  /\ Limiter.woken s = [2; 3]%nat.
Proof.
  intros ops s.
  destruct (@C7_limiter_bound_and_fifo 2 ops ltac:(lia))
    as [_ [_ [Hh _]]].
  split; [apply Hh; reflexivity | reflexivity].
Defined.

(** ** The estimator as a step of a running program *)




(** C8. The result of [executeJob] is completed or failed, and never
    cancelled, whatever the job, the configuration and the answers of the
    image operation.  A cancelled result in a batch report is one the sweep
    of [executeBatch] made. *)
Theorem C8_executeJob_completed_or_failed job index outputPath config answers w :
  let r := fst (Executor.executeJob job index outputPath config answers w) in
  (Result.status r = Completed \/ Result.status r = Failed)
  /\ Result.status r <> Cancelled
  /\ (forall batchAnswers P env options startTime rep x,
        Scheduler.executeBatch config batchAnswers P env options startTime
        = Some rep ->
        In x (Scheduler.results rep) ->
        Result.status x = Cancelled ->
        x = Scheduler.cancelledResult (Result.index x) (Result.prompt x)).
Proof.
  intros r. subst r. rewrite executeJob_loop.
  split; [|split].
  - apply attemptLoop_status.
  - destruct (@attemptLoop_status job index outputPath config answers (now w)
                (Executor.attemptRange config) EmptyString w) as [H | H];
      rewrite H; discriminate.
  - intros batchAnswers P env options startTime rep x Hrep Hx Hc.
    destruct (executeBatch_report _ _ _ _ _ _ Hrep)
      as [ts [s [endTime [timedOut [_ [_ [-> [_ [Hl _]]]]]]]]].
    cbn [Scheduler.report Scheduler.results] in Hx.
    apply (Permutation_in _ (sortByIndex_perm _)) in Hx.
    rewrite sweep_spec in Hx. apply in_app_or in Hx as [Hx | Hx].
    + exfalso. unfold Scheduler.pushed in Hx.
      apply in_map_iff in Hx as [run [<- Hrun]].
      rewrite Forall_forall in Hl. now apply (Hl run Hrun).
    + apply in_map_iff in Hx as [[i j] [<- _]]. reflexivity.
Qed.

Lemma C8_executeJob_completed_or_failed_witness :
  exists rep,
    Scheduler.executeBatch Sample.threeCats Sample.slowThird Sample.paths
                           Sample.process Sample.noOptions 0 = Some rep
    /\ nth_error (Scheduler.results rep) 2
       = Some (Scheduler.cancelledResult 3 "a cat").
Proof.
  destruct (@executeBatch_returns Sample.threeCats Sample.slowThird
              Sample.paths Sample.process Sample.noOptions 0 _ eq_refl)
    as [rep Hrep].
  exists rep. split; [exact Hrep|].
  destruct (@C8_executeJob_completed_or_failed Sample.cat 0%nat
              "/out/generated_1.jpg" Sample.threeCats
              (Sample.slowThird 0) Sample.world0) as [_ [_ Hsweep]].
  assert (Hthird : exists x, nth_error (Scheduler.results rep) 2 = Some x
                             /\ Result.status x = Cancelled
                             /\ Result.index x = 3%nat
                             /\ Result.prompt x = "a cat").
  { vm_compute in Hrep. injection Hrep as <-. eexists.
    split; [reflexivity|]. repeat split. }
  destruct Hthird as [x [Hnth [Hst [Hidx Hpr]]]].
  rewrite Hnth. f_equal.
  rewrite <- Hidx, <- Hpr.
  apply (Hsweep Sample.slowThird Sample.paths Sample.process Sample.noOptions
                0 rep x Hrep); [|exact Hst].
  eapply nth_error_In. exact Hnth.
Defined.

(** ** Scenarios *)

(** Two attempts answered with 429 and a third that succeeds: the job is
    completed after three calls and two sleeps. *)
Example scenario_third_attempt_succeeds :
  let answers := fun attempt : nat =>
    match attempt with
    | O | S O => Sample.throws 50 "HTTP 429 Too Many Requests"
    | _ => Sample.resolves 900 "Image generated successfully: /out/cat.jpg"
    end in
  let run :=
    Executor.executeJob Sample.cat 0 "/out/generated_1.jpg"
      (Sample.batch [Sample.cat] None None (Some (Sample.policy 2 1000)))
      answers Sample.world0 in
  Result.status (fst run) = Completed
  /\ Result.output_paths (fst run) = Some ["/out/cat.jpg"]
  /\ Result.duration_ms (fst run) = Some 3000
  /\ Executor.attemptsMade (snd run) = 3%nat.
Proof. vm_compute. repeat split; reflexivity. Qed.

(** Three generation jobs, two at a time, all successful. *)
Example scenario_three_jobs_two_at_a_time :
  option_map
    (fun rep =>
       (Scheduler.succeeded rep, Scheduler.failed rep, Scheduler.cancelled rep,
        map Result.index (Scheduler.results rep)))
    (Scheduler.executeBatch
       (Sample.batch [Sample.cat; Sample.cat; Sample.cat] (Some 2) None None)
       (fun i _ => Sample.resolves (100 * Z.of_nat (3 - i)) "done")
       Sample.paths Sample.process Sample.noOptions 0)
  = Some (3, 0, 0, [1; 2; 3])%nat.
Proof. vm_compute. reflexivity. Qed.

(** A matched line whose text after the colon is a lone carriage return
    yields no path, and the expected output path is recorded instead. *)
Example extractPaths_lone_CR :
  Regex.match_all Regex.re_saved ("saved:" ++ String Regex.CR EmptyString)
  = ["saved:" ++ String Regex.CR EmptyString]
  /\ Executor.extractPaths ("saved:" ++ String Regex.CR EmptyString) = []
  /\ Executor.recordedPaths "/out/generated_1.jpg"
       (RString ("saved:" ++ String Regex.CR EmptyString))
     = ["/out/generated_1.jpg"].
Proof. vm_compute. repeat split; reflexivity. Qed.

(** Of several numbered lines only the first follows the keyword. *)
Example extractPaths_numbered :
  Executor.extractPaths
    ("2 images generated successfully:" ++ String Regex.LF "  1. /out/a_1.jpg"
     ++ String Regex.LF "  2. /out/a_2.jpg")
  = ["1. /out/a_1.jpg"].
Proof. vm_compute. reflexivity. Qed.

Example extractRevisedPrompt_found :
  Executor.extractRevisedPrompt
    ("Image generated successfully: /out/a.jpg"
     ++ String Regex.LF (String Regex.LF "revised PROMPT:   a fluffy cat  "))
  = Some "a fluffy cat".
Proof. vm_compute. reflexivity. Qed.

Example toLowerCase_latin1 :
  JsString.toLowerCase "Rate_LIMIT 429" = "rate_limit 429".
Proof. reflexivity. Qed.

Lemma C4_shouldRetry_iff_witness :
  Retry.retryPatterns (Sample.batch [Sample.cat] None None None)
  = ["rate_limit"; "timeout"; "429"; "503"]
  /\ Retry.shouldRetry "HTTP 429 Too Many Requests" 0 2
       (Retry.retryPatterns (Sample.batch [Sample.cat] None None None))
     = true.
Proof.
  destruct C4_shouldRetry_iff as [Hiff [Hdefault _]].
  split.
  - apply Hdefault. left. reflexivity.
  - apply Hiff. split; [lia|]. exists "429". split.
    + right. right. left. reflexivity.
    + exists "HTTP ", "429", " Too Many Requests". split; reflexivity.
Defined.

(* ================================================================= *)
(** ** Configuration validation *)

Lemma throwIf_returns (b : bool) (e : Validate.BatchConfigError) :
  Validate.throwIf b e = None <-> b = false.
Proof. destruct b; simpl; split; congruence. Qed.

Lemma andThen_returns (a b : Validate.Checked) :
  Validate.andThen a b = None <-> a = None /\ b = None.
Proof.
  destruct a; simpl; split; intros H.
  - discriminate.
  - destruct H; discriminate.
  - now split.
  - now destruct H.
Qed.

Lemma whenDefined_returns A (x : option A) (body : A -> Validate.Checked) :
  Validate.whenDefined x body = None
  <-> forall v, x = Some v -> body v = None.
Proof.
  destruct x as [v|]; simpl; split; intros H.
  - intros v' [= <-]. exact H.
  - now apply H.
  - intros v' [=].
  - reflexivity.
Qed.

Lemma arrayIncludes_In (l : list string) (x : string) :
  Validate.arrayIncludes l x = true <-> In x l.
Proof.
  unfold Validate.arrayIncludes. rewrite existsb_exists. split.
  - intros [y [Hin Heq]]. apply String.eqb_eq in Heq. now subst.
  - intros Hin. exists x. split; [exact Hin|apply String.eqb_refl].
Qed.

Lemma notIncluded_returns (l : list string) (x : option string)
      (e : string -> Validate.BatchConfigError) :
  Validate.whenDefined x
    (fun v => Validate.throwIf (negb (Validate.arrayIncludes l v)) (e v)) = None
  <-> Validate.oneOf l x.
Proof.
  rewrite whenDefined_returns. unfold Validate.oneOf.
  split; intros H v Hv; specialize (H v Hv).
  - apply throwIf_returns, negb_false_iff in H. now apply arrayIncludes_In.
  - apply throwIf_returns, negb_false_iff. now apply arrayIncludes_In.
Qed.

Lemma outOfRange_returns (lo hi : Z) (x : option Z)
      (e : Validate.BatchConfigError) :
  Validate.whenDefined x
    (fun v => Validate.throwIf ((v <? lo) || (hi <? v)) e) = None
  <-> Validate.within lo hi x.
Proof.
  rewrite whenDefined_returns. unfold Validate.within.
  split; intros H v Hv; specialize (H v Hv).
  - apply throwIf_returns, orb_false_iff in H. lia.
  - apply throwIf_returns, orb_false_iff. lia.
Qed.

Lemma blank_prompt_returns (p : string) :
  negb (JsString.truthy (Some p))
  || (String.length (JsString.trim p) =? 0)%nat = false
  <-> JsString.trim p <> EmptyString.
Proof.
  rewrite orb_false_iff, negb_false_iff, Nat.eqb_neq. split.
  - intros [_ H] E. now rewrite E in H.
  - intros H. split.
    + destruct p; [now elim H|reflexivity].
    + destruct (JsString.trim p); [now elim H|discriminate].
Qed.

Lemma editRules_return (job : BatchJobConfig) (e : Validate.JobIssue -> Validate.BatchConfigError) :
  (if Executor.isEditJob job
   then
     Validate.andThen
       (Validate.throwIf
          (negb (String.eqb (Validate.string_or (model job) "grok-imagine-image")
                            "grok-imagine-image"))
          (e Validate.EditingUnsupported))
       (Validate.whenDefined (aspect_ratio job)
          (fun _ => Some (e Validate.AspectRatioOnEdit)))
   else None) = None
  <-> (Executor.isEditJob job = true ->
       Validate.string_or (model job) "grok-imagine-image" = "grok-imagine-image")
      /\ (Executor.isEditJob job = true -> aspect_ratio job = None).
Proof.
  destruct (Executor.isEditJob job).
  - rewrite andThen_returns, throwIf_returns, negb_false_iff, String.eqb_eq,
      whenDefined_returns.
    split.
    + intros [Hm Ha]. split; [auto|]. intros _.
      destruct (aspect_ratio job) as [a|]; [|reflexivity].
      now specialize (Ha a eq_refl).
    + intros [Hm Ha]. split; [auto|]. intros v Hv.
      rewrite (Ha eq_refl) in Hv. discriminate.
  - split; [|reflexivity]. intros _. split; discriminate.
Qed.

(** A job model accepted by the model check is empty or one of [MODELS];
    the empty string is not one of them. *)
Lemma string_or_known (m : option string) :
  Validate.oneOf Cost.MODELS m ->
  (Validate.string_or m "grok-imagine-image" = "grok-imagine-image"
   <-> m = None \/ m = Some "grok-imagine-image").
Proof.
  intros Hm. destruct m as [[|c s]|]; simpl.
  - exfalso. specialize (Hm _ eq_refl). simpl in Hm.
    repeat (destruct Hm as [Hm|Hm]; [discriminate|]). exact Hm.
  - split; [intros ->; now right|intros [H|H]; [discriminate|congruence]].
  - split; [now left|reflexivity].
Qed.

Lemma validateJobConfig_returns (job : BatchJobConfig) (index : nat) :
  Validate.validateJobConfig job index = None <-> Validate.jobInBounds job.
Proof.
  unfold Validate.validateJobConfig.
  rewrite !andThen_returns, throwIf_returns, blank_prompt_returns,
    (notIncluded_returns Cost.MODELS (model job)),
    (notIncluded_returns Validate.RESOLUTIONS (resolution job)),
    outOfRange_returns, editRules_return.
  cbv zeta.
  rewrite (notIncluded_returns _ (aspect_ratio job)
             (fun a => Validate.JobError (index + 1)
                (Validate.InvalidAspectRatio a
                   (Validate.string_or (model job) "grok-imagine-image")))).
  split.
  - intros (Hp & Hm & Ha & Hr & Hn & He1 & He2).
    constructor; auto.
    intros He. now apply string_or_known; auto.
  - intros [Hp Hm Ha Hr Hn He1 He2].
    do 5 (split; [assumption|]). split; [|assumption].
    intros He. apply string_or_known; auto.
Qed.

Lemma forEachJob_returns (js : list BatchJobConfig) (index : nat) :
  Validate.forEachJob js index = None <-> Forall Validate.jobInBounds js.
Proof.
  revert index. induction js as [|job js IH]; intros index; simpl.
  - split; [constructor|reflexivity].
  - rewrite andThen_returns, validateJobConfig_returns, IH. split.
    + intros [H1 H2]. now constructor.
    + intros H. inversion H. now split.
Qed.

Lemma validateRetryPolicy_returns (p : RetryPolicy) :
  Validate.validateRetryPolicy p = None <-> Validate.policyInBounds p.
Proof.
  unfold Validate.validateRetryPolicy.
  rewrite andThen_returns, !outOfRange_returns. split.
  - intros [H1 H2]. now constructor.
  - intros [H1 H2]. now split.
Qed.

Lemma validateBatchConfig_returns (config : BatchConfig) :
  Validate.validateBatchConfig config = None <-> Validate.configInBounds config.
Proof.
  unfold Validate.validateBatchConfig.
  rewrite !andThen_returns, !throwIf_returns, forEachJob_returns,
    !outOfRange_returns, !notIncluded_returns, whenDefined_returns,
    Nat.eqb_neq, Nat.ltb_ge.
  split.
  - intros (H0 & H100 & Hj & Hc & Ht & Hp & Hm & Hr & Ha).
    constructor; auto; [lia|].
    intros p Hpol. now apply validateRetryPolicy_returns, Hp.
  - intros [Hlen Hj Hc Ht Hp Hm Hr Ha].
    split; [lia|]. split; [lia|]. do 3 (split; [assumption|]).
    split; [|now repeat split].
    intros p Hpol. now apply validateRetryPolicy_returns, Hp.
Qed.

Lemma andThen_throws (a b : Validate.Checked) (e : Validate.BatchConfigError) :
  Validate.andThen a b = Some e -> a = Some e \/ (a = None /\ b = Some e).
Proof. destruct a; simpl; intros H; [now left|now right]. Qed.

Lemma throwIf_throws (c : bool) (e' e : Validate.BatchConfigError) :
  Validate.throwIf c e' = Some e -> e = e'.
Proof. destruct c; simpl; congruence. Qed.

Lemma whenDefined_throws A (x : option A) (body : A -> Validate.Checked) e :
  Validate.whenDefined x body = Some e ->
  exists v, x = Some v /\ body v = Some e.
Proof. destruct x as [v|]; simpl; [now exists v|discriminate]. Qed.

(** Every error of [validateJobConfig] opens with the number of the job. *)
Lemma validateJobConfig_throws (job : BatchJobConfig) (index : nat) e :
  Validate.validateJobConfig job index = Some e ->
  exists issue, e = Validate.JobError (index + 1) issue.
Proof.
  unfold Validate.validateJobConfig. intros H.
  repeat (apply andThen_throws in H; destruct H as [H|[_ H]]);
    try (apply whenDefined_throws in H; destruct H as [v [_ H]]);
    try (apply throwIf_throws in H; eauto; fail).
  destruct (Executor.isEditJob job); [|discriminate].
  apply andThen_throws in H; destruct H as [H|[_ H]].
  - apply throwIf_throws in H; eauto.
  - apply whenDefined_throws in H; destruct H as [v [_ [= <-]]]; eauto.
Qed.

(** [forEach] stops at the first job that is refused. *)
Lemma forEachJob_throws (js : list BatchJobConfig) (index : nat) e :
  Validate.forEachJob js index = Some e ->
  exists i job,
    nth_error js i = Some job
    /\ Validate.validateJobConfig job (index + i) = Some e
    /\ forall i' job', (i' < i)%nat -> nth_error js i' = Some job' ->
                       Validate.jobInBounds job'.
Proof.
  revert index. induction js as [|job js IH]; intros index; simpl;
    [discriminate|].
  intros H. apply andThen_throws in H. destruct H as [H|[H0 H]].
  - exists 0%nat, job. rewrite Nat.add_0_r.
    split; [reflexivity|]. split; [exact H|]. intros i' job' Hlt. lia.
  - destruct (IH _ H) as (i & job' & Hn & Hv & Hb).
    exists (S i), job'. split; [exact Hn|]. split.
    + now replace (index + S i)%nat with (S index + i)%nat by lia.
    + intros [|i'] j Hlt Hj; simpl in Hj.
      * injection Hj as <-. now apply (validateJobConfig_returns job index).
      * apply (Hb i'); [lia|exact Hj].
Qed.

Lemma validateBatchConfig_job_error (config : BatchConfig) number issue :
  Validate.validateBatchConfig config
  = Some (Validate.JobError number issue) ->
  (1 <= List.length (jobs config) <= 100)%nat
  /\ Validate.forEachJob (jobs config) 0
     = Some (Validate.JobError number issue).
Proof.
  unfold Validate.validateBatchConfig. intros H.
  apply andThen_throws in H. destruct H as [H|[H0 H]];
    [apply throwIf_throws in H; discriminate|].
  apply andThen_throws in H. destruct H as [H|[H100 H]];
    [apply throwIf_throws in H; discriminate|].
  apply throwIf_returns in H0. apply throwIf_returns in H100.
  apply Nat.eqb_neq in H0. apply Nat.ltb_ge in H100.
  split; [lia|].
  apply andThen_throws in H. destruct H as [H|[_ H]]; [exact H|].
  exfalso.
  repeat (apply andThen_throws in H; destruct H as [H|[_ H]]);
    try (apply whenDefined_throws in H; destruct H as [v [_ H]]);
    try (apply throwIf_throws in H; discriminate).
  unfold Validate.validateRetryPolicy in H.
  apply andThen_throws in H; destruct H as [H|[_ H]];
    apply whenDefined_throws in H; destruct H as [v' [_ H]];
    apply throwIf_throws in H; discriminate.
Qed.

(** *** What an accepted configuration gives the estimator *)

Lemma oneOf_knownModel (m : option string) :
  Validate.oneOf Cost.MODELS m -> Cost.knownModel m = true.
Proof.
  intros H. destruct m as [m|]; [|reflexivity]. simpl.
  apply (arrayIncludes_In Cost.MODELS m). now apply H.
Qed.

Lemma inBounds_validModels (config : BatchConfig) :
  Validate.configInBounds config -> Cost.validModels config = true.
Proof.
  intros [_ Hj _ _ _ Hm _ _]. unfold Cost.validModels.
  apply andb_true_iff. split; [|now apply oneOf_knownModel].
  apply forallb_forall. intros job Hin.
  rewrite Forall_forall in Hj. apply oneOf_knownModel.
  now destruct (Hj job Hin).
Qed.

Lemma inBounds_imageCount (job : BatchJobConfig) :
  Validate.jobInBounds job -> 1 <= Cost.imageCount job <= 10.
Proof.
  intros [_ _ _ _ Hn _ _]. unfold Cost.imageCount, num_or.
  destruct (n job) as [v|]; [|lia].
  specialize (Hn v eq_refl). destruct (Z.eqb_spec v 0); lia.
Qed.

Lemma sumZ_between (lo hi : Z) (l : list Z) :
  Forall (fun x => lo <= x <= hi) l ->
  lo * Z.of_nat (List.length l) <= Cost.sumZ l <= hi * Z.of_nat (List.length l).
Proof.
  induction 1 as [|x l Hx _ IH]; [simpl; lia|].
  change (Cost.sumZ (x :: l)) with (x + Cost.sumZ l).
  change (List.length (x :: l)) with (S (List.length l)). lia.
Qed.

Lemma inBounds_totalImages (config : BatchConfig) :
  Forall Validate.jobInBounds (jobs config) ->
  Z.of_nat (List.length (jobs config))
  <= Cost.sumZ (map Cost.imageCount (jobs config))
  <= 10 * Z.of_nat (List.length (jobs config)).
Proof.
  intros Hj.
  pose proof (@sumZ_between 1 10 (map Cost.imageCount (jobs config))) as H.
  rewrite length_map in H. 
  assert (Hall : Forall (fun x => 1 <= x <= 10) (map Cost.imageCount (jobs config))).
  { apply Forall_map. eapply Forall_impl; [|exact Hj].
    intros job. apply inBounds_imageCount. }
  specialize (H Hall). lia.
Qed.

(** X1: [validateBatchConfig] returns without throwing exactly for the
    configurations within the documented bounds: 1 to 100 jobs, each with
    a prompt that is not blank, a known model, an aspect ratio of the list
    of its own model, a known resolution and 1 to 10 images, an edit job
    moreover without aspect ratio and with no other model than
    grok-imagine-image; 1 to 10 concurrent jobs, a timeout of one second
    to one hour, 0 to 5 retries spaced by 100 ms to one minute, and known
    defaults. *)
Theorem X1_validation_accepts_exactly_the_bounds (config : BatchConfig) :
  Validate.validateBatchConfig config = None
  <-> Validate.configInBounds config.
Proof. apply validateBatchConfig_returns. Qed.

(** X2: when [validateBatchConfig] throws a job error, the number it
    reports is that of the first job out of bounds: the job exists, it is
    the one [validateJobConfig] refuses with this very error, every job
    before it is within bounds, and the batch holds 1 to 100 jobs. *)
Theorem X2_first_refused_job_is_reported (config : BatchConfig)
        (number : nat) (issue : Validate.JobIssue) :
  Validate.validateBatchConfig config
  = Some (Validate.JobError number issue) ->
  (1 <= number <= List.length (jobs config))%nat
  /\ (List.length (jobs config) <= 100)%nat
  /\ exists job,
      nth_error (jobs config) (number - 1) = Some job
      /\ Validate.validateJobConfig job (number - 1)
         = Some (Validate.JobError number issue)
      /\ ~ Validate.jobInBounds job
      /\ forall i earlier,
          (i < number - 1)%nat ->
          nth_error (jobs config) i = Some earlier ->
          Validate.jobInBounds earlier.
Proof.
  intros H. apply validateBatchConfig_job_error in H.
  destruct H as [Hlen H].
  apply forEachJob_throws in H. destruct H as (i & job & Hn & Hv & Hb).
  simpl in Hv.
  destruct (validateJobConfig_throws _ _ Hv) as [issue' [= -> <-]].
  assert (Hi : (i < List.length (jobs config))%nat)
    by (apply nth_error_Some; congruence).
  replace (i + 1 - 1)%nat with i by lia.
  split; [lia|]. split; [lia|].
  exists job. split; [exact Hn|]. split; [exact Hv|]. split; [|exact Hb].
  intros Hin. apply (validateJobConfig_returns job i) in Hin. congruence.
Qed.

Lemma X2_first_refused_job_is_reported_witness :
  nth_error
    (jobs (Sample.batch [Sample.cat; Sample.generateJob "a dog" (Some 11)]
                        None None None)) (2 - 1)
  = Some (Sample.generateJob "a dog" (Some 11))
  /\ ~ Validate.jobInBounds (Sample.generateJob "a dog" (Some 11)).
Proof.
  destruct (@X2_first_refused_job_is_reported
              (Sample.batch [Sample.cat; Sample.generateJob "a dog" (Some 11)]
                            None None None)
              2 Validate.InvalidCount eq_refl)
    as (_ & _ & job & Hn & _ & Hout & _).
  split; [reflexivity|].
  injection Hn as <-. exact Hout.
Defined.

(** X3: for a configuration [validateBatchConfig] accepts, every model
    the estimator prices is one of [MODELS], and the estimate counts at
    most 100 jobs and between one and ten images per job. *)
Theorem X3_accepted_configuration_estimate_bounds (config : BatchConfig) :
  Validate.validateBatchConfig config = None ->
  let est := Cost.estimateBatchCost config in
  Cost.validModels config = true
  /\ Cost.ordinaryModels config = true
  /\ (1 <= Cost.totalJobs est <= 100)%nat
  /\ Z.of_nat (Cost.totalJobs est) <= Cost.totalImages est
     <= 10 * Z.of_nat (Cost.totalJobs est).
Proof.
  intros H est. apply validateBatchConfig_returns in H.
  pose proof (inBounds_validModels H) as Hv.
  destruct (estimate_totals config) as (Hjobs & Himages & _).
  fold est in Hjobs, Himages. rewrite Hjobs, Himages.
  destruct H as [Hlen Hj _ _ _ _ _ _].
  split; [exact Hv|]. split; [now apply validModels_ordinary|].
  split; [exact Hlen|]. now apply inBounds_totalImages.
Qed.

Lemma X3_accepted_configuration_estimate_bounds_witness :
  Cost.validModels Sample.scenarioBatch = true
  /\ (1 <= Cost.totalJobs (Cost.estimateBatchCost Sample.scenarioBatch) <= 100)%nat.
Proof.
  destruct (@X3_accepted_configuration_estimate_bounds Sample.scenarioBatch
              eq_refl) as (Hv & _ & Hn & _).
  split; [exact Hv|exact Hn].
Defined.

(* ================================================================= *)
(** ** Decimal numerals *)

Lemma to_uint_nonnil (k : nat) : Nat.to_uint k <> Decimal.Nil.
Proof.
  rewrite <- (DecimalNat.Unsigned.of_to k) at 1. rewrite DecimalNat.Unsigned.to_of.
  apply DecimalFacts.unorm_nonnil.
Qed.


Lemma decimal_inj (j k : nat) :
  Scheduler.decimal j = Scheduler.decimal k -> j = k.
Proof.
  unfold Scheduler.decimal. intros H.
  apply DecimalNat.Unsigned.to_uint_inj.
  pose proof (@NilZero.usu _ (to_uint_nonnil j)) as Hj.
  pose proof (@NilZero.usu _ (to_uint_nonnil k)) as Hk.
  rewrite H in Hj. congruence.
Qed.



(* ================================================================= *)
(** ** Command line *)








Lemma inRange_flags (p q : Cli.Parsed) :
  Cli.maxConcurrent (Cli.options q) = Cli.maxConcurrent (Cli.options p) ->
  Cli.timeout (Cli.options q) = Cli.timeout (Cli.options p) ->
  Cli.format (Cli.options q) = Cli.format (Cli.options p) ->
  Cli.optionsInRange (Cli.options p) -> Cli.optionsInRange (Cli.options q).
Proof. unfold Cli.optionsInRange. now intros -> -> ->. Qed.

Lemma inRange_withFormat (f : Cli.Format) (p : Cli.Parsed) :
  Cli.optionsInRange (Cli.options p) ->
  Cli.optionsInRange (Cli.options (Cli.withFormat f p)).
Proof.
  intros (Hc & Ht & _). split; [exact Hc|]. split; [exact Ht|].
  destruct f; [now left|now right].
Qed.

Lemma inRange_withTimeout (t : Z) (p : Cli.Parsed) :
  (t <? 1000) = false ->
  Cli.optionsInRange (Cli.options p) ->
  Cli.optionsInRange (Cli.options (Cli.withTimeout t p)).
Proof.
  intros Hlt (Hc & _ & Hf). split; [exact Hc|]. split; [|exact Hf].
  cbn. intros t' [= <-]. lia.
Qed.

Lemma inRange_withMaxConcurrent (c : Z) (p : Cli.Parsed) :
  (c <? 1) || (10 <? c) = false ->
  Cli.optionsInRange (Cli.options p) ->
  Cli.optionsInRange (Cli.options (Cli.withMaxConcurrent c p)).
Proof.
  intros Hr (_ & Ht & Hf). split; [|split; [exact Ht|exact Hf]].
  cbn. intros c' [= <-]. apply orb_false_iff in Hr. lia.
Qed.

Lemma parseLoop_inRange (k : nat) (args : list string) (p r : Cli.Parsed) :
  (List.length args <= k)%nat ->
  Cli.parseLoop args p = inr r ->
  Cli.optionsInRange (Cli.options p) ->
  Cli.optionsInRange (Cli.options r).
Proof.
  revert args p. induction k as [|k IH]; intros args p Hlen H Hinv;
    destruct args as [|arg rest]; simpl in Hlen; try lia;
    try (injection H as <-; exact Hinv).
  cbn [Cli.parseLoop] in H.
  repeat match type of H with
         | (if ?c then _ else _) = _ => destruct c eqn:?
         | match ?l with [] => _ | _ :: _ => _ end = _ =>
             destruct l as [|v rest'] eqn:?
         | match ?o with Some _ => _ | None => _ end = _ =>
             destruct o as [x|] eqn:?
         | inl _ = inr _ => discriminate H
         end;
    (eapply IH; [|exact H|]; [simpl in Hlen |- *; lia|]);
    first [ now apply inRange_withTimeout
          | now apply inRange_withMaxConcurrent
          | now apply inRange_withFormat
          | now apply (inRange_flags p) ].
Qed.

Lemma parseArgs_inRange (args : list string) (r : Cli.Parsed) :
  Cli.parseArgs args = inr r -> Cli.optionsInRange (Cli.options r).
Proof.
  intros H. eapply (@parseLoop_inRange (List.length args)); [|exact H|]; [lia|].
  unfold Cli.optionsInRange; cbn. repeat split; try discriminate. now left.
Qed.



(* ================================================================= *)
(** ** Merged configuration *)

Lemma merge_retry (c : BatchConfig) (o : Cli.BatchExecutionOptions)
      (env : Scheduler.Process) :
  let m := Merge.mergeBatchConfig c o env in
  Retry.maxRetries m = Retry.maxRetries c
  /\ Retry.retryDelay m = Retry.retryDelay c
  /\ Retry.retryPatterns m = Retry.retryPatterns c.
Proof.
  unfold Retry.maxRetries, Retry.retryDelay, Retry.retryPatterns,
    Retry.retryPolicy. cbn. unfold Retry.merged_retry_policy.
  destruct (retry_policy c); cbn; repeat split.
Qed.

Lemma merge_effectiveModel (c : BatchConfig) (o : Cli.BatchExecutionOptions)
      (env : Scheduler.Process) (job : BatchJobConfig) :
  Cost.effectiveModel (Merge.mergeBatchConfig c o env) job
  = Cost.effectiveModel c job.
Proof.
  unfold Cost.effectiveModel, JsString.or_else. cbn.
  destruct (JsString.truthy (model job)); [reflexivity|].
  now destruct (default_model c) as [[|a d]|].
Qed.

Lemma countOver_ext (c1 c2 : BatchConfig) (js : list BatchJobConfig) :
  (forall job, Cost.keyOf c1 job = Cost.keyOf c2 job) ->
  Cost.countOver c1 js = Cost.countOver c2 js.
Proof.
  intros H. induction js as [|job js IH] using rev_ind; [reflexivity|].
  now rewrite !countOver_snoc, IH, H.
Qed.

Lemma estimate_ext (c1 c2 : BatchConfig) :
  jobs c1 = jobs c2 ->
  (forall job, Cost.keyOf c1 job = Cost.keyOf c2 job) ->
  Cost.estimateBatchCost c1 = Cost.estimateBatchCost c2.
Proof.
  intros Hj Hk. unfold Cost.estimateBatchCost.
  change (Cost.countJobs c1) with (Cost.countOver c1 (jobs c1)).
  change (Cost.countJobs c2) with (Cost.countOver c2 (jobs c2)).
  now rewrite Hj, (countOver_ext c1 c2 (jobs c2) Hk).
Qed.

Lemma merge_estimate (c : BatchConfig) (o : Cli.BatchExecutionOptions)
      (env : Scheduler.Process) :
  Cost.estimateBatchCost (Merge.mergeBatchConfig c o env)
  = Cost.estimateBatchCost c.
Proof.
  apply estimate_ext; [reflexivity|].
  intros job. unfold Cost.keyOf. now rewrite merge_effectiveModel.
Qed.

Lemma merge_request (c : BatchConfig) (o : Cli.BatchExecutionOptions)
      (env : Scheduler.Process) (job : BatchJobConfig) (path : string) :
  Tools.effective (Executor.request job path (Merge.mergeBatchConfig c o env))
  = Tools.effective (Executor.request job path c).
Proof.
  unfold Executor.request, JsString.or_else. cbn.
  destruct (Executor.isEditJob job); cbn;
    destruct (JsString.truthy (model job));
    destruct (JsString.truthy (resolution job));
    try destruct (JsString.truthy (aspect_ratio job));
    destruct (default_model c); destruct (default_resolution c);
    try destruct (default_aspect_ratio c); reflexivity.
Qed.

Lemma merge_idempotent (c : BatchConfig) (o : Cli.BatchExecutionOptions)
      (env : Scheduler.Process) :
  Merge.mergeBatchConfig (Merge.mergeBatchConfig c o env) o env
  = Merge.mergeBatchConfig c o env.
Proof.
  unfold Merge.mergeBatchConfig, Retry.merged_retry_policy. cbn.
  f_equal.
  - destruct (JsString.truthy (Cli.outputDir o)) eqn:Ho; [reflexivity|].
    destruct (JsString.truthy (output_dir c)) eqn:Hc;
      destruct (JsString.truthy (Scheduler.OUTPUT_DIR env)) eqn:He;
      cbn; rewrite ?Hc, ?He; reflexivity.
  - now destruct (Cli.maxConcurrent o).
  - now destruct (Cli.timeout o).
Qed.

Lemma merge_outputDir (c : BatchConfig) (o : Cli.BatchExecutionOptions)
      (env : Scheduler.Process) :
  Scheduler.outputDir (Merge.mergeBatchConfig c o env) env
  = Validate.string_or (Cli.outputDir o)
      (Validate.string_or (output_dir c)
         (Validate.string_or (Scheduler.OUTPUT_DIR env) (Scheduler.cwd env))).
Proof.
  unfold Scheduler.outputDir, Scheduler.getDefaultOutputDirectory. cbn.
  destruct (Cli.outputDir o) as [[|a d]|];
    destruct (output_dir c) as [[|a' d']|];
    destruct (Scheduler.OUTPUT_DIR env) as [[|a'' d'']|]; reflexivity.
Qed.

(** X5: merging a configuration with the options of the command line
    changes neither the jobs, nor the retry settings the executor reads,
    nor the cost estimate, nor the parameters the image tools see once
    their own defaults are filled in; and merging a second time changes
    nothing. *)
Theorem X5_merge_keeps_jobs_retries_estimate_and_requests
        (c : BatchConfig) (o : Cli.BatchExecutionOptions)
        (env : Scheduler.Process) :
  let m := Merge.mergeBatchConfig c o env in
  jobs m = jobs c
  /\ Retry.maxRetries m = Retry.maxRetries c
  /\ Retry.retryDelay m = Retry.retryDelay c
  /\ Retry.retryPatterns m = Retry.retryPatterns c
  /\ Cost.estimateBatchCost m = Cost.estimateBatchCost c
  /\ (forall job path,
        Tools.effective (Executor.request job path m)
        = Tools.effective (Executor.request job path c))
  /\ Merge.mergeBatchConfig m o env = m.
Proof.
  intros m. destruct (merge_retry c o env) as (H1 & H2 & H3).
  split; [reflexivity|]. do 3 (split; [assumption|]).
  split; [apply merge_estimate|].
  split; [intros job path; apply merge_request|apply merge_idempotent].
Qed.

(** X6: the directory [executeBatch] writes to, for a merged
    configuration, is the first that is set and not empty among the
    option [--output-dir], [output_dir] of the configuration file and the
    environment variable [OUTPUT_DIR]; otherwise the working directory. *)
Theorem X6_output_directory_precedence
        (c : BatchConfig) (o : Cli.BatchExecutionOptions)
        (env : Scheduler.Process) :
  Scheduler.outputDir (Merge.mergeBatchConfig c o env) env
  = Validate.string_or (Cli.outputDir o)
      (Validate.string_or (output_dir c)
         (Validate.string_or (Scheduler.OUTPUT_DIR env) (Scheduler.cwd env))).
Proof. apply merge_outputDir. Qed.

Lemma inBounds_maxRetries (c : BatchConfig) :
  Validate.configInBounds c ->
  0 <= Retry.maxRetries c <= 5 /\ 100 <= Retry.retryDelay c <= 60000.
Proof.
  intros [_ _ _ _ Hp _ _ _].
  unfold Retry.maxRetries, Retry.retryDelay, Retry.retryPolicy.
  destruct (retry_policy c) as [p|]; cbn; [|lia].
  destruct (Hp p eq_refl) as [Hr Hd]. unfold Validate.within in *.
  destruct (max_retries p) as [r|]; destruct (retry_delay_ms p) as [d|]; cbn;
    try specialize (Hr _ eq_refl); try specialize (Hd _ eq_refl); lia.
Qed.

Lemma merge_inBounds (c : BatchConfig) (o : Cli.BatchExecutionOptions)
      (env : Scheduler.Process) :
  Validate.configInBounds c ->
  Cli.optionsInRange o ->
  (forall t, Cli.timeout o = Some t -> t <= 3600000) ->
  Validate.configInBounds (Merge.mergeBatchConfig c o env).
Proof.
  intros [Hlen Hj Hc Ht Hp Hm Hr Ha] (Hoc & Hot & _) Hmax.
  unfold Validate.within, Validate.oneOf in *.
  constructor; cbn; auto.
  - intros v [= <-]. destruct (Cli.maxConcurrent o) as [x|] eqn:E; cbn.
    + now apply Hoc.
    + destruct (max_concurrent c) as [y|]; cbn; [now apply Hc|lia].
  - intros v [= <-]. destruct (Cli.timeout o) as [x|] eqn:E; cbn.
    + specialize (Hot x eq_refl). specialize (Hmax x eq_refl). lia.
    + destruct (timeout c) as [y|]; cbn; [now apply Ht|lia].
  - intros p [= <-]. unfold Retry.merged_retry_policy.
    destruct (retry_policy c) as [q|]; cbn; [now apply Hp|].
    constructor; intros v [= <-]; lia.
  - intros v [= <-]. destruct (default_model c) as [x|]; cbn;
      [now apply Hm|now left].
  - intros v [= <-]. destruct (default_resolution c) as [x|]; cbn;
      [now apply Hr|now left].
  - intros v [= <-]. destruct (default_aspect_ratio c) as [x|]; cbn;
      [now apply Ha|now left].
Qed.

(** X7: for the arguments [parseArgs] accepts and a configuration
    [validateBatchConfig] accepts, the merged configuration gives
    [executeBatch] between 1 and 10 concurrent jobs and a timeout of one
    second at least, and gives the executor 0 to 5 retries spaced by 100 ms
    to one minute.  The timeout is at most one hour when it comes from the
    file; the option [--timeout] has no upper limit, and the merged
    configuration is one [validateBatchConfig] accepts again when the
    option stays within the hour. *)
Theorem X7_validated_batch_runs_within_limits
        (args : list string) (parsed : Cli.Parsed) (c : BatchConfig)
        (env : Scheduler.Process) :
  Cli.parseArgs args = inr parsed ->
  Validate.validateBatchConfig c = None ->
  let m := Merge.mergeBatchConfig c (Cli.options parsed) env in
  1 <= num_or (max_concurrent m) 2 <= 10
  /\ 1000 <= num_or (timeout m) 600000
  /\ (Cli.timeout (Cli.options parsed) = None ->
      num_or (timeout m) 600000 <= 3600000)
  /\ 0 <= Retry.maxRetries m <= 5
  /\ 100 <= Retry.retryDelay m <= 60000
  /\ ((forall t, Cli.timeout (Cli.options parsed) = Some t -> t <= 3600000) ->
      Validate.validateBatchConfig m = None).
Proof.
  intros Hargs Hc m.
  apply parseArgs_inRange in Hargs. apply validateBatchConfig_returns in Hc.
  destruct (merge_retry c (Cli.options parsed) env) as (Hmr & Hmd & _).
  destruct (inBounds_maxRetries Hc) as [Hr Hd].
  fold m in Hmr, Hmd. rewrite <- Hmr in Hr. rewrite <- Hmd in Hd.
  pose proof Hargs as (Hoc & Hot & _).
  pose proof Hc as [_ _ Hcc Hct _ _ _ _].
  unfold Validate.within in *.
  assert (Hmc : 1 <= num_or (max_concurrent m) 2 <= 10).
  { cbn. destruct (Cli.maxConcurrent (Cli.options parsed)) as [x|]; cbn.
    - specialize (Hoc x eq_refl). destruct (Z.eqb_spec x 0); lia.
    - destruct (max_concurrent c) as [y|]; cbn; [|lia].
      specialize (Hcc y eq_refl). destruct (Z.eqb_spec y 0); lia. }
  assert (Hmt : 1000 <= num_or (timeout m) 600000).
  { cbn. destruct (Cli.timeout (Cli.options parsed)) as [x|]; cbn.
    - specialize (Hot x eq_refl). destruct (Z.eqb_spec x 0); lia.
    - destruct (timeout c) as [y|]; cbn; [|lia].
      specialize (Hct y eq_refl). destruct (Z.eqb_spec y 0); lia. }
  split; [exact Hmc|]. split; [exact Hmt|]. split; [|split; [exact Hr|split; [exact Hd|]]].
  - intros Hnone. cbn. rewrite Hnone.
    destruct (timeout c) as [y|]; cbn; [|lia].
    specialize (Hct y eq_refl). destruct (Z.eqb_spec y 0); lia.
  - intros Hmax. apply validateBatchConfig_returns.
    now apply merge_inBounds.
Qed.

Lemma X7_validated_batch_runs_within_limits_witness :
  let m := Merge.mergeBatchConfig Sample.scenarioBatch
             {| Cli.outputDir := None; Cli.format := Some Cli.Text;
                Cli.timeout := Some 7200000; Cli.maxConcurrent := Some 4;
                Cli.estimateOnly := None; Cli.allowAnyPath := None |}
             Sample.process in
  1 <= num_or (max_concurrent m) 2 <= 10
  /\ 1000 <= num_or (timeout m) 600000.
Proof.
  destruct (@X7_validated_batch_runs_within_limits
              ["batch.json"; "--timeout"; "7200000"; "--max-concurrent"; "4"]
              _ Sample.scenarioBatch Sample.process eq_refl eq_refl)
    as (H1 & H2 & _).
  split; [exact H1|exact H2].
Defined.

(* ================================================================= *)
(** ** Entry point of the command line *)

Lemma countStatus_zero (st : Status) (l : list BatchJobResult) :
  Scheduler.countStatus st l = 0%nat
  <-> Forall (fun r => Result.status r <> st) l.
Proof.
  unfold Scheduler.countStatus. induction l as [|r l IH]; simpl.
  - split; [constructor|reflexivity].
  - destruct (Status_eqb (Result.status r) st) eqn:E; simpl.
    + split; [discriminate|]. intros H. inversion H as [|? ? Hr _]; subst.
      destruct (Result.status r), st; simpl in E; congruence.
    + rewrite IH. split.
      * intros H. constructor; [|exact H].
        intros Heq. rewrite Heq in E. destruct st; discriminate.
      * intros H. now inversion H.
Qed.

Lemma all_completed (l : list BatchJobResult) :
  (Scheduler.countStatus Failed l = 0%nat
   /\ Scheduler.countStatus Cancelled l = 0%nat)
  <-> Forall (fun r => Result.status r = Completed) l.
Proof.
  rewrite !countStatus_zero, !Forall_forall. split.
  - intros [Hf Hc] r Hin. specialize (Hf r Hin). specialize (Hc r Hin).
    destruct (Result.status r); congruence.
  - intros H. split; intros r Hin; rewrite (H r Hin); discriminate.
Qed.

Lemma exitCode_zero (result : Scheduler.BatchResult) :
  CliMain.exitCode result = 0
  <-> Scheduler.failed result = 0%nat /\ Scheduler.cancelled result = 0%nat.
Proof.
  unfold CliMain.exitCode.
  destruct (Scheduler.failed result), (Scheduler.cancelled result); simpl;
    split; try tauto; try discriminate; intros [? ?]; discriminate.
Qed.

Lemma report_exitCode config s startTime endTime :
  Scheduler.accounted (List.length (jobs config)) s ->
  let rep := Scheduler.report config s startTime endTime in
  (CliMain.exitCode rep = 0
   <-> Forall (fun r => Result.status r = Completed) (Scheduler.results rep))
  /\ (CliMain.exitCode rep = 0
      <-> Scheduler.succeeded rep = Scheduler.total rep).
Proof.
  intros Hacc rep.
  pose proof (@report_indices config s startTime endTime Hacc) as Hidx.
  fold rep in Hidx.
  assert (Hlen : List.length (Scheduler.results rep) = Scheduler.total rep).
  { rewrite <- (length_map Result.index), Hidx, length_seq. reflexivity. }
  pose proof (countStatus_total (Scheduler.results rep)) as Htot.
  rewrite Hlen in Htot.
  rewrite exitCode_zero. split.
  - apply all_completed.
  - change (Scheduler.failed rep)
      with (Scheduler.countStatus Failed (Scheduler.results rep)).
    change (Scheduler.cancelled rep)
      with (Scheduler.countStatus Cancelled (Scheduler.results rep)).
    change (Scheduler.succeeded rep)
      with (Scheduler.countStatus Completed (Scheduler.results rep)).
    lia.
Qed.

(** X8: a run of [main] exits with status 0 in four cases only: it
    printed the version, it printed the help because the help was asked
    for, it printed an estimate, or it executed the batch and every job of
    the report is completed (which is to say that as many jobs succeeded
    as the batch holds).  A usage error, a missing configuration path or
    API key, a configuration that cannot be loaded or is refused, an
    output path that is refused, and a report with a failed or cancelled
    job all exit with status 1. *)
Theorem X8_exit_status_zero_iff_success
        (args : list string) (apiKey : option string)
        (load : string -> option BatchConfig)
        (answers : nat -> nat -> Answer) (P : Scheduler.PathLib)
        (env : Scheduler.Process) (startTime : Z)
        (out : CliMain.Output) (code : Z) :
  CliMain.main args apiKey load answers P env startTime = (out, code) ->
  (code = 0 \/ code = 1)
  /\ (code = 0
      <-> match out with
          | CliMain.Version | CliMain.Estimate _ _ => True
          | CliMain.Help =>
              exists parsed,
                Cli.parseArgs args = inr parsed
                /\ Cli.showHelp parsed = true
          | CliMain.Report _ result =>
              Forall (fun r => Result.status r = Completed)
                     (Scheduler.results result)
              /\ Scheduler.succeeded result = Scheduler.total result
          | _ => False
          end).
Proof.
  unfold CliMain.main. intros H.
  destruct (Cli.parseArgs args) as [e|parsed] eqn:Hargs;
    [injection H as <- <-; split; [now right|split; [discriminate|tauto]]|].
  destruct (Cli.showVersion parsed);
    [injection H as <- <-; split; [now left|tauto]|].
  destruct (Cli.showHelp parsed || negb (JsString.truthy (Cli.configPath parsed)))
    eqn:Hhelp.
  { injection H as <- <-. destruct (Cli.showHelp parsed) eqn:Hh.
    - split; [now left|]. split; [|reflexivity]. intros _. now exists parsed.
    - split; [now right|]. split; [discriminate|].
      intros [p [[= <-] Hp]]. congruence. }
  destruct (negb (JsString.truthy apiKey));
    [injection H as <- <-; split; [now right|split; [discriminate|tauto]]|].
  destruct (load _) as [config|];
    [|injection H as <- <-; split; [now right|split; [discriminate|tauto]]].
  destruct (Validate.validateBatchConfig config);
    [injection H as <- <-; split; [now right|split; [discriminate|tauto]]|].
  cbv zeta in H.
  destruct (nullish (Cli.estimateOnly (Cli.options parsed)) false);
    [injection H as <- <-; split; [now left|tauto]|].
  destruct (Scheduler.executeBatch _ _ _ _ _ _) as [result|] eqn:Hrun;
    [|injection H as <- <-; split; [now right|split; [discriminate|tauto]]].
  injection H as <- <-.
  destruct (executeBatch_report _ _ _ _ _ _ Hrun)
    as (ts & s & endTime & timedOut & _ & _ & -> & Hacc).
  destruct (@report_exitCode _ _ startTime endTime Hacc) as [Hall Hsucc].
  split.
  - unfold CliMain.exitCode.
    match goal with
    | |- context [if ?c then 1 else 0] => destruct c
    end; [now right|now left].
  - rewrite <- Hall, <- Hsucc. tauto.
Qed.

Lemma X8_exit_status_zero_iff_success_witness :
  let run :=
    CliMain.main ["batch.json"; "--timeout"; "1000"] (Some "xai-key")
      (fun _ => Some Sample.threeCats) Sample.slowThird Sample.paths
      Sample.process 0 in
  snd run = 0 \/ snd run = 1.
Proof.
  intros run.
  exact (proj1 (@X8_exit_status_zero_iff_success
                  ["batch.json"; "--timeout"; "1000"] (Some "xai-key")
                  (fun _ => Some Sample.threeCats) Sample.slowThird
                  Sample.paths Sample.process 0 (fst run) (snd run)
                  (surjective_pairing run))).
Defined.

(* ================================================================= *)
(** ** Output paths *)

Lemma string_app_inv_head (h a b : string) : h ++ a = h ++ b -> a = b.
Proof.
  induction h as [|c h IH]; simpl; [auto|]. intros [= H]. now apply IH.
Qed.

Lemma string_app_assoc (a b c : string) : (a ++ b) ++ c = a ++ b ++ c.
Proof. induction a as [|x a IH]; simpl; [reflexivity|]. now rewrite IH. Qed.





(** The default file name of the job at [index]. *)
Lemma resolveOutputPath_default P job index dir allowAny :
  JsString.truthy (output_path job) = false ->
  Scheduler.resolveOutputPath P job index dir allowAny
  = Some (Scheduler.join P dir
            ((if Executor.isEditJob job then "edited" else "generated")
             ++ "_" ++ Scheduler.decimal (index + 1) ++ ".jpg")).
Proof.
  unfold Scheduler.resolveOutputPath.
  now destruct (output_path job) as [[|a p]|].
Qed.

(** X10: two jobs without output path that sit at different positions
    of the batch, or of which one edits and the other generates, never
    share a default file: the names [generated_<k>.jpg] and
    [edited_<k>.jpg] given to [path.join] tell the position and the kind
    of the job, provided [path.join] maps different names in a directory to
    different paths. *)
Theorem X10_default_output_paths_are_distinct
        P dir allowAny (job1 job2 : BatchJobConfig) (i j : nat) :
  (forall a b, Scheduler.join P dir a = Scheduler.join P dir b -> a = b) ->
  JsString.truthy (output_path job1) = false ->
  JsString.truthy (output_path job2) = false ->
  i <> j \/ Executor.isEditJob job1 <> Executor.isEditJob job2 ->
  Scheduler.resolveOutputPath P job1 i dir allowAny
  <> Scheduler.resolveOutputPath P job2 j dir allowAny.
Proof.
  intros Hjoin H1 H2 Hdiff.
  rewrite (resolveOutputPath_default P job1 i dir allowAny H1),
    (resolveOutputPath_default P job2 j dir allowAny H2).
  intros [= H]. apply Hjoin in H.
  destruct (Executor.isEditJob job1), (Executor.isEditJob job2);
    try discriminate H.
  - change ("edited" ++ "_" ++ Scheduler.decimal (i + 1) ++ ".jpg")
      with ("edited_" ++ Scheduler.decimal (i + 1) ++ ".jpg") in H.
    change ("edited" ++ "_" ++ Scheduler.decimal (j + 1) ++ ".jpg")
      with ("edited_" ++ Scheduler.decimal (j + 1) ++ ".jpg") in H.
    apply (string_app_inv_head "edited_"), string_app_inv_tail, decimal_inj
      in H. destruct Hdiff as [Hd|Hd]; [lia|now elim Hd].
  - change ("generated" ++ "_" ++ Scheduler.decimal (i + 1) ++ ".jpg")
      with ("generated_" ++ Scheduler.decimal (i + 1) ++ ".jpg") in H.
    change ("generated" ++ "_" ++ Scheduler.decimal (j + 1) ++ ".jpg")
      with ("generated_" ++ Scheduler.decimal (j + 1) ++ ".jpg") in H.
    apply (string_app_inv_head "generated_"), string_app_inv_tail, decimal_inj
      in H. destruct Hdiff as [Hd|Hd]; [lia|now elim Hd].
Qed.

Lemma X10_default_output_paths_are_distinct_witness :
  Scheduler.resolveOutputPath Sample.paths Sample.cat 0 "/out" false
  <> Scheduler.resolveOutputPath Sample.paths Sample.cat 1 "/out" false.
Proof.
  apply (@X10_default_output_paths_are_distinct Sample.paths "/out" false
           Sample.cat Sample.cat 0 1).
  - intros a b H. exact (string_app_inv_head "/out/" a b H).
  - reflexivity.
  - reflexivity.
  - left. discriminate.
Defined.

(* ================================================================= *)
(** ** The image tools *)

Lemma inBounds_prompt (job : BatchJobConfig) :
  Validate.jobInBounds job ->
  negb (JsString.truthy (Some (prompt job)))
  || (String.length (JsString.trim (prompt job)) =? 0)%nat = false.
Proof. intros [Hp _ _ _ _ _ _]. now apply blank_prompt_returns. Qed.

Lemma inBounds_count (job : BatchJobConfig) :
  Validate.jobInBounds job ->
  (num_or (n job) 1 <? 1) || (10 <? num_or (n job) 1) = false.
Proof.
  intros Hj. pose proof (inBounds_imageCount Hj) as H.
  unfold Cost.imageCount in H. apply orb_false_iff. lia.
Qed.

(** A field that may only hold a value of [l], with a default that may
    only hold a value of [l], and [d], which is one: what the tool reads
    is a value of [l]. *)
Lemma or_else_oneOf (l : list string) (a b : option string) (d : string) :
  Validate.oneOf l a -> Validate.oneOf l b -> In d l ->
  Validate.arrayIncludes l (nullish (JsString.or_else a b) d) = true.
Proof.
  intros Ha Hb Hd. apply arrayIncludes_In. unfold JsString.or_else.
  destruct (JsString.truthy a).
  - destruct a as [x|]; cbn; [now apply Ha|exact Hd].
  - destruct b as [x|]; cbn; [now apply Hb|exact Hd].
Qed.

Lemma ratios_included (a : string) :
  In a Validate.GROK_IMAGINE_ASPECT_RATIOS -> In a Validate.GROK2_ASPECT_RATIOS.
Proof. simpl. intuition. Qed.

Lemma inBounds_ratio (job : BatchJobConfig) :
  Validate.jobInBounds job ->
  Validate.oneOf Validate.GROK2_ASPECT_RATIOS (aspect_ratio job).
Proof.
  intros [_ _ Ha _ _ _ _] v Hv. specialize (Ha v Hv).
  destruct (String.eqb _ _); [now apply ratios_included|exact Ha].
Qed.

(** X11: for a configuration [validateBatchConfig] accepts, the
    parameters [executeJob] passes to [generateImage] always pass the
    checks of the tool.  Those it passes to [editImage] pass them unless
    the job names no model while [default_model] is another model than
    grok-imagine-image, which the validation of the batch does not look
    at: the tool then refuses every attempt of the job. *)
Theorem X11_validated_jobs_and_tool_checks
        (config : BatchConfig) (job : BatchJobConfig) (outputPath : string) :
  Validate.validateBatchConfig config = None ->
  In job (jobs config) ->
  Tools.validateParams (Executor.request job outputPath config)
  = if Executor.isEditJob job then
      match model job, default_model config with
      | None, Some m =>
          if String.eqb m "grok-imagine-image" then None
          else Some (Tools.EditingUnsupported m)
      | _, _ => None
      end
    else None.
Proof.
  intros Hc Hin. apply validateBatchConfig_returns in Hc.
  destruct Hc as [_ Hj _ _ _ Hdm Hdr Hda].
  rewrite Forall_forall in Hj. specialize (Hj job Hin).
  pose proof (inBounds_prompt Hj) as Hp.
  pose proof (inBounds_count Hj) as Hn.
  pose proof (inBounds_ratio Hj) as Hratio.
  pose proof Hj as [_ Hm _ Hr _ Hem Hea].
  assert (Hmodel : Validate.arrayIncludes Cost.MODELS
                     (nullish (JsString.or_else (model job)
                                                (default_model config))
                              "grok-imagine-image") = true)
    by (apply or_else_oneOf; auto; now left).
  assert (Hres : Validate.arrayIncludes Validate.RESOLUTIONS
                   (nullish (JsString.or_else (resolution job)
                                              (default_resolution config))
                            "1k") = true)
    by (apply or_else_oneOf; auto; now left).
  assert (Hasp : Validate.arrayIncludes Tools.ASPECT_RATIOS
                   (nullish (JsString.or_else (aspect_ratio job)
                                              (default_aspect_ratio config))
                            "1:1") = true)
    by (apply or_else_oneOf; auto; now left).
  unfold Executor.request.
  destruct (Executor.isEditJob job) eqn:He; cbn [Tools.validateParams].
  - assert (Hsrc : negb (JsString.truthy (image_path job))
                   && negb (JsString.truthy (image_base64 job))
                   && negb (JsString.truthy (image_url job)) = false).
    { unfold Executor.isEditJob in He.
      destruct (JsString.truthy (image_path job)),
        (JsString.truthy (image_base64 job)),
        (JsString.truthy (image_url job)); simpl in *; congruence. }
    rewrite Hsrc, Hp, Hmodel, Hn, Hres. cbn.
    destruct (Hem eq_refl) as [Hnone|Hgrok].
    + rewrite Hnone. unfold JsString.or_else. cbn.
      destruct (default_model config) as [m|]; cbn; [|reflexivity].
      now destruct (String.eqb m "grok-imagine-image").
    + rewrite Hgrok. reflexivity.
  - rewrite Hp, Hmodel, Hn, Hasp, Hres. reflexivity.
Qed.

Lemma X11_validated_jobs_and_tool_checks_witness :
  let config :=
    {| jobs := [Sample.editJob "add a hat" "cat.jpg" None];
       output_dir := None; max_concurrent := None; timeout := None;
       retry_policy := None; default_model := Some "grok-2-image";
       default_resolution := None; default_aspect_ratio := None |} in
  Validate.validateBatchConfig config = None
  /\ Tools.validateParams
       (Executor.request (Sample.editJob "add a hat" "cat.jpg" None)
                         "/out/edited_1.jpg" config)
     = Some (Tools.EditingUnsupported "grok-2-image").
Proof.
  intros config. split; [reflexivity|].
  exact (@X11_validated_jobs_and_tool_checks config
           (Sample.editJob "add a hat" "cat.jpg" None) "/out/edited_1.jpg"
           eq_refl (or_introl eq_refl)).
Defined.

(* ================================================================= *)
(** ** Files of a request for several images *)

Lemma split_dot_nonempty (s : string) : Tools.split_dot s <> [].
Proof.
  induction s as [|c s IH]; simpl; [discriminate|].
  destruct (Ascii.eqb c "."); [discriminate|].
  destruct (Tools.split_dot s); [now elim IH|discriminate].
Qed.

Lemma join_dot_cons (a : string) (l : list string) :
  l <> [] -> Tools.join_dot (a :: l) = a ++ "." ++ Tools.join_dot l.
Proof. destruct l; [now intros H; elim H|reflexivity]. Qed.

Lemma join_split_dot (s : string) : Tools.join_dot (Tools.split_dot s) = s.
Proof.
  induction s as [|c s IH]; simpl; [reflexivity|].
  pose proof (split_dot_nonempty s) as Hne.
  destruct (Ascii.eqb_spec c ".") as [->|Hc].
  - rewrite join_dot_cons by exact Hne. now rewrite IH.
  - destruct (Tools.split_dot s) as [|part parts]; [now elim Hne|].
    destruct parts as [|q parts].
    + unfold Tools.join_dot in *. simpl in *. now rewrite IH.
    + rewrite join_dot_cons in * by discriminate.
      simpl. now rewrite <- IH.
Qed.

Lemma includes_dot_cons (c : ascii) (s : string) :
  JsString.includes (String c s) "."
  = Ascii.eqb c "." || JsString.includes s ".".
Proof.
  cbn [JsString.includes JsString.startsWith].
  now rewrite andb_true_r, Ascii.eqb_sym.
Qed.

Lemma split_dot_parts (s part : string) :
  In part (Tools.split_dot s) -> JsString.includes part "." = false.
Proof.
  revert part. induction s as [|c s IH]; intros part;
    cbn [Tools.split_dot].
  - intros [<-|[]]. reflexivity.
  - destruct (Ascii.eqb c ".") eqn:Hc.
    + intros [<-|Hin]; [reflexivity|now apply IH].
    + pose proof (split_dot_nonempty s) as Hne.
      destruct (Tools.split_dot s) as [|q parts]; [now elim Hne|].
      intros [<-|Hin]; [|apply IH; now right].
      rewrite includes_dot_cons, Hc. apply IH. now left.
Qed.

Lemma split_dot_plain (s : string) :
  JsString.includes s "." = false -> Tools.split_dot s = [s].
Proof.
  induction s as [|c s IH]; [reflexivity|].
  rewrite includes_dot_cons. cbn [Tools.split_dot].
  destruct (Ascii.eqb c "."); [discriminate|].
  intros H. now rewrite (IH H).
Qed.

Lemma split_dot_dotted (s : string) :
  JsString.includes s "." = true ->
  exists part parts, Tools.split_dot s = part :: parts /\ parts <> [].
Proof.
  induction s as [|c s IH]; [discriminate|].
  rewrite includes_dot_cons. cbn [Tools.split_dot].
  pose proof (split_dot_nonempty s) as Hne.
  destruct (Ascii.eqb c ".").
  - intros _. now exists EmptyString, (Tools.split_dot s).
  - intros H. destruct (IH H) as (part & parts & -> & Hp).
    now exists (String c part), parts.
Qed.

Lemma join_dot_last (l : list string) :
  (2 <= List.length l)%nat ->
  Tools.join_dot l
  = Tools.join_dot (removelast l) ++ "." ++ last l EmptyString.
Proof.
  induction l as [|a l IH]; simpl List.length; [lia|].
  destruct l as [|b l]; [simpl; lia|]. intros _.
  destruct l as [|c l]; [reflexivity|].
  rewrite join_dot_cons by discriminate.
  rewrite IH by (simpl; lia).
  change (removelast (a :: b :: c :: l)) with (a :: removelast (b :: c :: l)).
  change (last (a :: b :: c :: l) EmptyString)
    with (last (b :: c :: l) EmptyString).
  rewrite join_dot_cons.
  - now rewrite string_app_assoc.
  - destruct l; discriminate.
Qed.

(** The numbered file is the path with [_<i+1>] put before its last dot;
    a path without dot is taken whole for the extension. *)
Lemma imagePath_shape (n : Z) (p : string) :
  1 < n ->
  exists basePath ext,
    (forall i, Tools.imagePath n p i
               = basePath ++ "_" ++ Scheduler.decimal (i + 1) ++ "." ++ ext)
    /\ JsString.includes ext "." = false
    /\ (if JsString.includes p "."
        then p = basePath ++ "." ++ ext
        else basePath = EmptyString /\ ext = p).
Proof.
  intros Hn.
  exists (Tools.join_dot (removelast (Tools.split_dot p))),
    (last (Tools.split_dot p) EmptyString).
  split; [|split].
  - intros i. unfold Tools.imagePath.
    destruct (Z.ltb_spec 1 n); [reflexivity|lia].
  - apply (split_dot_parts p).
    pose proof (split_dot_nonempty p) as Hne.
    destruct (Tools.split_dot p) as [|a l]; [now elim Hne|].
    clear Hne. revert a. induction l as [|b l IH]; intros a; [now left|].
    right. apply IH.
  - destruct (JsString.includes p ".") eqn:Hdot.
    + destruct (split_dot_dotted p Hdot) as (part & parts & Hs & Hne).
      rewrite <- (join_split_dot p) at 1.
      apply join_dot_last. rewrite Hs. destruct parts; [now elim Hne|simpl; lia].
    + rewrite (split_dot_plain p Hdot). now split.
Qed.

Lemma saveLoop_paths (n : Z) (p : string) (data : list Tools.ImageData)
      (i : nat) (paths : list string) :
  Tools.saveLoop n p i data = inr paths ->
  paths = map (Tools.imagePath n p) (seq i (List.length data)).
Proof.
  revert i paths. induction data as [|d data IH]; intros i paths; simpl.
  - now intros [= <-].
  - destruct (_ || _); [|discriminate].
    destruct (Tools.saveLoop n p (S i) data) as [k|rest] eqn:Hrest;
      [discriminate|].
    intros [= <-]. now rewrite (IH _ _ Hrest).
Qed.

(** X12: the files [editImage] and [generateImage] write the images of
    one answer to.  When more than one image is asked for, the image at
    position [i] goes to the output path with [_<i+1>] put before its last
    dot (a path without dot is taken whole for the extension, so that the
    file is named [_<i+1>.<path>]), and no two images share a file.  When
    one image is asked for, every image of the answer goes to the output
    path itself, each over the one before. *)
Theorem X12_numbered_files_of_an_answer
        (n : Z) (p : string) (data : list Tools.ImageData)
        (paths : list string) :
  Tools.saveLoop n p 0 data = inr paths ->
  List.length paths = List.length data
  /\ (n <= 1 -> paths = repeat p (List.length data))
  /\ (1 < n ->
      NoDup paths
      /\ exists basePath ext,
          (forall i, (i < List.length data)%nat ->
                     nth_error paths i
                     = Some (basePath ++ "_" ++ Scheduler.decimal (i + 1)
                             ++ "." ++ ext))
          /\ JsString.includes ext "." = false
          /\ (if JsString.includes p "."
              then p = basePath ++ "." ++ ext
              else basePath = EmptyString /\ ext = p)).
Proof.
  intros H. apply saveLoop_paths in H. subst paths.
  split; [now rewrite length_map, length_seq|]. split.
  - intros Hn. generalize 0%nat. induction (List.length data) as [|k IH];
      intros i; simpl; [reflexivity|].
    rewrite IH. f_equal. unfold Tools.imagePath.
    destruct (Z.ltb_spec 1 n); [lia|reflexivity].
  - intros Hn. destruct (imagePath_shape p Hn) as (basePath & ext & Hi & He & Hp).
    split.
    + apply Injective_map_NoDup; [|apply seq_NoDup].
      intros i j Hij. rewrite !Hi in Hij.
      apply string_app_inv_head in Hij.
      apply (string_app_inv_head "_") in Hij.
      apply string_app_inv_tail, decimal_inj in Hij. lia.
    + exists basePath, ext. split; [|now split].
      intros i Hlt. rewrite nth_error_map, nth_error_nth' with (d := 0%nat)
        by now rewrite length_seq.
      rewrite seq_nth by exact Hlt. simpl. now rewrite Hi.
Qed.

Lemma X12_numbered_files_of_an_answer_witness :
  Tools.saveLoop 2 "/out/cat.v2.jpg" 0
    (repeat {| Tools.b64_json := Some "aGk="; Tools.url := None;
               Tools.revised_prompt := None |} 2)
  = inr ["/out/cat.v2_1.jpg"; "/out/cat.v2_2.jpg"]
  /\ NoDup ["/out/cat.v2_1.jpg"; "/out/cat.v2_2.jpg"].
Proof.
  split; [reflexivity|].
  exact (proj1 (proj2 (proj2
           (@X12_numbered_files_of_an_answer 2 "/out/cat.v2.jpg"
              (repeat {| Tools.b64_json := Some "aGk="; Tools.url := None;
                         Tools.revised_prompt := None |} 2)
              ["/out/cat.v2_1.jpg"; "/out/cat.v2_2.jpg"]
              eq_refl)) eq_refl)).
Defined.

(* ================================================================= *)
(** ** The text of a result, read back by the executor *)

(** A greedy repetition takes the longest run when what follows it
    matches there. *)
Lemma star_longest (c : Regex.cls) (k : string -> option Regex.Match)
      (m s : string) (r : Regex.Match) :
  Tools.every c m = true -> Tools.stopsAt c s -> k s = Some r ->
  Regex.star c k (m ++ s) = Some (m, r).
Proof.
  intros Hm Hs Hk. induction m as [|a m IH]; simpl in *.
  - destruct s as [|b s]; simpl in *; rewrite ?Hs, Hk; reflexivity.
  - apply andb_true_iff in Hm. destruct Hm as [Ha Hm].
    now rewrite Ha, (IH Hm).
Qed.

Lemma plus_longest (c : Regex.cls) (k : string -> option Regex.Match)
      (a : ascii) (m s : string) (r : Regex.Match) :
  c a = true -> Tools.every c m = true -> Tools.stopsAt c s -> k s = Some r ->
  Regex.plus c k (String a (m ++ s)) = Some (String a m, r).
Proof.
  intros Ha Hm Hs Hk. simpl. now rewrite Ha, (star_longest c k m s Hm Hs Hk).
Qed.

Lemma every_app (c : ascii -> bool) (a b : string) :
  Tools.every c (a ++ b) = Tools.every c a && Tools.every c b.
Proof.
  induction a as [|x a IH]; simpl; [reflexivity|].
  now rewrite IH, andb_assoc.
Qed.

(** The capture of a line: [\s*([^\n]+)] or [\s*(.+)] on white space
    followed by a line that opens with something else. *)
Lemma spaces_then_line (ci : bool) (c : Regex.cls) (sp line rest : string) :
  Tools.every JsString.is_space sp = true ->
  Tools.stopsAt JsString.is_space line ->
  line <> EmptyString ->
  Tools.every c line = true ->
  Tools.stopsAt c rest ->
  Regex.match_here ci [Regex.Star JsString.is_space; Regex.CapPlus c]
                   (sp ++ line ++ rest)
  = Some {| Regex.whole := sp ++ line; Regex.group1 := Some line;
            Regex.rest := rest |}.
Proof.
  intros Hsp Hline Hne Hall Hrest.
  destruct line as [|a line]; [now elim Hne|].
  simpl in Hall. apply andb_true_iff in Hall. destruct Hall as [Ha Hall].
  cbn [Regex.match_here].
  rewrite (@star_longest JsString.is_space _ sp (String a line ++ rest)
             {| Regex.whole := String a line; Regex.group1 := Some (String a line);
                Regex.rest := rest |} Hsp Hline).
  - reflexivity.
  - cbn [Regex.match_here String.append].
    rewrite (@plus_longest c _ a line rest
               {| Regex.whole := EmptyString; Regex.group1 := None;
                  Regex.rest := rest |} Ha Hall Hrest eq_refl).
    cbn. unfold Regex.capture. cbn. now rewrite string_app_nil_r.
Qed.

Lemma first_alt_keyword (t : Tools.Tool) (k : string -> option Regex.Match)
      (s : string) :
  Regex.first_alt true k ["saved"; "generated"; "edited"] (Tools.verb t ++ s)
  = option_map (Regex.prepend (Tools.verb t)) (k s).
Proof. destruct t; simpl; destruct (k s); reflexivity. Qed.

(** The first regular expression of [executeJob] on a line that
    announces a path: the keyword of the tool, [ successfully:], white
    space, and a line. *)
Lemma saved_line (t : Tools.Tool) (sp line rest : string) :
  Tools.every JsString.is_space sp = true ->
  Tools.stopsAt JsString.is_space line ->
  line <> EmptyString ->
  Tools.every Regex.not_newline line = true ->
  Tools.stopsAt Regex.not_newline rest ->
  Regex.match_here true (Regex.atoms Regex.re_saved)
    (Tools.verb t ++ " successfully:" ++ sp ++ line ++ rest)
  = Some {| Regex.whole := Tools.verb t ++ " successfully:" ++ sp ++ line;
            Regex.group1 := Some line; Regex.rest := rest |}.
Proof.
  intros Hsp Hline Hne Hall Hrest.
  pose proof (@spaces_then_line true Regex.not_newline sp line rest
                Hsp Hline Hne Hall Hrest) as Hcap.
  cbn [Regex.atoms Regex.re_saved Regex.match_here].
  rewrite first_alt_keyword.
  change (" successfully:" ++ sp ++ line ++ rest)
    with (" successfully" ++ (":" ++ sp ++ line ++ rest)).
  cbn [Regex.match_here].
  rewrite (@star_longest Regex.not_colon _ " successfully"
             (":" ++ sp ++ line ++ rest)
             {| Regex.whole := ":" ++ sp ++ line; Regex.group1 := Some line;
                Regex.rest := rest |}).
  - reflexivity.
  - reflexivity.
  - reflexivity.
  - cbn [Regex.first_alt Regex.eat String.append Regex.char_eq].
    change (Ascii.eqb (JsString.fold_char ":") (JsString.fold_char ":"))
      with true.
    cbv iota.
    cbn [Regex.match_here] in Hcap. rewrite Hcap. reflexivity.
Qed.

(** The second regular expression on the text of such a match. *)
Lemma after_colon_line (pre sp line : string) :
  Tools.every Regex.not_colon pre = true ->
  Tools.every JsString.is_space sp = true ->
  Tools.stopsAt JsString.is_space line ->
  line <> EmptyString ->
  Tools.every Regex.dot line = true ->
  Regex.exec Regex.re_after_colon (pre ++ ":" ++ sp ++ line)
  = Some {| Regex.whole := ":" ++ sp ++ line; Regex.group1 := Some line;
            Regex.rest := EmptyString |}.
Proof.
  intros Hpre Hsp Hline Hne Hall.
  pose proof (@spaces_then_line false Regex.dot sp line EmptyString
                Hsp Hline Hne Hall I) as Hcap.
  rewrite string_app_nil_r in Hcap.
  induction pre as [|x pre IH].
  - cbn [String.append].
    change (":" ++ sp ++ line) with (String ":" (sp ++ line)).
    cbn [Regex.exec Regex.atoms Regex.re_after_colon Regex.ignoreCase
         Regex.match_here Regex.first_alt Regex.eat Regex.char_eq].
    change (Ascii.eqb ":" ":") with true. cbv iota.
    cbn [Regex.match_here] in Hcap. rewrite Hcap. reflexivity.
  - simpl in Hpre. apply andb_true_iff in Hpre. destruct Hpre as [Hx Hpre].
    cbn [String.append Regex.exec Regex.atoms Regex.re_after_colon
         Regex.ignoreCase Regex.match_here Regex.first_alt Regex.eat
         Regex.char_eq].
    unfold Regex.not_colon in Hx. apply negb_true_iff in Hx.
    rewrite Ascii.eqb_sym, Hx. exact (IH Hpre).
Qed.

Lemma match_all_from_skip (re : Regex.regex) (a b : string) :
  Regex.match_all_from re (String.length a) (a ++ b)
  = Regex.match_all_from re 0 b.
Proof. induction a as [|x a IH]; simpl; [reflexivity|exact IH]. Qed.

Lemma match_all_miss (re : Regex.regex) (x : ascii) (s : string) :
  Regex.match_here (Regex.ignoreCase re) (Regex.atoms re) (String x s) = None ->
  Regex.match_all_from re 0 (String x s) = Regex.match_all_from re 0 s.
Proof. intros H. cbn [Regex.match_all_from]. now rewrite H. Qed.

Lemma match_all_hit (re : Regex.regex) (s rest : string) (m : Regex.Match) :
  Regex.match_here (Regex.ignoreCase re) (Regex.atoms re) s = Some m ->
  s = Regex.whole m ++ rest ->
  Regex.whole m <> EmptyString ->
  Regex.match_all_from re 0 s
  = Regex.whole m :: Regex.match_all_from re 0 rest.
Proof.
  intros Hm Hs Hne. destruct (Regex.whole m) as [|x w] eqn:Hw;
    [now elim Hne|].
  subst s. cbn [String.append] in *. cbn [Regex.match_all_from].
  rewrite Hm, Hw. cbn [String.length Nat.pred].
  now rewrite match_all_from_skip.
Qed.

Lemma trimStart_decompose (s : string) :
  exists sp, s = sp ++ JsString.trimStart s
             /\ Tools.every JsString.is_space sp = true.
Proof.
  induction s as [|c s IH]; simpl; [now exists EmptyString|].
  destruct (JsString.is_space c) eqn:Hc.
  - destruct IH as (sp & Hs & Hsp). exists (String c sp). simpl.
    rewrite Hc, Hsp. split; [now rewrite <- Hs|reflexivity].
  - now exists EmptyString.
Qed.

Lemma trimStart_stops (s : string) :
  Tools.stopsAt JsString.is_space (JsString.trimStart s).
Proof.
  induction s as [|c s IH]; simpl; [exact I|].
  destruct (JsString.is_space c) eqn:Hc; [exact IH|exact Hc].
Qed.

Lemma trim_trimStart (s : string) :
  JsString.trim (JsString.trimStart s) = JsString.trim s.
Proof.
  unfold JsString.trim. f_equal.
  pose proof (trimStart_stops s) as H.
  destruct (JsString.trimStart s) as [|c r]; simpl in *; [reflexivity|].
  now rewrite H.
Qed.

Lemma every_impl (c d : ascii -> bool) (s : string) :
  (forall a, c a = true -> d a = true) ->
  Tools.every c s = true -> Tools.every d s = true.
Proof.
  intros H. induction s as [|a s IH]; simpl; [reflexivity|].
  intros Hs. apply andb_true_iff in Hs. destruct Hs as [Ha Hs].
  now rewrite (H a Ha), (IH Hs).
Qed.

Lemma dot_not_newline (a : ascii) :
  Regex.dot a = true -> Regex.not_newline a = true.
Proof.
  unfold Regex.dot, Regex.not_newline. intros H.
  now apply andb_true_iff in H.
Qed.

(** What [executeJob] reads from a line that announces a path and from
    what follows it. *)
Lemma extractPaths_announced (t : Tools.Tool) (sp line rest : string) :
  Tools.every JsString.is_space sp = true ->
  Tools.stopsAt JsString.is_space line ->
  line <> EmptyString ->
  Tools.every Regex.dot line = true ->
  Tools.stopsAt Regex.not_newline rest ->
  flat_map
    (fun m =>
       match Regex.exec Regex.re_after_colon m with
       | Some pathMatch =>
           match Regex.group1 pathMatch with
           | Some g => [JsString.trim g]
           | None => []
           end
       | None => []
       end)
    (Regex.match_all_from Regex.re_saved 0
       (Tools.verb t ++ " successfully:" ++ sp ++ line ++ rest))
  = JsString.trim line :: Executor.extractPaths rest.
Proof.
  intros Hsp Hline Hne Hdot Hrest.
  pose proof (@every_impl _ _ line dot_not_newline Hdot) as Hnl.
  pose proof (@saved_line t sp line rest Hsp Hline Hne Hnl Hrest) as Hm.
  rewrite (@match_all_hit Regex.re_saved _ rest _ Hm).
  - cbn [flat_map Regex.whole].
    change (Tools.verb t ++ " successfully:" ++ sp ++ line)
      with (Tools.verb t ++ " successfully" ++ ":" ++ sp ++ line).
    rewrite <- string_app_assoc.
    rewrite (@after_colon_line (Tools.verb t ++ " successfully") sp line);
      auto.
    now destruct t.
  - cbn [Regex.whole]. now rewrite !string_app_assoc.
  - cbn [Regex.whole]. now destruct t.
Qed.

Lemma image_prefix (t : Tools.Tool) (s : string) :
  Regex.match_all_from Regex.re_saved 0 ("Image " ++ Tools.verb t ++ s)
  = Regex.match_all_from Regex.re_saved 0 (Tools.verb t ++ s).
Proof.
  destruct t; cbn [String.append Tools.verb];
    do 6 (rewrite match_all_miss by reflexivity); reflexivity.
Qed.

Lemma count_prefix (n : Z) (t : Tools.Tool) (s : string) :
  2 <= n <= 10 ->
  Regex.match_all_from Regex.re_saved 0
    (Tools.number n ++ " images " ++ Tools.verb t ++ s)
  = Regex.match_all_from Regex.re_saved 0 (Tools.verb t ++ s).
Proof.
  intros Hn.
  assert (Hcases : n = 2 \/ n = 3 \/ n = 4 \/ n = 5 \/ n = 6 \/ n = 7
                   \/ n = 8 \/ n = 9 \/ n = 10) by lia.
  repeat destruct Hcases as [->|Hcases]; try subst n;
    match goal with
    | |- context [Tools.number ?z] =>
        let v := eval vm_compute in (Tools.number z) in
        change (Tools.number z) with v
    end;
    destruct t; cbn [String.append Tools.verb];
    repeat (rewrite match_all_miss by reflexivity); reflexivity.
Qed.

(** The text of a result for one image: the path announced is read, and
    then whatever the rest of the text yields. *)
Lemma extractPaths_single (t : Tools.Tool) (dp tail : string) :
  Tools.every Regex.dot dp = true ->
  JsString.trimStart dp <> EmptyString ->
  Tools.stopsAt Regex.not_newline tail ->
  Executor.extractPaths
    ("Image " ++ Tools.verb t ++ " successfully: " ++ dp ++ tail)
  = JsString.trim dp :: Executor.extractPaths tail.
Proof.
  intros Hdot Hne Htail.
  destruct (trimStart_decompose dp) as (sp & Hdp & Hsp).
  pose proof (trimStart_stops dp) as Hstop.
  pose proof (trim_trimStart dp) as Htrim.
  rewrite Hdp, every_app in Hdot. apply andb_true_iff in Hdot.
  destruct Hdot as [_ Hline].
  revert Hdp Hstop Htrim Hne Hline.
  generalize (JsString.trimStart dp) as line.
  intros line -> Hstop <- Hne Hline.
  unfold Executor.extractPaths, Regex.match_all.
  rewrite image_prefix.
  change (" successfully: " ++ (sp ++ line) ++ tail)
    with (" successfully:" ++ (" " ++ sp ++ line) ++ tail).
  replace ((" " ++ sp ++ line) ++ tail) with ((" " ++ sp) ++ line ++ tail)
    by (cbn [String.append]; now rewrite string_app_assoc).
  now apply extractPaths_announced.
Qed.

(** The text of a result for several images: the first line of the list
    is read with its number. *)
Lemma extractPaths_numbered_list (n : Z) (t : Tools.Tool)
      (display : string -> string) (first : string) (others : list string)
      (tail : string) :
  2 <= n <= 10 ->
  Tools.every Regex.dot (display first) = true ->
  Executor.extractPaths
    (Tools.number n ++ " images " ++ Tools.verb t ++ " successfully:"
     ++ Tools.newline ++ Tools.pathLines display 0 (first :: others) ++ tail)
  = JsString.trim ("1. " ++ display first)
    :: Executor.extractPaths
         (Tools.newline ++ Tools.pathLines display 1 others ++ tail).
Proof.
  intros Hn Hdot.
  unfold Executor.extractPaths, Regex.match_all.
  rewrite count_prefix by exact Hn.
  cbn [Tools.pathLines].
  change (Scheduler.decimal (0 + 1)) with "1".
  replace (Tools.newline
           ++ ("  " ++ "1" ++ ". " ++ display first ++ Tools.newline
               ++ Tools.pathLines display 1 others) ++ tail)
    with ((Tools.newline ++ "  ") ++ ("1. " ++ display first)
          ++ (Tools.newline ++ Tools.pathLines display 1 others ++ tail)).
  - apply extractPaths_announced; try reflexivity; try discriminate.
    exact Hdot.
  - unfold Tools.newline. cbn [String.append].
    now rewrite !string_app_assoc.
Qed.

Lemma returned_parse (thumbnail : bool) (a : ascii) (s : string) (k : nat) :
  Executor.parseResult (Tools.returned thumbnail (String a s) k)
  = Executor.parseResult (RString (String a s)).
Proof. destruct thumbnail; reflexivity. Qed.

Lemma eat_differs (kw pre s : string) :
  Tools.differsWithin kw pre = true -> Regex.eat true kw (pre ++ s) = None.
Proof.
  revert pre. induction kw as [|a kw IH]; intros pre; [discriminate|].
  destruct pre as [|b pre]; [discriminate|].
  cbn [Tools.differsWithin Regex.eat String.append].
  destruct (Regex.char_eq true a b); [|reflexivity].
  intros H. now rewrite (IH _ H).
Qed.

Lemma keywordFree_skip (pre s : string) :
  Tools.keywordFree pre = true ->
  Regex.match_all_from Regex.re_saved 0 (pre ++ s)
  = Regex.match_all_from Regex.re_saved 0 s.
Proof.
  induction pre as [|x pre IH]; [reflexivity|].
  cbn [Tools.keywordFree forallb]. rewrite !andb_true_iff.
  intros [(H1 & H2 & H3 & _) Hfree].
  change (String x pre ++ s) with (String x (pre ++ s)).
  rewrite match_all_miss; [exact (IH Hfree)|].
  cbn [Regex.ignoreCase Regex.atoms Regex.re_saved Regex.match_here
       Regex.first_alt].
  change (String x (pre ++ s)) with (String x pre ++ s).
  now rewrite !eat_differs.
Qed.

(** The lines of the parameters, written for values the tool accepts,
    hold nothing [executeJob] takes for a path; a revised prompt after
    them is read on its own. *)
Lemma parameters_quiet (t : Tools.Tool) (model aspect_ratio resolution : string)
      (revised : list string) :
  In model Cost.MODELS ->
  In aspect_ratio Tools.ASPECT_RATIOS ->
  In resolution Validate.RESOLUTIONS ->
  Regex.match_all Regex.re_saved
    (Tools.parameters t model aspect_ratio resolution None revised false)
  = match revised with
    | r :: _ => Regex.match_all Regex.re_saved r
    | [] => []
    end.
Proof.
  intros Hm Ha Hr. unfold Regex.match_all, Tools.parameters.
  destruct Hr as [<-|[]].
  assert (Hskip : forall pre r,
             Tools.keywordFree pre = true ->
             Regex.match_all_from Regex.re_saved 0
               (pre ++ (Tools.newline ++ Tools.newline ++ "Revised prompt: "
                        ++ r) ++ EmptyString)
             = Regex.match_all_from Regex.re_saved 0 r).
  { intros pre r Hpre. rewrite string_app_nil_r, keywordFree_skip by exact Hpre.
    now apply (keywordFree_skip
                 (Tools.newline ++ Tools.newline ++ "Revised prompt: ") r). }
  destruct t.
  - clear Ha.
    repeat destruct Hm as [<-|Hm]; try (now elim Hm);
      (destruct revised as [|r rest];
       [vm_compute; reflexivity|];
       match goal with
       | |- Regex.match_all_from _ 0 ?text = _ =>
           match text with
           | context C [(?rev ++ EmptyString)%string] =>
               let f := context C [EmptyString] in
               let pre := eval vm_compute in f in
               change text with (pre ++ rev ++ EmptyString)
           end
       end; apply Hskip; vm_compute; reflexivity).
  - repeat destruct Hm as [<-|Hm]; try (now elim Hm);
      repeat destruct Ha as [<-|Ha]; try (now elim Ha);
      (destruct revised as [|r rest];
       [vm_compute; reflexivity|];
       match goal with
       | |- Regex.match_all_from _ 0 ?text = _ =>
           match text with
           | context C [(?rev ++ EmptyString)%string] =>
               let f := context C [EmptyString] in
               let pre := eval vm_compute in f in
               change text with (pre ++ rev ++ EmptyString)
           end
       end; apply Hskip; vm_compute; reflexivity).
Qed.

Lemma parameters_stop (t : Tools.Tool) (model aspect_ratio resolution : string)
      (quality : option string) (revised : list string) (base64 : bool) :
  Tools.stopsAt Regex.not_newline
    (Tools.parameters t model aspect_ratio resolution quality revised base64).
Proof. reflexivity. Qed.

(** X13: the path [executeJob] records for a call that asked for one
    image.  The tool writes [Image generated successfully: <path>] (or
    [edited]), then the parameters, which it has checked, and the revised
    prompt.  When the displayed path holds no line break and is not blank,
    and the revised prompt, if any, holds nothing the executor takes for a
    path (as when it holds no colon), the job records exactly the displayed
    path, trimmed, whether the tool returns the text or a content array
    with thumbnails, and not the output path the batch resolved. *)
Theorem X13_single_image_result_is_read_back
        (t : Tools.Tool) (display : string -> string)
        (first : string) (others : list string)
        (model aspect_ratio resolution : string) (revised : list string)
        (outputPath : string) (thumbnail : bool) (thumbnails : nat) :
  Tools.every Regex.dot (display first) = true ->
  JsString.trimStart (display first) <> EmptyString ->
  In model Cost.MODELS ->
  In aspect_ratio Tools.ASPECT_RATIOS ->
  In resolution Validate.RESOLUTIONS ->
  (forall r rest, revised = r :: rest ->
                  Regex.match_all Regex.re_saved r = []) ->
  Executor.recordedPaths outputPath
    (Tools.returned thumbnail
       (Tools.resultText t display 1 first others model aspect_ratio
                         resolution None revised false)
       thumbnails)
  = [JsString.trim (display first)].
Proof.
  intros Hdot Hne Hm Ha Hr Hrev.
  unfold Executor.recordedPaths, Tools.resultText, Tools.announcement.
  change (1 =? 1) with true. cbv iota.
  rewrite !string_app_assoc.
  change ("Image " ++ Tools.verb t ++ " successfully: " ++ display first
          ++ Tools.parameters t model aspect_ratio resolution None revised false)
    with (String "I" ("mage " ++ Tools.verb t ++ " successfully: "
                      ++ display first
                      ++ Tools.parameters t model aspect_ratio resolution None
                           revised false)).
  rewrite returned_parse.
  change (String "I" ("mage " ++ Tools.verb t ++ " successfully: "
                      ++ display first
                      ++ Tools.parameters t model aspect_ratio resolution None
                           revised false))
    with ("Image " ++ Tools.verb t ++ " successfully: " ++ display first
          ++ Tools.parameters t model aspect_ratio resolution None revised false).
  cbn [Executor.parseResult fst].
  rewrite (@extractPaths_single t (display first) _ Hdot Hne
             (parameters_stop t model aspect_ratio resolution None revised false)).
  unfold Executor.extractPaths at 1.
  rewrite (parameters_quiet t revised Hm Ha Hr).
  destruct revised as [|r rest]; [reflexivity|].
  now rewrite (Hrev r rest eq_refl).
Qed.

Lemma X13_single_image_result_is_read_back_witness :
  Executor.recordedPaths "/out/generated_1.jpg"
    (Tools.returned true
       (Tools.resultText Tools.Generate (fun p => p) 1 "/out/cat.jpg" []
          "grok-imagine-image" "16:9" "1k" None ["A cat on a roof"] false)
       1)
  = ["/out/cat.jpg"].
Proof.
  apply (@X13_single_image_result_is_read_back Tools.Generate (fun p => p)
           "/out/cat.jpg" [] "grok-imagine-image" "16:9" "1k"
           ["A cat on a roof"] "/out/generated_1.jpg" true 1).
  - reflexivity.
  - discriminate.
  - simpl; tauto.
  - simpl; tauto.
  - simpl; tauto.
  - intros r rest [= <- <-]. reflexivity.
Defined.

(** X14: the paths [executeJob] records for a call that asked for
    several images.  The tool writes a numbered list, one path to a line,
    and the executor reads the first line with its number: the first path
    it records is [1. <path>], not the path of a file; what it records
    after it is whatever the rest of the text yields. *)
Theorem X14_several_images_first_path_keeps_its_number
        (t : Tools.Tool) (display : string -> string) (n : Z)
        (first : string) (others : list string)
        (model aspect_ratio resolution : string) (quality : option string)
        (revised : list string) (base64 : bool)
        (outputPath : string) (thumbnail : bool) (thumbnails : nat) :
  2 <= n <= 10 ->
  Tools.every Regex.dot (display first) = true ->
  Executor.recordedPaths outputPath
    (Tools.returned thumbnail
       (Tools.resultText t display n first others model aspect_ratio
                         resolution quality revised base64)
       thumbnails)
  = JsString.trim ("1. " ++ display first)
    :: Executor.extractPaths
         (Tools.newline ++ Tools.pathLines display 1 others
          ++ Tools.parameters t model aspect_ratio resolution quality revised
               base64).
Proof.
  intros Hn Hdot.
  unfold Executor.recordedPaths, Tools.resultText, Tools.announcement.
  destruct (Z.eqb_spec n 1) as [->|_]; [lia|].
  rewrite !string_app_assoc.
  pose proof (@extractPaths_numbered_list n t display first others
                (Tools.parameters t model aspect_ratio resolution quality
                                  revised base64) Hn Hdot) as H.
  destruct (Tools.number n ++ " images " ++ Tools.verb t ++ " successfully:"
            ++ Tools.newline ++ Tools.pathLines display 0 (first :: others)
            ++ Tools.parameters t model aspect_ratio resolution quality revised
                 base64) as [|a s] eqn:Htext.
  - discriminate H.
  - rewrite returned_parse. cbn [Executor.parseResult fst]. now rewrite H.
Qed.

Lemma X14_several_images_first_path_keeps_its_number_witness :
  Executor.recordedPaths "/out/generated_1.jpg"
    (Tools.returned false
       (Tools.resultText Tools.Generate (fun p => p) 2
          "/out/generated_1_1.jpg" ["/out/generated_1_2.jpg"]
          "grok-imagine-image" "1:1" "1k" None [] false)
       0)
  = ["1. /out/generated_1_1.jpg"; "- Model: grok-imagine-image"].
Proof.
  rewrite (@X14_several_images_first_path_keeps_its_number Tools.Generate
             (fun p => p) 2 "/out/generated_1_1.jpg"
             ["/out/generated_1_2.jpg"] "grok-imagine-image" "1:1" "1k" None
             [] false "/out/generated_1.jpg" false 0);
    [reflexivity|lia|reflexivity].
Defined.

(* ================================================================= *)
(** ** HTTP errors of the image API and the retry patterns *)

Lemma string_app_eq_app (x y u v : string) :
  x ++ y = u ++ v ->
  (exists m, u = x ++ m /\ y = m ++ v) \/ (exists m, x = u ++ m /\ v = m ++ y).
Proof.
  revert u. induction x as [|a x IH]; intros u H.
  - left. exists u. now split.
  - destruct u as [|b u].
    + right. exists (String a x). now split.
    + simpl in H. injection H as <- H.
      destruct (IH u H) as [(m & -> & ->)|(m & -> & ->)];
        [left|right]; now exists m.
Qed.

(** An occurrence of [p] in [a ++ b] lies in [a], in [b], or across
    the two. *)
Lemma includes_app_cases (a b p : string) :
  JsString.includes (a ++ b) p = true ->
  JsString.includes a p = true
  \/ JsString.includes b p = true
  \/ exists p1 p2 x y,
      p = p1 ++ p2 /\ p1 <> EmptyString /\ p2 <> EmptyString
      /\ a = x ++ p1 /\ b = p2 ++ y.
Proof.
  intros H. apply includes_spec in H. destruct H as (pre & post & H).
  destruct (string_app_eq_app _ _ _ _ H) as [(m & Hpre & Hb)|(m & Ha & H')].
  - right. left. apply includes_spec. now exists m, post.
  - destruct (string_app_eq_app _ _ _ _ H') as [(m' & Hm & Hpost)|(m' & Hp & Hb)].
    + left. apply includes_spec. exists pre, m'.
      now rewrite Ha, Hm.
    + destruct m as [|c m].
      * right. left. apply includes_spec. exists EmptyString, post.
        simpl in Hp. simpl. now rewrite Hp.
      * destruct m' as [|d m'].
        -- left. apply includes_spec. exists pre, EmptyString.
           rewrite string_app_nil_r in Hp. now rewrite string_app_nil_r, Hp.
        -- right. right. exists (String c m), (String d m'), pre, post.
           repeat split; auto; discriminate.
Qed.

Lemma prefixes_In (p1 p2 : string) : In p1 (Tools.prefixes (p1 ++ p2)).
Proof.
  induction p1 as [|c p1 IH]; simpl.
  - destruct p2; now left.
  - right. now apply in_map.
Qed.

Lemma suffixes_In (p1 p2 : string) : In p2 (Tools.suffixes (p1 ++ p2)).
Proof.
  induction p1 as [|c p1 IH]; simpl.
  - destruct p2; now left.
  - now right.
Qed.

Lemma suffixes_self (s : string) : In s (Tools.suffixes s).
Proof. destruct s; now left. Qed.

Lemma endsWith_app (x p : string) : Tools.endsWith (x ++ p) p = true.
Proof.
  unfold Tools.endsWith. apply existsb_exists. exists p.
  split; [apply suffixes_In|apply String.eqb_refl].
Qed.

Lemma string_app_split_length (a b c d : string) :
  a ++ b = c ++ d -> (String.length c <= String.length a)%nat ->
  exists m, a = c ++ m.
Proof.
  intros H Hlen.
  destruct (string_app_eq_app _ _ _ _ H) as [(m & -> & _)|(m & -> & _)].
  - rewrite string_length_app in Hlen.
    destruct m as [|x m]; [|simpl in Hlen; lia].
    exists EmptyString. now rewrite !string_app_nil_r.
  - now exists m.
Qed.

Lemma string_app_neq_self (p1 p2 : string) :
  p2 <> EmptyString -> p1 <> p1 ++ p2.
Proof.
  intros Hne H. assert (Hlen := f_equal String.length H).
  rewrite string_length_app in Hlen.
  destruct p2; [now elim Hne|simpl in Hlen; lia].
Qed.

Lemma string_app_neq_tail (p1 p2 : string) :
  p1 <> EmptyString -> p2 <> p1 ++ p2.
Proof.
  intros Hne H. assert (Hlen := f_equal String.length H).
  rewrite string_length_app in Hlen.
  destruct p1; [now elim Hne|simpl in Hlen; lia].
Qed.

(** A pattern no longer than [msg], which does not occur in [msg] and
    cannot lie across either end of it, occurs around [msg] only where it
    occurs before or after it. *)
Lemma includes_sandwich (pre msg post p : string) :
  (String.length p <= String.length msg)%nat ->
  Tools.cannotStraddle msg msg p = true ->
  JsString.includes msg p = false ->
  JsString.includes pre p = false ->
  JsString.includes post p = false ->
  JsString.includes (pre ++ msg ++ post) p = false.
Proof.
  intros Hlen Hstr Hmsg Hpre Hpost.
  unfold Tools.cannotStraddle in Hstr. apply andb_true_iff in Hstr.
  destruct Hstr as [Hends Hstarts].
  rewrite forallb_forall in Hends, Hstarts.
  destruct (JsString.includes (pre ++ msg ++ post) p) eqn:H; [|reflexivity].
  exfalso.
  destruct (includes_app_cases _ _ _ H)
    as [H1|[H2|(p1 & p2 & x & y & Hp & Hp1 & Hp2 & Hx & Hy)]].
  - congruence.
  - destruct (includes_app_cases _ _ _ H2)
      as [H1|[H3|(p1 & p2 & x & y & Hp & Hp1 & Hp2 & Hx & Hy)]];
      try congruence.
    specialize (Hends p1). rewrite Hp in Hends.
    specialize (Hends (prefixes_In p1 p2)).
    rewrite !orb_true_iff, negb_true_iff, !String.eqb_eq in Hends.
    destruct Hends as [[He|He]|He].
    + now elim Hp1.
    + exact (@string_app_neq_self p1 p2 Hp2 He).
    + rewrite Hx, endsWith_app in He. discriminate.
  - assert (Hshort : (String.length p2 <= String.length msg)%nat).
    { rewrite Hp, string_length_app in Hlen. lia. }
    symmetry in Hy.
    destruct (string_app_split_length _ _ _ _ (eq_sym Hy) Hshort) as [m Hm].
    specialize (Hstarts p2). rewrite Hp in Hstarts.
    specialize (Hstarts (suffixes_In p1 p2)).
    rewrite !orb_true_iff, negb_true_iff, !String.eqb_eq in Hstarts.
    destruct Hstarts as [[He|He]|He].
    + now elim Hp2.
    + exact (@string_app_neq_tail p1 p2 Hp1 He).
    + assert (Hsw : JsString.startsWith msg p2 = true)
        by (apply startsWith_spec; now exists m).
      congruence.
Qed.

(** An error text is of no retryable kind under the default patterns. *)
Lemma shouldRetry_false_patterns (msg : string) (attempt maxRetries : Z) :
  attempt < maxRetries ->
  Retry.shouldRetry msg attempt maxRetries Retry.default_patterns = false ->
  forall pattern, In pattern Retry.default_patterns ->
    JsString.includes (JsString.toLowerCase msg) (JsString.toLowerCase pattern)
    = false.
Proof.
  unfold Retry.shouldRetry. intros Hlt H pattern Hin.
  apply Z.ltb_lt in Hlt. rewrite Hlt in H. cbn [andb] in H.
  apply not_true_iff_false. intros Hinc.
  apply not_true_iff_false in H. apply H.
  apply existsb_exists. now exists pattern.
Qed.

Lemma rate_limit_not_retried (pre post statusText : string)
      (apiMessage : option string) (attempt maxRetries : Z) :
  Retry.shouldRetry pre 0 1 Retry.default_patterns = false ->
  Retry.shouldRetry post 0 1 Retry.default_patterns = false ->
  Retry.shouldRetry
    (pre ++ Tools.httpErrorMessage 429 statusText apiMessage ++ post)
    attempt maxRetries Retry.default_patterns = false.
Proof.
  intros Hpre Hpost.
  pose proof (@shouldRetry_false_patterns pre 0 1 eq_refl Hpre) as Hp.
  pose proof (@shouldRetry_false_patterns post 0 1 eq_refl Hpost) as Hq.
  unfold Retry.shouldRetry. apply andb_false_iff. right.
  change (Tools.httpErrorMessage 429 statusText apiMessage)
    with "Rate limit exceeded. Please wait and try again.".
  rewrite !toLowerCase_app.
  unfold Retry.default_patterns in *. cbn [existsb].
  rewrite !orb_false_iff.
  repeat split;
    (apply includes_sandwich;
     [vm_compute; lia|vm_compute; reflexivity|vm_compute; reflexivity
     |apply Hp; simpl; tauto|apply Hq; simpl; tauto]).
Qed.

Lemma unavailable_retried (pre post statusText : string)
      (apiMessage : option string) (attempt maxRetries : Z) :
  attempt < maxRetries ->
  Retry.shouldRetry
    (pre ++ Tools.httpErrorMessage 503 statusText apiMessage ++ post)
    attempt maxRetries Retry.default_patterns = true.
Proof.
  intros Hlt. apply shouldRetry_spec. split; [exact Hlt|].
  exists "503". split; [simpl; tauto|].
  change (Tools.httpErrorMessage 503 statusText apiMessage)
    with ("API error (" ++ "503"
          ++ "): " ++ Validate.string_or apiMessage
                        ("HTTP " ++ "503" ++ ": " ++ statusText)).
  exists (pre ++ "API error ("), "503",
    ("): " ++ Validate.string_or apiMessage
                ("HTTP " ++ "503" ++ ": " ++ statusText) ++ post).
  split; [|reflexivity].
  now rewrite !string_app_assoc.
Qed.

(** X15: the error the image tools throw for an HTTP 429 answer reads
    [Rate limit exceeded. Please wait and try again.], whatever the API
    says, and none of the default retry patterns ([rate_limit], [timeout],
    [429], [503]) occurs in it or can lie across its ends: wrapped in any
    text that is itself of no retryable kind, it is never a retryable
    error, for any attempt and any number of retries.  The error thrown
    for an HTTP 503 answer holds [503] and is a retryable error as long as
    a retry is left. *)
Theorem X15_rate_limit_answer_is_not_retryable
        (pre post statusText : string) (apiMessage : option string)
        (attempt maxRetries : Z) :
  Retry.shouldRetry pre 0 1 Retry.default_patterns = false ->
  Retry.shouldRetry post 0 1 Retry.default_patterns = false ->
  Retry.shouldRetry
    (pre ++ Tools.httpErrorMessage 429 statusText apiMessage ++ post)
    attempt maxRetries Retry.default_patterns = false
  /\ (attempt < maxRetries ->
      Retry.shouldRetry
        (pre ++ Tools.httpErrorMessage 503 statusText apiMessage ++ post)
        attempt maxRetries Retry.default_patterns = true).
Proof.
  intros Hpre Hpost. split.
  - now apply rate_limit_not_retried.
  - intros Hlt. now apply unavailable_retried.
Qed.

Lemma X15_rate_limit_answer_is_not_retryable_witness :
  Retry.shouldRetry
    ("MCP error -32600: "
     ++ Tools.httpErrorMessage 429 "Too Many Requests"
          (Some "rate_limit reached, HTTP 429") ++ "")
    0 2 Retry.default_patterns = false.
Proof.
  exact (proj1 (@X15_rate_limit_answer_is_not_retryable
                  "MCP error -32600: " "" "Too Many Requests"
                  (Some "rate_limit reached, HTTP 429") 0 2
                  eq_refl eq_refl)).
Defined.

(** X16: a job of a batch with the default retry patterns whose every
    attempt is answered with HTTP 429 is attempted [max_retries + 1] times
    back to back: the executor never sleeps [retry_delay_ms] between two
    of its calls. *)
Theorem X16_rate_limited_job_is_reattempted_without_pause
        (job : BatchJobConfig) (index : nat) (outputPath : string)
        (config : BatchConfig) (answers : nat -> Answer) (w : World)
        (pre post : string) :
  Retry.retryPatterns config = Retry.default_patterns ->
  Retry.shouldRetry pre 0 1 Retry.default_patterns = false ->
  Retry.shouldRetry post 0 1 Retry.default_patterns = false ->
  (forall k, In k (Executor.attemptRange config) ->
     exists e statusText apiMessage,
       snd (answers k) = Throws e
       /\ Executor.errorText e
          = pre ++ Tools.httpErrorMessage 429 statusText apiMessage ++ post) ->
  let run := Executor.executeJob job index outputPath config answers w in
  effects (snd run)
  = (effects w
     ++ repeat (Called (Executor.request job outputPath config))
               (Z.to_nat (Retry.maxRetries config + 1)))%list
  /\ forall ms, In (Slept ms) (effects (snd run)) -> In (Slept ms) (effects w).
Proof.
  intros Hpat Hpre Hpost Hall run.
  assert (Heff : effects (snd run)
                 = (effects w
                    ++ repeat (Called (Executor.request job outputPath config))
                         (Z.to_nat (Retry.maxRetries config + 1)))%list).
  { apply nonretryable_makes_all_attempts.
    intros k Hk. destruct (Hall k Hk) as (e & st & am & He & Htext).
    exists e. split; [exact He|].
    intros (pattern & Hin & Hci).
    assert (Hretry : Retry.shouldRetry (Executor.errorText e) 0 1
                       (Retry.retryPatterns config) = true)
      by (apply shouldRetry_spec; split; [lia|now exists pattern]).
    rewrite Hpat, Htext, rate_limit_not_retried in Hretry by assumption.
    discriminate. }
  split; [exact Heff|].
  intros ms. rewrite Heff. intros Hin.
  apply in_app_or in Hin. destruct Hin as [Hin|Hin]; [exact Hin|].
  apply repeat_spec in Hin. discriminate.
Qed.

Lemma X16_rate_limited_job_is_reattempted_without_pause_witness :
  let answers := fun _ : nat =>
    Sample.throws 40
      ("MCP error -32600: " ++ Tools.httpErrorMessage 429 "" None) in
  effects
    (snd (Executor.executeJob Sample.cat 0 "/out/generated_1.jpg"
            (Sample.batch [Sample.cat] None None None) answers Sample.world0))
  = repeat (Called (Executor.request Sample.cat "/out/generated_1.jpg"
                      (Sample.batch [Sample.cat] None None None))) 3.
Proof.
  intros answers.
  refine (proj1 (@X16_rate_limited_job_is_reattempted_without_pause
                   Sample.cat 0 "/out/generated_1.jpg"
                   (Sample.batch [Sample.cat] None None None) answers
                   Sample.world0 "MCP error -32600: " ""
                   eq_refl eq_refl eq_refl _)).
  intros k _. eexists _, "", None. split; reflexivity.
Defined.

(* ================================================================= *)
(** ** The batch that ends before its timeout *)


Lemma allSettled_spec (s : Scheduler.Sched) :
  Scheduler.allSettled s = true
  <-> Scheduler.running s = [] /\ Limiter.queue (Scheduler.sem s) = [].
Proof.
  unfold Scheduler.allSettled.
  destruct (Scheduler.running s), (Limiter.queue (Scheduler.sem s));
    split; try discriminate; try tauto; intros [? ?]; discriminate.
Qed.

(** When the timer does not fire, every task has landed before the
    timeout, and the wait ends when the last one lands. *)
Lemma awaitJobs_settled config answers ts startTime s endTime :
  map Scheduler.position ts = seq 0 (List.length ts) ->
  Scheduler.awaitJobs config answers ts startTime = (s, endTime, false) ->
  Scheduler.running s = []
  /\ Limiter.queue (Scheduler.sem s) = []
  /\ endTime = Scheduler.lastFinish startTime (Scheduler.landed s)
  /\ Forall (fun r => Scheduler.finished r
                      < startTime + num_or (timeout config) 600000)
            (Scheduler.landed s).
Proof.
  intros Hts. unfold Scheduler.awaitJobs.
  set (s0 := Scheduler.launchAll _ _ _ ts _).
  set (d := startTime + num_or (timeout config) 600000).
  set (s1 := Scheduler.runUntil config answers d (List.length ts) s0).
  destruct (Scheduler.allSettled s1) eqn:Hset; [|discriminate].
  intros [= <- <-]. apply allSettled_spec in Hset. destruct Hset as [Hr Hq].
  repeat split; auto.
  apply runUntil_landed_before. subst s0. unfold Scheduler.launchAll.
  rewrite launches_landed. constructor.
Qed.

Lemma filter_none {A} (f : A -> bool) (l : list A) :
  (forall x, In x l -> f x = false) -> filter f l = [].
Proof.
  induction l as [|x l IH]; intros H; simpl; [reflexivity|].
  rewrite (H x (or_introl eq_refl)). apply IH. intros y Hy. apply H. now right.
Qed.

Lemma sweep_nothing config rs :
  (forall i, (i < List.length (jobs config))%nat ->
             In (i + 1)%nat (map Result.index rs)) ->
  Scheduler.sweep config rs = rs.
Proof.
  intros Hall. rewrite sweep_spec.
  replace (filter _ _) with (@nil (nat * BatchJobConfig));
    [now rewrite app_nil_r|].
  symmetry. apply filter_none.
  intros [i job] Hin. cbn [fst]. apply negb_false_iff.
  apply existsb_eqb_In, Hall.
  apply in_combine_l in Hin. apply in_seq in Hin. lia.
Qed.

Lemma report_settled config s startTime endTime :
  Scheduler.accounted (List.length (jobs config)) s ->
  Scheduler.running s = [] ->
  Limiter.queue (Scheduler.sem s) = [] ->
  let rep := Scheduler.report config s startTime endTime in
  Scheduler.cancelled rep = 0%nat
  /\ (Scheduler.succeeded rep + Scheduler.failed rep)%nat = Scheduler.total rep.
Proof.
  intros Hacc Hr Hq rep.
  pose proof (pushed_indices Hacc) as (Hidx & _ & _).
  pose proof Hacc as (Hperm & Hwf & _).
  unfold Scheduler.positions in Hperm. rewrite Hr, Hq in Hperm.
  cbn [map] in Hperm. rewrite !List.app_nil_r in Hperm.
  assert (Hsweep : Scheduler.sweep config (Scheduler.pushed s)
                   = Scheduler.pushed s).
  { apply sweep_nothing. intros i Hi. rewrite Hidx.
    apply in_map_iff.
    assert (Hin : In i (map Scheduler.place (Scheduler.landed s)))
      by (eapply Permutation_in; [symmetry; exact Hperm|apply in_seq; lia]).
    apply in_map_iff in Hin. destruct Hin as (r & <- & Hin).
    now exists r. }
  assert (Hcancel : Scheduler.cancelled rep = 0%nat).
  { subst rep. cbn [Scheduler.report Scheduler.cancelled].
    rewrite countStatus_sort, Hsweep. apply countStatus_none.
    unfold Scheduler.pushed. apply Forall_map.
    eapply Forall_impl; [|exact Hwf]. intros r [_ H]. exact H. }
  split; [exact Hcancel|].
  pose proof (@report_indices config s startTime endTime Hacc) as Hrep.
  fold rep in Hrep.
  pose proof (countStatus_total (Scheduler.results rep)) as Htot.
  rewrite <- (length_map Result.index), Hrep, length_seq in Htot.
  change (Scheduler.countStatus Completed (Scheduler.results rep))
    with (Scheduler.succeeded rep) in Htot.
  change (Scheduler.countStatus Failed (Scheduler.results rep))
    with (Scheduler.failed rep) in Htot.
  change (Scheduler.countStatus Cancelled (Scheduler.results rep))
    with (Scheduler.cancelled rep) in Htot.
  change (Scheduler.total rep) with (List.length (jobs config)). lia.
Qed.



(* ================================================================= *)
(** ** Jobs that wait for a permit *)

Section WaitingFacts.

Import Scheduler.

Variable config : BatchConfig.
Variable answers : nat -> nat -> Answer.

(** A task waits only when no permit is left. *)
Lemma launch_waiting at_ s t :
  (Limiter.queue (sem s) = [] \/ Limiter.permits (sem s) <= 0) ->
  Limiter.queue (sem (launch config answers at_ s t)) = []
  \/ Limiter.permits (sem (launch config answers at_ s t)) <= 0.
Proof.
  intros H. unfold launch, Limiter.acquire.
  destruct (Z.ltb_spec 0 (Limiter.permits (sem s))); cbn.
  - left. destruct H as [H|H]; [exact H|lia].
  - now right.
Qed.

Lemma launchAll_waiting C ts at_ :
  Limiter.queue (sem (launchAll config answers C ts at_)) = []
  \/ Limiter.permits (sem (launchAll config answers C ts at_)) <= 0.
Proof.
  unfold launchAll.
  set (s0 := {| sem := Limiter.new C; running := []; landed := [] |}).
  assert (H0 : Limiter.queue (sem s0) = [] \/ Limiter.permits (sem s0) <= 0)
    by now left.
  revert H0. generalize s0. clear s0.
  induction ts as [|t ts IH]; intros s H; [exact H|].
  cbn [fold_left]. apply IH. now apply launch_waiting.
Qed.

Lemma land_waiting r others s :
  (Limiter.queue (sem s) = [] \/ Limiter.permits (sem s) <= 0) ->
  Limiter.queue (sem (land config answers r others s)) = []
  \/ Limiter.permits (sem (land config answers r others s)) <= 0.
Proof.
  intros H. unfold land, Limiter.release.
  destruct (Limiter.queue (sem s)) as [|t q] eqn:Hq; cbn.
  - now left.
  - right. destruct H as [H|H]; [discriminate|exact H].
Qed.

Lemma runUntil_waiting deadline fuel s :
  (Limiter.queue (sem s) = [] \/ Limiter.permits (sem s) <= 0) ->
  Limiter.queue (sem (runUntil config answers deadline fuel s)) = []
  \/ Limiter.permits (sem (runUntil config answers deadline fuel s)) <= 0.
Proof.
  revert s. induction fuel as [|fuel IH]; intros s H; [exact H|].
  cbn [runUntil].
  destruct (nextToFinish (running s)) as [[r others]|]; [|exact H].
  destruct (finished r <? deadline); [|exact H].
  apply IH. now apply land_waiting.
Qed.

Lemma awaitJobs_waiting ts startTime :
  let s := fst (fst (awaitJobs config answers ts startTime)) in
  Limiter.queue (sem s) = [] \/ Limiter.permits (sem s) <= 0.
Proof.
  unfold awaitJobs. cbv zeta.
  destruct (allSettled _); cbn [fst];
    repeat apply runUntil_waiting; apply launchAll_waiting.
Qed.

Lemma awaitJobs_withinCapacity ts startTime :
  0 <= num_or (max_concurrent config) 2 ->
  withinCapacity (num_or (max_concurrent config) 2)
                 (fst (fst (awaitJobs config answers ts startTime))).
Proof.
  intros HC. unfold awaitJobs. cbv zeta.
  destruct (allSettled _); cbn [fst];
    repeat apply runUntil_withinCapacity; now apply launchAll_withinCapacity.
Qed.

End WaitingFacts.

(** X18: the scheduler keeps every permit busy while a job waits.  When
    the wait of [executeBatch] ends, if a task is still queued on the
    semaphore then no permit is left and exactly [max_concurrent] jobs are
    in flight; and a report that counts a cancelled job is made while at
    least one job is still in flight, none of which finishes before the
    report is made. *)
Theorem X18_permits_are_busy_while_a_job_waits
        config answers P env options startTime ts s endTime timedOut :
  1 <= num_or (max_concurrent config) 2 ->
  Scheduler.tasks config P env options = Some ts ->
  Scheduler.awaitJobs config answers ts startTime = (s, endTime, timedOut) ->
  (Limiter.queue (Scheduler.sem s) <> [] ->
   Limiter.permits (Scheduler.sem s) = 0
   /\ Z.of_nat (List.length (Scheduler.running s))
      = num_or (max_concurrent config) 2)
  /\ ((0 < Scheduler.cancelled (Scheduler.report config s startTime endTime))%nat ->
      Scheduler.running s <> []
      /\ Forall (fun r => endTime <= Scheduler.finished r)
                (Scheduler.running s)).
Proof.
  intros HC Hts Hwait.
  pose proof (awaitJobs_waiting config answers ts startTime) as Hbusy.
  pose proof (@awaitJobs_withinCapacity config answers ts startTime
                ltac:(lia)) as [Hperm Hcap].
  rewrite Hwait in Hbusy, Hperm, Hcap. cbn [fst] in Hbusy, Hperm, Hcap.
  assert (Hqueue : Limiter.queue (Scheduler.sem s) <> [] ->
                   Limiter.permits (Scheduler.sem s) = 0
                   /\ Z.of_nat (List.length (Scheduler.running s))
                      = num_or (max_concurrent config) 2).
  { intros Hq. destruct Hbusy as [H|H]; [now elim Hq|]. lia. }
  split; [exact Hqueue|].
  intros Hcancel.
  unfold Scheduler.tasks in Hts.
  pose proof (tasksFrom_spec _ _ _ _ _ Hts) as [Hpos _].
  pose proof (tasksFrom_length _ _ _ _ _ Hts) as Hlen.
  rewrite <- Hlen in Hpos.
  pose proof (awaitJobs_accounted config answers ts startTime Hpos) as Hacc.
  rewrite Hwait in Hacc. cbn [fst] in Hacc. rewrite Hlen in Hacc.
  assert (Hrun : Scheduler.running s <> []).
  { intros Hr.
    destruct (Limiter.queue (Scheduler.sem s)) as [|t q] eqn:Hq.
    - destruct (@report_settled config s startTime endTime Hacc Hr Hq)
        as [H0 _]. lia.
    - destruct Hqueue as [_ Hfull]; [discriminate|].
      rewrite Hr in Hfull. simpl in Hfull. lia. }
  split; [exact Hrun|].
  destruct timedOut.
  - destruct (awaitJobs_timedOut _ _ _ _ Hpos Hwait) as (-> & _ & H).
    exact H.
  - destruct (awaitJobs_settled _ _ _ _ Hpos Hwait) as (Hr & _).
    now elim Hrun.
Qed.

Lemma X18_permits_are_busy_while_a_job_waits_witness :
  let config := Sample.batch [Sample.cat; Sample.cat; Sample.cat]
                             (Some 1) (Some 1000) None in
  exists ts s endTime timedOut,
    Scheduler.tasks config Sample.paths Sample.process Sample.noOptions
    = Some ts
    /\ Scheduler.awaitJobs config Sample.slowThird ts 0
       = (s, endTime, timedOut)
    /\ List.length (Limiter.queue (Scheduler.sem s)) = 1%nat
    /\ Z.of_nat (List.length (Scheduler.running s)) = 1.
Proof.
  intros config. do 4 eexists.
  split; [reflexivity|]. split; [vm_compute; reflexivity|].
  split; [reflexivity|].
  refine (proj2 (proj1 (@X18_permits_are_busy_while_a_job_waits
                          config Sample.slowThird Sample.paths Sample.process
                          Sample.noOptions 0 _ _ _ _ _ eq_refl eq_refl) _)).
  - cbn. lia.
  - discriminate.
Defined.

(* ================================================================= *)
(** ** The attempt that completes a job *)

Section FirstSuccess.

Variable job : BatchJobConfig.
Variable index : nat.
Variable outputPath : string.
Variable config : BatchConfig.
Variable answers : nat -> Answer.

Let loop := Executor.attemptLoop job index outputPath config answers.

Lemma attemptsMade_call (w : World) (req : Request) (a : Answer) :
  Executor.attemptsMade (snd (awaitCall a req w))
  = S (Executor.attemptsMade w).
Proof.
  unfold Executor.attemptsMade, awaitCall. cbn.
  rewrite filter_app, length_app. cbn. lia.
Qed.

Lemma attemptsMade_pause (w : World) (b : bool) (ms : Z) :
  Executor.attemptsMade (snd ((if b then sleep ms else ret tt) w))
  = Executor.attemptsMade w.
Proof.
  destruct b; [|reflexivity].
  unfold Executor.attemptsMade, sleep. cbn.
  rewrite filter_app, length_app. cbn. lia.
Qed.

(** The loop ends at the first attempt that resolves. *)
Lemma attemptLoop_first_success before k after result startTime lastError w :
  (forall j, In j before -> exists e, snd (answers j) = Throws e) ->
  snd (answers k) = Resolves result ->
  let run := loop startTime (before ++ k :: after)%list lastError w in
  Result.status (fst run) = Completed
  /\ Result.output_paths (fst run)
     = Some (Executor.recordedPaths outputPath result)
  /\ Result.revised_prompt (fst run) = snd (Executor.parseResult result)
  /\ Executor.attemptsMade (snd run)
     = (Executor.attemptsMade w + List.length before + 1)%nat.
Proof.
  intros Hbefore Hk. revert lastError w.
  induction before as [|j before IH]; intros lastError w run; subst run.
  - cbn [app]. subst loop.
    rewrite (@attemptLoop_resolves job index outputPath config answers
               startTime k after lastError w result Hk).
    cbn [fst snd]. rewrite attemptsMade_call. cbn. repeat split. lia.
  - cbn [app]. destruct (Hbefore j (or_introl eq_refl)) as [e He].
    subst loop.
    rewrite (@attemptLoop_throws job index outputPath config answers
               startTime j (before ++ k :: after)%list lastError w e He).
    destruct (IH (fun j' H => Hbefore j' (or_intror H))
                 (Executor.errorText e)
                 (snd ((if Retry.shouldRetry (Executor.errorText e)
                             (Z.of_nat j) (Retry.maxRetries config)
                             (Retry.retryPatterns config)
                        then sleep (Retry.retryDelay config)
                        else ret tt)
                         (snd (awaitCall (answers j)
                                 (Executor.request job outputPath config) w)))))
      as (H1 & H2 & H3 & H4).
    repeat split; auto.
    rewrite H4, attemptsMade_pause, attemptsMade_call. cbn [List.length]. lia.
Qed.

Lemma attemptLoop_completed_iff attempts startTime lastError w :
  Result.status (fst (loop startTime attempts lastError w)) = Completed
  <-> exists k result, In k attempts /\ snd (answers k) = Resolves result.
Proof.
  split.
  - intros H.
    destruct (@attemptLoop_completed job index outputPath config answers
                startTime attempts lastError w H) as (k & result & Hin & Hk & _).
    now exists k, result.
  - revert lastError w. induction attempts as [|a later IH];
      intros lastError w (k & result & Hin & Hk); [now elim Hin|].
    destruct (snd (answers a)) as [r|e] eqn:Ha.
    + subst loop.
      now rewrite (@attemptLoop_resolves job index outputPath config answers
                     startTime a later lastError w r Ha).
    + subst loop.
      rewrite (@attemptLoop_throws job index outputPath config answers
                 startTime a later lastError w e Ha).
      apply IH. exists k, result. split; [|exact Hk].
      destruct Hin as [<-|Hin]; [congruence|exact Hin].
Qed.

End FirstSuccess.

Lemma seq_split_at (n k : nat) :
  (k < n)%nat -> seq 0 n = (seq 0 k ++ k :: seq (S k) (n - S k))%list.
Proof.
  intros Hlt. replace n with (k + S (n - S k))%nat at 1 by lia.
  now rewrite seq_app.
Qed.

(** X19: which attempt completes a job.  [executeJob] returns a
    completed result exactly when one of its [max_retries + 1] attempts
    resolves; the result is then that of the first attempt that resolves:
    its paths and its revised prompt are the ones read from that answer,
    and the image tool has been called once for every attempt up to that
    one and never again. *)
Theorem X19_first_resolving_attempt_completes_the_job
        (job : BatchJobConfig) (index : nat) (outputPath : string)
        (config : BatchConfig) (answers : nat -> Answer) (w : World) :
  let run := Executor.executeJob job index outputPath config answers w in
  (Result.status (fst run) = Completed
   <-> exists k result,
       In k (Executor.attemptRange config)
       /\ snd (answers k) = Resolves result)
  /\ (forall k result,
        In k (Executor.attemptRange config) ->
        snd (answers k) = Resolves result ->
        (forall j, (j < k)%nat -> exists e, snd (answers j) = Throws e) ->
        Result.status (fst run) = Completed
        /\ Result.output_paths (fst run)
           = Some (Executor.recordedPaths outputPath result)
        /\ Result.revised_prompt (fst run)
           = snd (Executor.parseResult result)
        /\ Executor.attemptsMade (snd run)
           = (Executor.attemptsMade w + k + 1)%nat).
Proof.
  intros run. subst run. rewrite executeJob_loop. split.
  - apply attemptLoop_completed_iff.
  - intros k result Hin Hk Hbefore.
    unfold Executor.attemptRange in *. apply in_seq in Hin.
    rewrite (@seq_split_at _ k) by lia.
    pose proof (@attemptLoop_first_success job index outputPath config answers
                  (seq 0 k) k
                  (seq (S k) (Z.to_nat (Retry.maxRetries config + 1) - S k))
                  result (now w) EmptyString w) as H.
    rewrite length_seq in H. apply H; [|exact Hk].
    intros j Hj. apply in_seq in Hj. apply Hbefore. lia.
Qed.

(* ================================================================= *)
(** ** The breakdown accounts for every job *)





(* ================================================================= *)
(** ** Jobs start in the order of the batch *)

Section StartOrder.

Import Scheduler.

Variable config : BatchConfig.
Variable answers : nat -> nat -> Answer.

(** Of the first [n] tasks, the first [k] have started and the others
    wait in their order. *)
Let inOrder (n : nat) (s : Sched) : Prop :=
  exists k : nat,
    (k <= n)%nat
    /\ map position (Limiter.queue (sem s)) = seq k (n - k)
    /\ Permutation (map place (landed s) ++ map place (running s))%list
                   (seq 0 k).

Lemma launch_inOrder at_ n s t :
  position t = n ->
  (Limiter.queue (sem s) = [] \/ Limiter.permits (sem s) <= 0) ->
  inOrder n s -> inOrder (S n) (launch config answers at_ s t).
Proof.
  intros Ht Hbusy (k & Hk & Hq & Hp). unfold launch, Limiter.acquire.
  destruct (Z.ltb_spec 0 (Limiter.permits (sem s))) as [Hpos|Hneg].
  - destruct Hbusy as [Hempty|?]; [|lia].
    rewrite Hempty in Hq. cbn [map] in Hq.
    assert (k = n) by (destruct (n - k)%nat eqn:E; [lia|discriminate]).
    subst k. exists (S n). cbn [sem running landed Limiter.queue].
    rewrite Hempty, Nat.sub_diag. repeat split; [lia|].
    rewrite map_app, app_assoc, seq_S. cbn [map].
    rewrite start_finished_place, Ht. now apply Permutation_app_tail.
  - exists k. cbn [sem running landed Limiter.queue].
    split; [lia|]. split; [|exact Hp].
    rewrite map_app, Hq. cbn [map]. rewrite Ht.
    replace (S n - k)%nat with (S (n - k)) by lia.
    rewrite seq_S. do 2 f_equal. lia.
Qed.

Lemma launches_inOrder at_ ts s n :
  map position ts = seq n (List.length ts) ->
  (Limiter.queue (sem s) = [] \/ Limiter.permits (sem s) <= 0) ->
  inOrder n s ->
  inOrder (n + List.length ts) (fold_left (launch config answers at_) ts s).
Proof.
  revert s n. induction ts as [|t ts IH]; intros s n Hts Hbusy Hin.
  - cbn. now rewrite Nat.add_0_r.
  - cbn [fold_left List.length]. cbn [map List.length seq] in Hts.
    injection Hts as Ht Hts.
    replace (n + S (List.length ts))%nat with (S n + List.length ts)%nat
      by lia.
    apply IH; [exact Hts|now apply launch_waiting|now apply launch_inOrder].
Qed.

Lemma land_inOrder n r others s :
  nextToFinish (running s) = Some (r, others) ->
  inOrder n s -> inOrder n (land config answers r others s).
Proof.
  intros Hnext (k & Hk & Hq & Hp).
  apply nextToFinish_spec in Hnext. destruct Hnext as [Hperm _].
  assert (Hrun : Permutation (map place (running s))
                             (place r :: map place others))
    by (change (place r :: map place others) with (map place (r :: others));
        now apply Permutation_map).
  unfold land, Limiter.release.
  destruct (Limiter.queue (sem s)) as [|t q] eqn:Hqueue;
    cbn [sem running landed Limiter.queue].
  - exists k. cbn [sem running landed Limiter.queue].
    split; [exact Hk|]. split; [exact Hq|].
    rewrite map_app. cbn [map].
    replace ((map place (landed s) ++ [place r]) ++ map place others)%list
      with (map place (landed s) ++ place r :: map place others)%list
      by (now rewrite <- List.app_assoc).
    rewrite <- Hp. apply Permutation_app_head. now symmetry.
  - cbn [map] in Hq.
    assert (Hlt : (k < n)%nat) by (destruct (n - k)%nat eqn:E; [discriminate|lia]).
    replace (n - k)%nat with (S (n - S k)) in Hq by lia.
    cbn [seq] in Hq. injection Hq as Ht Hq'.
    exists (S k). cbn [sem running landed Limiter.queue].
    split; [lia|]. split; [exact Hq'|].
    rewrite !map_app. cbn [map]. rewrite start_finished_place, Ht, seq_S.
    cbn [plus].
    replace ((map place (landed s) ++ [place r])
             ++ map place others ++ [k])%list
      with ((map place (landed s) ++ place r :: map place others) ++ [k])%list
      by (now rewrite <- !List.app_assoc).
    apply Permutation_app_tail. rewrite <- Hp.
    apply Permutation_app_head. now symmetry.
Qed.

Lemma runUntil_inOrder n deadline fuel s :
  inOrder n s -> inOrder n (runUntil config answers deadline fuel s).
Proof.
  revert s. induction fuel as [|fuel IH]; intros s H; [exact H|].
  cbn [runUntil].
  destruct (nextToFinish (running s)) as [[r others]|] eqn:E; [|exact H].
  destruct (finished r <? deadline); [|exact H].
  apply IH. now apply land_inOrder.
Qed.

Lemma awaitJobs_inOrder ts startTime :
  map position ts = seq 0 (List.length ts) ->
  exists k : nat,
    let s := fst (fst (awaitJobs config answers ts startTime)) in
    (k <= List.length ts)%nat
    /\ map position (Limiter.queue (sem s)) = seq k (List.length ts - k)
    /\ Permutation (map place (landed s) ++ map place (running s))%list
                   (seq 0 k).
Proof.
  intros Hts.
  assert (H0 : inOrder (List.length ts)
                 (launchAll config answers (num_or (max_concurrent config) 2)
                            ts startTime)).
  { unfold launchAll.
    apply (@launches_inOrder startTime ts _ 0 Hts); [now left|].
    exists 0%nat. cbn. repeat split; [lia|constructor]. }
  unfold awaitJobs. cbv zeta.
  destruct (allSettled _); cbn [fst];
    repeat apply runUntil_inOrder; exact H0.
Qed.

End StartOrder.

(** X21: jobs start in the order of the batch.  When the wait of
    [executeBatch] ends, the jobs that have obtained a permit (those that
    have pushed a result and those in flight) are the first [k] jobs of the
    batch, and the jobs still waiting are the others, queued in their
    order: no job has started before a job that precedes it in the
    batch. *)
Theorem X21_jobs_start_in_batch_order
        config answers P env options startTime ts s endTime timedOut :
  Scheduler.tasks config P env options = Some ts ->
  Scheduler.awaitJobs config answers ts startTime = (s, endTime, timedOut) ->
  exists k : nat,
    (k <= List.length (jobs config))%nat
    /\ map Scheduler.position (Limiter.queue (Scheduler.sem s))
       = seq k (List.length (jobs config) - k)
    /\ Permutation (map Scheduler.place (Scheduler.landed s)
                    ++ map Scheduler.place (Scheduler.running s))%list
                   (seq 0 k)
    /\ (forall t r,
          In t (Limiter.queue (Scheduler.sem s)) ->
          In r (Scheduler.landed s ++ Scheduler.running s)%list ->
          (Scheduler.place r < Scheduler.position t)%nat).
Proof.
  intros Hts Hwait. unfold Scheduler.tasks in Hts.
  pose proof (tasksFrom_spec _ _ _ _ _ Hts) as [Hpos _].
  pose proof (tasksFrom_length _ _ _ _ _ Hts) as Hlen.
  rewrite <- Hlen in Hpos.
  destruct (awaitJobs_inOrder config answers ts startTime Hpos)
    as (k & Hk & Hq & Hp).
  rewrite Hwait in Hq, Hp. cbn [fst] in Hq, Hp.
  rewrite Hlen in Hk, Hq.
  exists k. split; [exact Hk|]. split; [exact Hq|]. split; [exact Hp|].
  intros t r Ht Hr.
  assert (Htk : In (Scheduler.position t) (seq k (List.length (jobs config) - k)))
    by (rewrite <- Hq; now apply in_map).
  assert (Hrk : In (Scheduler.place r) (seq 0 k)).
  { eapply Permutation_in; [exact Hp|].
    rewrite <- map_app. now apply in_map. }
  apply in_seq in Htk. apply in_seq in Hrk. lia.
Qed.

Lemma X21_jobs_start_in_batch_order_witness :
  let config := Sample.batch [Sample.cat; Sample.cat; Sample.cat]
                             (Some 1) (Some 1000) None in
  exists ts s endTime timedOut,
    Scheduler.tasks config Sample.paths Sample.process Sample.noOptions
    = Some ts
    /\ Scheduler.awaitJobs config Sample.slowThird ts 0
       = (s, endTime, timedOut)
    /\ map Scheduler.position (Limiter.queue (Scheduler.sem s)) = [2%nat]
    /\ exists k : nat,
        map Scheduler.position (Limiter.queue (Scheduler.sem s))
        = seq k (3 - k).
Proof.
  intros config. do 4 eexists.
  split; [reflexivity|]. split; [vm_compute; reflexivity|].
  split; [reflexivity|].
  destruct (@X21_jobs_start_in_batch_order
              config Sample.slowThird Sample.paths Sample.process
              Sample.noOptions 0 _ _ _ _ eq_refl eq_refl)
    as (k & _ & Hq & _).
  exists k. exact Hq.
Defined.

(* ================================================================= *)
(** ** After the report *)

Section AfterwardsFacts.

Import Scheduler.

Variable config : BatchConfig.
Variable answers : nat -> nat -> Answer.

Lemma runOn_accounted n fuel s :
  accounted n s -> accounted n (Afterwards.runOn config answers fuel s).
Proof.
  revert s. induction fuel as [|fuel IH]; intros s H; [exact H|].
  cbn [Afterwards.runOn].
  destruct (nextToFinish (running s)) as [[r others]|] eqn:E; [|exact H].
  apply IH. now apply land_accounted.
Qed.

Lemma runOn_landed fuel s :
  exists late,
    landed (Afterwards.runOn config answers fuel s) = (landed s ++ late)%list.
Proof.
  revert s. induction fuel as [|fuel IH]; intros s.
  - exists []. cbn. now rewrite List.app_nil_r.
  - cbn [Afterwards.runOn].
    destruct (nextToFinish (running s)) as [[r others]|] eqn:E.
    + destruct (IH (land config answers r others s)) as [late Hlate].
      exists (r :: late). rewrite Hlate. unfold land.
      destruct (Limiter.release (sem s)) as [next sem']. cbn [landed].
      now rewrite <- List.app_assoc.
    + exists []. now rewrite List.app_nil_r.
Qed.

(** With a permit at least, a waiting task is never left alone: the
    event loop has a run to land as long as a task is left. *)
Lemma runOn_settles C fuel s :
  1 <= C ->
  withinCapacity C s ->
  (Limiter.queue (sem s) = [] \/ Limiter.permits (sem s) <= 0) ->
  (List.length (running s) + List.length (Limiter.queue (sem s)) <= fuel)%nat ->
  allSettled (Afterwards.runOn config answers fuel s) = true.
Proof.
  intros HC. revert s. induction fuel as [|fuel IH]; intros s Hcap Hbusy Hfuel.
  - cbn [Afterwards.runOn]. apply allSettled_spec.
    destruct (running s), (Limiter.queue (sem s)); cbn in Hfuel; try lia.
    now split.
  - cbn [Afterwards.runOn].
    destruct (nextToFinish (running s)) as [[r others]|] eqn:E.
    + apply IH.
      * now apply land_withinCapacity.
      * now apply land_waiting.
      * pose proof (land_pending config answers _ E). lia.
    + apply nextToFinish_none in E. apply allSettled_spec.
      split; [exact E|].
      destruct Hbusy as [Hq|Hp]; [exact Hq|].
      destruct Hcap as [Hpos Hsum]. rewrite E in Hsum. cbn in Hsum. lia.
Qed.

End AfterwardsFacts.

Lemma NoDup_app_disjoint {A} (l1 l2 : list A) (a : A) :
  NoDup (l1 ++ l2) -> In a l1 -> In a l2 -> False.
Proof.
  induction l1 as [|x l1 IH]; intros Hn H1 H2; [now elim H1|].
  cbn [app] in Hn. inversion Hn as [|? ? Hx Hrest]; subst.
  destruct H1 as [->|H1]; [|now apply IH].
  apply Hx. apply in_or_app. now right.
Qed.

Lemma report_cancelled_iff config s startTime endTime (i : nat) :
  Scheduler.accounted (List.length (jobs config)) s ->
  (exists r, In r (Scheduler.results
                     (Scheduler.report config s startTime endTime))
             /\ Result.status r = Cancelled /\ Result.index r = i)
  <-> ((1 <= i <= List.length (jobs config))%nat
       /\ ~ In i (map Result.index (Scheduler.pushed s))).
Proof.
  intros Hacc. pose proof Hacc as (_ & Hwf & _).
  cbn [Scheduler.report Scheduler.results]. split.
  - intros (r & Hin & Hst & Hi).
    apply (Permutation_in _ (sortByIndex_perm _)) in Hin.
    rewrite sweep_spec in Hin. apply in_app_or in Hin.
    destruct Hin as [Hin|Hin].
    + exfalso. unfold Scheduler.pushed in Hin. apply in_map_iff in Hin.
      destruct Hin as (run & <- & Hrun).
      rewrite Forall_forall in Hwf. now destruct (Hwf run Hrun).
    + apply in_map_iff in Hin. destruct Hin as ([j job] & <- & Hin).
      apply filter_In in Hin. destruct Hin as [Hin Hnot].
      cbn [fst snd] in *. cbn [Scheduler.cancelledResult Result.index] in Hi.
      subst i. apply in_combine_l in Hin. apply in_seq in Hin.
      split; [lia|]. apply negb_true_iff in Hnot.
      intros Hc. apply existsb_eqb_In in Hc. congruence.
  - intros [Hi Hnot].
    destruct (nth_error (jobs config) (i - 1)) as [job|] eqn:Hjob;
      [|apply nth_error_None in Hjob; lia].
    exists (Scheduler.cancelledResult i (prompt job)).
    split; [|split; reflexivity].
    apply (Permutation_in _ (Permutation_sym (sortByIndex_perm _))).
    rewrite sweep_spec. apply in_or_app. right.
    apply in_map_iff. exists ((i - 1)%nat, job). cbn [fst snd].
    split; [f_equal; lia|].
    apply filter_In. split.
    + pose proof (@in_combine_seq _ (jobs config) 0 (i - 1) job Hjob) as H.
      exact H.
    + cbn [fst]. apply negb_true_iff.
      destruct (existsb _ _) eqn:Hex; [|reflexivity].
      apply existsb_eqb_In in Hex. exfalso. apply Hnot.
      now replace i with (i - 1 + 1)%nat by lia.
Qed.

Lemma report_cancelled_count config s startTime endTime :
  Scheduler.accounted (List.length (jobs config)) s ->
  (Scheduler.cancelled (Scheduler.report config s startTime endTime)
   + List.length (Scheduler.pushed s))%nat
  = List.length (jobs config).
Proof.
  intros Hacc. pose proof Hacc as (_ & Hwf & _).
  pose proof (@report_indices config s startTime endTime Hacc) as Hidx.
  apply (f_equal (@List.length nat)) in Hidx.
  rewrite length_map, length_seq in Hidx.
  pose proof (countStatus_total
                (Scheduler.results
                   (Scheduler.report config s startTime endTime))) as Htot.
  rewrite Hidx in Htot.
  cbn [Scheduler.report Scheduler.results Scheduler.cancelled] in *.
  rewrite !countStatus_sort in Htot.
  rewrite !countStatus_sweep in Htot by discriminate.
  rewrite countStatus_sort.
  pose proof (countStatus_total (Scheduler.pushed s)) as Hpushed.
  assert (Hnone : Scheduler.countStatus Cancelled (Scheduler.pushed s) = 0%nat).
  { apply countStatus_none. unfold Scheduler.pushed. apply Forall_map.
    eapply Forall_impl; [|exact Hwf]. intros r [_ H]. exact H. }
  lia.
Qed.

(** X22: a job the report counts as cancelled is not stopped.  With a
    permit at least, when the process goes on after [executeBatch] has
    returned, every task left at the report runs to its end: the jobs in
    flight finish, the waiting ones obtain a permit, call the image tool
    and finish in their turn.  Each of them pushes a completed or failed
    result into [results], the array the report holds, which ends with two
    entries for every job reported as cancelled, and with no other late
    entry. *)
Theorem X22_cancelled_jobs_run_on_after_the_report
        config answers P env options startTime ts s endTime timedOut :
  1 <= num_or (max_concurrent config) 2 ->
  Scheduler.tasks config P env options = Some ts ->
  Scheduler.awaitJobs config answers ts startTime = (s, endTime, timedOut) ->
  let rep := Scheduler.report config s startTime endTime in
  let late := Afterwards.latePushes config answers s in
  Scheduler.allSettled (Afterwards.atRest config answers s) = true
  /\ Forall (fun r => Result.status r = Completed \/ Result.status r = Failed)
            late
  /\ NoDup (map Result.index late)
  /\ (forall i, In i (map Result.index late)
                <-> exists r, In r (Scheduler.results rep)
                              /\ Result.status r = Cancelled
                              /\ Result.index r = i)
  /\ List.length (Afterwards.resultsAtRest config answers s rep)
     = (List.length (jobs config) + Scheduler.cancelled rep)%nat.
Proof.
  intros HC Hts Hwait rep late.
  unfold Scheduler.tasks in Hts.
  pose proof (tasksFrom_spec _ _ _ _ _ Hts) as [Hpos _].
  pose proof (tasksFrom_length _ _ _ _ _ Hts) as Hlen.
  rewrite <- Hlen in Hpos.
  pose proof (awaitJobs_accounted config answers ts startTime Hpos) as Hacc.
  pose proof (awaitJobs_waiting config answers ts startTime) as Hbusy.
  pose proof (@awaitJobs_withinCapacity config answers ts startTime
                ltac:(lia)) as Hcap.
  rewrite Hwait in Hacc, Hbusy, Hcap. cbn [fst] in Hacc, Hbusy, Hcap.
  rewrite Hlen in Hacc.
  set (n := List.length (jobs config)) in *.
  assert (Hrest : Scheduler.allSettled (Afterwards.atRest config answers s)
                  = true)
    by (unfold Afterwards.atRest;
        apply (@runOn_settles config answers _ _ s HC Hcap Hbusy); lia).
  pose proof (@runOn_accounted config answers n
                (List.length (Scheduler.running s)
                 + List.length (Limiter.queue (Scheduler.sem s))) s Hacc)
    as Hacc'.
  fold (Afterwards.atRest config answers s) in Hacc'.
  destruct (runOn_landed config answers
              (List.length (Scheduler.running s)
               + List.length (Limiter.queue (Scheduler.sem s))) s)
    as [runs Hruns].
  fold (Afterwards.atRest config answers s) in Hruns.
  assert (Hlate : late = map Scheduler.outcome runs).
  { subst late. unfold Afterwards.latePushes, Scheduler.pushed.
    rewrite Hruns, map_app, <- (length_map Scheduler.outcome).
    now rewrite skipn_app, skipn_all, Nat.sub_diag. }
  destruct Hacc' as (Hperm & Hwf' & _).
  apply allSettled_spec in Hrest. destruct Hrest as [Hr Hq].
  unfold Scheduler.positions in Hperm. rewrite Hr, Hq, Hruns in Hperm.
  cbn [map] in Hperm. rewrite !List.app_nil_r, map_app in Hperm.
  rewrite Hruns in Hwf'. apply Forall_app in Hwf'. destruct Hwf' as [_ Hwf'].
  assert (Hidx : map Result.index late
                 = map (fun r => (Scheduler.place r + 1)%nat) runs).
  { rewrite Hlate, map_map. apply map_ext_in. intros r Hin.
    rewrite Forall_forall in Hwf'. now destruct (Hwf' r Hin). }
  pose proof (pushed_indices Hacc) as (Hpushed & _ & _).
  assert (Hnodup : NoDup (map Scheduler.place (Scheduler.landed s)
                          ++ map Scheduler.place runs)%list)
    by (eapply Permutation_NoDup; [symmetry; exact Hperm|apply seq_NoDup]).
  split; [apply allSettled_spec; now split|]. split; [|split; [|split]].
  - rewrite Hlate. apply Forall_map. eapply Forall_impl; [|exact Hwf'].
    intros r [_ Hst]. destruct (Result.status (Scheduler.outcome r));
      [now left|now right|now elim Hst].
  - rewrite Hidx. apply NoDup_app_remove_l in Hnodup.
    rewrite <- (map_map Scheduler.place (fun p => (p + 1)%nat)).
    apply Injective_map_NoDup; [|exact Hnodup]. intros a b Hab. lia.
  - intros i. subst rep.
    rewrite (@report_cancelled_iff config s startTime endTime i Hacc).
    fold n. rewrite Hidx, Hpushed, !in_map_iff. split.
    + intros (r & <- & Hin). split.
      * assert (Hseq : In (Scheduler.place r) (seq 0 n)).
        { eapply Permutation_in; [exact Hperm|].
          apply in_or_app. right. now apply in_map. }
        apply in_seq in Hseq. lia.
      * intros (r' & Heq & Hin').
        assert (Hplace : Scheduler.place r' = Scheduler.place r) by lia.
        apply (NoDup_app_disjoint _ _ (Scheduler.place r) Hnodup).
        -- rewrite <- Hplace. now apply in_map.
        -- now apply in_map.
    + intros [Hi Hnot].
      assert (Hseq : In (i - 1)%nat (seq 0 n)) by (apply in_seq; lia).
      apply (Permutation_in _ (Permutation_sym Hperm)) in Hseq.
      apply in_app_or in Hseq. destruct Hseq as [Hin|Hin].
      * exfalso. apply Hnot. apply in_map_iff in Hin.
        destruct Hin as (r & Hr' & Hin). exists r. split; [lia|exact Hin].
      * apply in_map_iff in Hin. destruct Hin as (r & Hr' & Hin).
        exists r. split; [lia|exact Hin].
  - unfold Afterwards.resultsAtRest. fold late. rewrite length_app.
    pose proof (@report_indices config s startTime endTime Hacc) as Hrep.
    apply (f_equal (@List.length nat)) in Hrep.
    rewrite length_map, length_seq in Hrep. fold rep in Hrep. rewrite Hrep.
    pose proof (@report_cancelled_count config s startTime endTime Hacc) as Hcount.
    fold rep n in Hcount.
    apply Permutation_length in Hperm.
    rewrite length_app, !length_map, length_seq in Hperm.
    rewrite Hlate, length_map. unfold Scheduler.pushed in Hcount.
    rewrite length_map in Hcount. fold n. lia.
Qed.

Lemma X22_cancelled_jobs_run_on_after_the_report_witness :
  let config := Sample.batch [Sample.cat; Sample.cat; Sample.cat]
                             (Some 1) (Some 1000) None in
  exists ts s endTime timedOut,
    Scheduler.tasks config Sample.paths Sample.process Sample.noOptions
    = Some ts
    /\ Scheduler.awaitJobs config Sample.slowThird ts 0
       = (s, endTime, timedOut)
    /\ Scheduler.cancelled (Scheduler.report config s 0 endTime) = 2%nat
    /\ map Result.index (Afterwards.latePushes config Sample.slowThird s)
       = [2; 3]%nat
    /\ List.length
         (Afterwards.resultsAtRest config Sample.slowThird s
            (Scheduler.report config s 0 endTime))
       = (3 + 2)%nat.
Proof.
  intros config. do 4 eexists.
  split; [reflexivity|]. split; [vm_compute; reflexivity|].
  split; [vm_compute; reflexivity|]. split; [vm_compute; reflexivity|].
  refine (proj2 (proj2 (proj2 (proj2
            (@X22_cancelled_jobs_run_on_after_the_report
               config Sample.slowThird Sample.paths Sample.process
               Sample.noOptions 0 _ _ _ _ _ eq_refl eq_refl))))).
  cbn. lia.
Defined.
